(** * gochan: shared-memory channels, WaitGroup, worker pool, size helper

    A shallow embedding of the TypeScript sources of the gochan runtime
    (channel.ts, wait-group.ts, worker-pool.ts, with-safety.ts) and the
    properties of its specification that can be settled on it. *)

From Stdlib Require Import ZArith List Lia Bool QArith Qround.
Import ListNotations.
Open Scope Z_scope.

(* ===================================================================== *)
(** ** JavaScript numbers, as far as the channel arithmetic needs them  *)
(* ===================================================================== *)

Module JS.

(** A JS number restricted to the integers the code computes with;
    [None] is NaN (the result of [x % 0]). *)
Definition number := option Z.

Definition ToInt32 (n : Z) : Z := (n + 2 ^ 31) mod 2 ^ 32 - 2 ^ 31.

Definition ToUint32 (n : Z) : Z := n mod 2 ^ 32.

(** [a % b]: the sign follows the dividend, and [b = 0] gives NaN. *)
Definition rem (a b : Z) : number :=
  if b =? 0 then None else Some (Z.rem a b).

Definition mul (a : number) (b : Z) : number :=
  match a with Some x => Some (x * b) | None => None end.

Definition add (a : number) (b : Z) : number :=
  match a with Some x => Some (x + b) | None => None end.

(** Comparisons with NaN are false. *)
Definition ge (a : number) (b : Z) : bool :=
  match a with Some x => b <=? x | None => false end.

Definition lt (a : number) (b : Z) : bool :=
  match a with Some x => x <? b | None => false end.

(** ToIndex: NaN becomes 0, a negative index is a RangeError ([None]). *)
Definition ToIndex (a : number) : option Z :=
  match a with
  | None => Some 0
  | Some x => if x <? 0 then None else Some x
  end.

End JS.

(* ===================================================================== *)
(** ** DataView over the slot storage (bytes after the 28-byte header)  *)
(* ===================================================================== *)

Module DataView.

Definition t := list Z.

Definition byteLength (dv : t) : Z := Z.of_nat (length dv).

Fixpoint update (dv : t) (i : nat) (b : Z) : t :=
  match dv, i with
  | [], _ => []
  | _ :: tl, O => b :: tl
  | x :: tl, S j => x :: update tl j b
  end.

(** [setUint8]: [None] is the RangeError of an out-of-bounds access. *)
Definition setUint8 (dv : t) (byteOffset : JS.number) (v : Z) : option t :=
  match JS.ToIndex byteOffset with
  | None => None
  | Some i =>
      if i + 1 <=? byteLength dv
      then Some (update dv (Z.to_nat i) (v mod 256))
      else None
  end.

Definition getUint8 (dv : t) (byteOffset : JS.number) : option Z :=
  match JS.ToIndex byteOffset with
  | None => None
  | Some i =>
      if i + 1 <=? byteLength dv
      then Some (nth (Z.to_nat i) dv 0)
      else None
  end.

(** Little-endian 32-bit store ([littleEndian = true] at both call sites). *)
Definition setUint32 (dv : t) (byteOffset : JS.number) (v : Z) : option t :=
  match JS.ToIndex byteOffset with
  | None => None
  | Some i =>
      if i + 4 <=? byteLength dv
      then
        let u := JS.ToUint32 v in
        let n := Z.to_nat i in
        Some (update (update (update (update dv n (u mod 256))
                                (S n) ((u / 256) mod 256))
                        (S (S n)) ((u / 65536) mod 256))
                (S (S (S n))) ((u / 16777216) mod 256))
      else None
  end.

Definition getUint32 (dv : t) (byteOffset : JS.number) : option Z :=
  match JS.ToIndex byteOffset with
  | None => None
  | Some i =>
      if i + 4 <=? byteLength dv
      then
        let n := Z.to_nat i in
        Some (nth n dv 0 + 256 * nth (S n) dv 0 + 65536 * nth (S (S n)) dv 0
              + 16777216 * nth (S (S (S n))) dv 0)
      else None
  end.

End DataView.

(* ===================================================================== *)
(** ** The channel header and the atomic operations on it               *)
(* ===================================================================== *)

(** [interface ChannelHeader]: the seven int32 words, in layout order. *)
Record ChannelHeader : Type := mkHeader {
  h_bufferSize : Z;
  h_writeIndex : Z;
  h_readIndex : Z;
  h_closed : Z;
  h_elementSize : Z;
  h_waitingSenders : Z;
  h_waitingReceivers : Z
}.

Definition HEADER_SIZE : Z := 7 * 4.

Definition header_words (h : ChannelHeader) : list Z :=
  [h_bufferSize h; h_writeIndex h; h_readIndex h; h_closed h;
   h_elementSize h; h_waitingSenders h; h_waitingReceivers h].

Module Atomics.

Definition load (h : ChannelHeader) (index : Z) : Z :=
  nth (Z.to_nat index) (header_words h) 0.

(** Storing into an Int32Array converts the value with ToInt32. *)
Definition store (h : ChannelHeader) (index : Z) (value : Z) : ChannelHeader :=
  let v := JS.ToInt32 value in
  match index with
  | 0 => mkHeader v (h_writeIndex h) (h_readIndex h) (h_closed h)
           (h_elementSize h) (h_waitingSenders h) (h_waitingReceivers h)
  | 1 => mkHeader (h_bufferSize h) v (h_readIndex h) (h_closed h)
           (h_elementSize h) (h_waitingSenders h) (h_waitingReceivers h)
  | 2 => mkHeader (h_bufferSize h) (h_writeIndex h) v (h_closed h)
           (h_elementSize h) (h_waitingSenders h) (h_waitingReceivers h)
  | 3 => mkHeader (h_bufferSize h) (h_writeIndex h) (h_readIndex h) v
           (h_elementSize h) (h_waitingSenders h) (h_waitingReceivers h)
  | 4 => mkHeader (h_bufferSize h) (h_writeIndex h) (h_readIndex h)
           (h_closed h) v (h_waitingSenders h) (h_waitingReceivers h)
  | 5 => mkHeader (h_bufferSize h) (h_writeIndex h) (h_readIndex h)
           (h_closed h) (h_elementSize h) v (h_waitingReceivers h)
  | 6 => mkHeader (h_bufferSize h) (h_writeIndex h) (h_readIndex h)
           (h_closed h) (h_elementSize h) (h_waitingSenders h) v
  | _ => h
  end.

Definition add (h : ChannelHeader) (index : Z) (value : Z) : ChannelHeader :=
  store h index (load h index + value).

Definition sub (h : ChannelHeader) (index : Z) (value : Z) : ChannelHeader :=
  store h index (load h index - value).

End Atomics.

(** Errors a channel operation can reject with. *)
Inductive error : Type :=
| ClosedError           (* 'Cannot send to closed channel' *)
| ClosedAndEmptyError   (* 'Channel is closed and empty' *)
| RangeError            (* thrown by SharedArrayBuffer / DataView *)
| SerializerError       (* thrown by the serializer *)
| DeserializerError.    (* thrown by the deserializer *)

Inductive settled (A : Type) : Type :=
| Resolved (a : A)
| Rejected (e : error).
Arguments Resolved {A} a.
Arguments Rejected {A} e.

(** The state of one [SharedChannel] object together with the shared
    region it views. *)
Record SharedChannel : Type := mkChannel {
  header : ChannelHeader;
  dataView : DataView.t;
  bufferSize : Z;
  elementSize : Z
}.

Definition with_header (ch : SharedChannel) (h : ChannelHeader) : SharedChannel :=
  mkChannel h (dataView ch) (bufferSize ch) (elementSize ch).

Definition with_dataView (ch : SharedChannel) (dv : DataView.t) : SharedChannel :=
  mkChannel (header ch) dv (bufferSize ch) (elementSize ch).

(** [new SharedChannel(bufferSize, elementSize)].  [maxByteLength] is the
    largest length the platform allocates for a SharedArrayBuffer.  The
    allocation throws for a negative or too large [totalSize]; the
    seven-word Int32Array and the DataView at offset 28 throw when the
    region is shorter than the header. *)
Definition new_SharedChannel (maxByteLength : Z) (bufferSize elementSize : Z)
  : settled SharedChannel :=
  let totalSize := HEADER_SIZE + bufferSize * elementSize in
  if (totalSize <? 0) || (maxByteLength <? totalSize) then Rejected RangeError
  else if totalSize <? HEADER_SIZE then Rejected RangeError
  else
    let h0 := mkHeader 0 0 0 0 0 0 0 in
    let h1 := Atomics.store h0 0 bufferSize in
    let h2 := Atomics.store h1 1 0 in
    let h3 := Atomics.store h2 2 0 in
    let h4 := Atomics.store h3 3 0 in
    let h5 := Atomics.store h4 4 elementSize in
    let h6 := Atomics.store h5 5 0 in
    let h7 := Atomics.store h6 6 0 in
    Resolved (mkChannel h7
                (repeat 0 (Z.to_nat (totalSize - HEADER_SIZE)))
                bufferSize elementSize).

(** Byte length of the whole shared region (header and slot storage). *)
Definition region_byteLength (ch : SharedChannel) : Z :=
  HEADER_SIZE + DataView.byteLength (dataView ch).

(* ===================================================================== *)
(** ** send, receive, close and the async iterator                      *)
(* ===================================================================== *)

(** A pending [send] is either parked inside [waitForSpace] (its [check]
    rescheduled with [setImmediate]), or [waitForSpace] has resolved and
    the [then] callback that retries [tryWrite] is queued, or the
    promise is settled. *)
Inductive send_state : Type :=
| SendWaiting
| SendWoken
| SendSettled (r : settled unit).

Inductive recv_state (T : Type) : Type :=
| RecvWaiting
| RecvWoken
| RecvSettled (r : settled T).
Arguments RecvWaiting {T}.
Arguments RecvWoken {T}.
Arguments RecvSettled {T} r.

(** The effect of [close()] on the shared region: the store of the
    closed word.  The two [Atomics.notify] change no word, and the
    ['close'] event emitted afterwards reaches listeners that are not
    part of the channel state. *)
Definition close (ch : SharedChannel) : SharedChannel :=
  with_header ch (Atomics.store (header ch) 3 1).

Definition isClosed (ch : SharedChannel) : bool :=
  Atomics.load (header ch) 3 =? 1.

Definition hasData (ch : SharedChannel) : bool :=
  let writeIndex := Atomics.load (header ch) 1 in
  let readIndex := Atomics.load (header ch) 2 in
  negb (writeIndex =? readIndex).

(** One run of [check] inside [waitForSpace]. *)
Definition waitForSpace (ch : SharedChannel) : send_state :=
  let writeIndex := Atomics.load (header ch) 1 in
  let readIndex := Atomics.load (header ch) 2 in
  let currentSize :=
    JS.rem (writeIndex - readIndex + bufferSize ch) (bufferSize ch) in
  if JS.lt currentSize (bufferSize ch) || (Atomics.load (header ch) 3 =? 1)
  then SendWoken
  else SendWaiting.

(** One run of [check] inside [waitForData]. *)
Definition waitForData {T : Type} (ch : SharedChannel) : recv_state T :=
  let writeIndex := Atomics.load (header ch) 1 in
  let readIndex := Atomics.load (header ch) 2 in
  if negb (writeIndex =? readIndex) || (Atomics.load (header ch) 3 =? 1)
  then RecvWoken
  else RecvWaiting.

(** The byte loop of [send]: [dataView.setUint8(offset + 4 + i, dataArray[i])].
    Bytes written before a RangeError stay written. *)
Fixpoint write_bytes (dv : DataView.t) (offset : JS.number) (i : Z)
  (dataArray : list Z) : DataView.t * bool :=
  match dataArray with
  | [] => (dv, true)
  | b :: rest =>
      match DataView.setUint8 dv (JS.add (JS.add offset 4) i) b with
      | Some dv' => write_bytes dv' offset (i + 1) rest
      | None => (dv, false)
      end
  end.

(** The byte loop of [receive]: [dataArray[i] = dataView.getUint8(offset + 4 + i)]. *)
Fixpoint read_bytes (dv : DataView.t) (offset : JS.number) (i : Z)
  (dataLength : nat) : option (list Z) :=
  match dataLength with
  | O => Some []
  | S n =>
      match DataView.getUint8 dv (JS.add (JS.add offset 4) i) with
      | Some b =>
          match read_bytes dv offset (i + 1) n with
          | Some bs => Some (b :: bs)
          | None => None
          end
      | None => None
      end
  end.

Section Channel.

(** The element type and the (de)serializer the channel was built with;
    [None] is a thrown exception. *)
Context {T : Type}.
Variable serializer : T -> option (list Z).
Variable deserializer : list Z -> option T.

Definition tryWrite (ch : SharedChannel) (data : T)
  : SharedChannel * send_state :=
  let writeIndex := Atomics.load (header ch) 1 in
  let readIndex := Atomics.load (header ch) 2 in
  let currentSize :=
    JS.rem (writeIndex - readIndex + bufferSize ch) (bufferSize ch) in
  if (bufferSize ch =? 0) || JS.ge currentSize (bufferSize ch) then
    let ch1 := with_header ch (Atomics.add (header ch) 5 1) in
    (ch1, waitForSpace ch1)
  else
    match serializer data with
    | None => (ch, SendSettled (Rejected SerializerError))
    | Some serialized =>
        let offset :=
          JS.mul (JS.rem writeIndex (bufferSize ch)) (elementSize ch) in
        match DataView.setUint32 (dataView ch) offset
                (Z.of_nat (length serialized)) with
        | None => (ch, SendSettled (Rejected RangeError))
        | Some dv1 =>
            match write_bytes dv1 offset 0 serialized with
            | (dv2, false) =>
                (with_dataView ch dv2, SendSettled (Rejected RangeError))
            | (dv2, true) =>
                let ch2 := with_dataView ch dv2 in
                (with_header ch2 (Atomics.store (header ch2) 1 (writeIndex + 1)),
                 SendSettled (Resolved tt))
            end
        end
    end.

(** The synchronous part of [send(data)]. *)
Definition send (ch : SharedChannel) (data : T)
  : SharedChannel * send_state :=
  if Atomics.load (header ch) 3 =? 1
  then (ch, SendSettled (Rejected ClosedError))
  else tryWrite ch data.

(** The next callback of a pending [send]: the rescheduled [check], or
    the [then] callback [Atomics.sub(header, 5, 1); tryWrite()]. *)
Definition send_step (ch : SharedChannel) (data : T) (st : send_state)
  : SharedChannel * send_state :=
  match st with
  | SendWaiting => (ch, waitForSpace ch)
  | SendWoken => tryWrite (with_header ch (Atomics.sub (header ch) 5 1)) data
  | SendSettled r => (ch, SendSettled r)
  end.

Definition tryRead (ch : SharedChannel) : SharedChannel * recv_state T :=
  let writeIndex := Atomics.load (header ch) 1 in
  let readIndex := Atomics.load (header ch) 2 in
  if writeIndex =? readIndex then
    if Atomics.load (header ch) 3 =? 1
    then (ch, RecvSettled (Rejected ClosedAndEmptyError))
    else
      let ch1 := with_header ch (Atomics.add (header ch) 6 1) in
      (ch1, waitForData ch1)
  else
    let offset :=
      JS.mul (JS.rem readIndex (bufferSize ch)) (elementSize ch) in
    match DataView.getUint32 (dataView ch) offset with
    | None => (ch, RecvSettled (Rejected RangeError))
    | Some dataLength =>
        match read_bytes (dataView ch) offset 0 (Z.to_nat dataLength) with
        | None => (ch, RecvSettled (Rejected RangeError))
        | Some dataBuffer =>
            match deserializer dataBuffer with
            | None => (ch, RecvSettled (Rejected DeserializerError))
            | Some data =>
                (with_header ch (Atomics.store (header ch) 2 (readIndex + 1)),
                 RecvSettled (Resolved data))
            end
        end
    end.

(** The synchronous part of [receive()]. *)
Definition receive (ch : SharedChannel) : SharedChannel * recv_state T :=
  if (Atomics.load (header ch) 3 =? 1)
     && (Atomics.load (header ch) 1 =? Atomics.load (header ch) 2)
  then (ch, RecvSettled (Rejected ClosedAndEmptyError))
  else tryRead ch.

Definition recv_step (ch : SharedChannel) (st : recv_state T)
  : SharedChannel * recv_state T :=
  match st with
  | RecvWaiting => (ch, waitForData ch)
  | RecvWoken => tryRead (with_header ch (Atomics.sub (header ch) 6 1))
  | RecvSettled r => (ch, RecvSettled r)
  end.

(** How a traversal ends: the generator returns, it fails with an
    error, it stays parked in a [receive] that nothing will wake (there
    is no other party in this sequential reading), or the fuel of the
    model ran out. *)
Inductive iter_end : Type :=
| IterReturned
| IterFailed (e : error)
| IterParked
| IterOutOfFuel.

(** [async *[Symbol.asyncIterator]()], driven to its end by a consumer
    that does nothing else to the channel: the values yielded, how the
    traversal ended, and the channel afterwards. *)
Fixpoint asyncIterator (fuel : nat) (ch : SharedChannel)
  : SharedChannel * list T * iter_end :=
  match fuel with
  | O => (ch, [], IterOutOfFuel)
  | S fuel' =>
      if negb (isClosed ch) || hasData ch then
        match receive ch with
        | (ch', RecvSettled (Resolved v)) =>
            let '(ch'', vs, e) := asyncIterator fuel' ch' in
            (ch'', v :: vs, e)
        | (ch', RecvSettled (Rejected _)) => (ch', [], IterReturned)
        | (ch', _) => (ch', [], IterParked)
        end
      else (ch, [], IterReturned)
  end.

(** The specification's reading of the traversal: a loop around
    [receive()] that terminates on ClosedAndEmpty; any other error of
    [receive] surfaces to the caller. *)
Fixpoint receive_loop (fuel : nat) (ch : SharedChannel)
  : SharedChannel * list T * iter_end :=
  match fuel with
  | O => (ch, [], IterOutOfFuel)
  | S fuel' =>
      match receive ch with
      | (ch', RecvSettled (Resolved v)) =>
          let '(ch'', vs, e) := receive_loop fuel' ch' in
          (ch'', v :: vs, e)
      | (ch', RecvSettled (Rejected ClosedAndEmptyError)) =>
          (ch', [], IterReturned)
      | (ch', RecvSettled (Rejected e)) => (ch', [], IterFailed e)
      | (ch', _) => (ch', [], IterParked)
      end
  end.

End Channel.


(* ===================================================================== *)
(** ** The default JSON serializer, on a fragment of the JS values      *)
(* ===================================================================== *)

Module Json.

(** The values of the modelled fragment: [undefined], integers that
    print in plain decimal notation, and strings of printable ASCII
    characters (given by their codes). *)
Inductive value : Type :=
| VUndefined
| VNumber (n : Z)
| VString (s : list Z).

Fixpoint digits (fuel : nat) (n : Z) (acc : list Z) : list Z :=
  match fuel with
  | O => acc
  | S fuel' =>
      let acc' := (48 + n mod 10) :: acc in
      if n <? 10 then acc' else digits fuel' (n / 10) acc'
  end.

Definition stringify_number (n : Z) : list Z :=
  if n <? 0
  then 45 :: digits (S (Z.to_nat (Z.log2 (- n)))) (- n) []
  else digits (S (Z.to_nat (Z.log2 n))) n [].

(** Inside quotes, the quote (34) and the backslash (92) are escaped. *)
Fixpoint escape (s : list Z) : list Z :=
  match s with
  | [] => []
  | c :: rest =>
      if (c =? 34) || (c =? 92) then 92 :: c :: escape rest
      else c :: escape rest
  end.

(** [new TextEncoder().encode(JSON.stringify(value))].  For [undefined],
    [JSON.stringify] returns [undefined] and [encode] then produces
    the empty byte sequence. *)
Definition serializer (v : value) : option (list Z) :=
  match v with
  | VUndefined => Some []
  | VNumber n => Some (stringify_number n)
  | VString s => Some (34 :: escape s ++ [34])
  end.

Fixpoint parse_digits (bs : list Z) (acc : Z) : option Z :=
  match bs with
  | [] => Some acc
  | b :: rest =>
      if (48 <=? b) && (b <=? 57) then parse_digits rest (10 * acc + (b - 48))
      else None
  end.

Definition parse_number (bs : list Z) : option Z :=
  match bs with
  | [] => None
  | [48] => Some 0
  | 48 :: _ => None
  | _ => parse_digits bs 0
  end.

Fixpoint parse_string (bs : list Z) (acc : list Z) : option (list Z) :=
  match bs with
  | [] => None
  | [34] => Some (rev acc)
  | 92 :: c :: rest =>
      if (c =? 34) || (c =? 92) then parse_string rest (c :: acc) else None
  | c :: rest =>
      if (c =? 34) || (c =? 92) then None else parse_string rest (c :: acc)
  end.

(** [JSON.parse(new TextDecoder().decode(buffer))] on the encodings of
    the fragment; [None] is the SyntaxError of [JSON.parse] (as for the
    empty input). *)
Definition deserializer (bs : list Z) : option value :=
  match bs with
  | [] => None
  | 34 :: rest =>
      match parse_string rest [] with
      | Some s => Some (VString s)
      | None => None
      end
  | 45 :: rest =>
      match parse_number rest with
      | Some n => Some (VNumber (- n))
      | None => None
      end
  | _ =>
      match parse_number bs with
      | Some n => Some (VNumber n)
      | None => None
      end
  end.

End Json.

(* ===================================================================== *)
(** ** A sender and a receiver running against one channel              *)
(* ===================================================================== *)

(** Who runs its next callback. *)
Inductive party : Type := Sender | Receiver.

Section Interleaving.

Context {T : Type}.
Variable serializer : T -> option (list Z).
Variable deserializer : list Z -> option T.

(** One [send(data)] and one [receive()] in flight on the same channel;
    [None] means the call has not been made yet. *)
Record system : Type := mkSystem {
  chan : SharedChannel;
  sender : option send_state;
  receiver : option (recv_state T)
}.

Definition step (data : T) (s : system) (p : party) : system :=
  match p with
  | Sender =>
      let '(ch', st') :=
        match sender s with
        | None => send serializer (chan s) data
        | Some st => send_step serializer (chan s) data st
        end in
      mkSystem ch' (Some st') (receiver s)
  | Receiver =>
      let '(ch', st') :=
        match receiver s with
        | None => receive deserializer (chan s)
        | Some st => recv_step deserializer (chan s) st
        end in
      mkSystem ch' (sender s) (Some st')
  end.

Definition run (data : T) (s : system) (schedule : list party) : system :=
  fold_left (step data) schedule s.

(** A pending [send] driven alone for [n] callbacks. *)
Fixpoint send_steps (n : nat) (ch : SharedChannel) (data : T)
  (st : send_state) : SharedChannel * send_state :=
  match n with
  | O => (ch, st)
  | S n' =>
      let '(ch', st') := send_step serializer ch data st in
      send_steps n' ch' data st'
  end.

End Interleaving.

(** What a pending [send] on a capacity-0 channel keeps unchanged. *)
Definition rendezvous_frame (ch ch' : SharedChannel) : Prop :=
  bufferSize ch' = bufferSize ch
  /\ h_writeIndex (header ch') = h_writeIndex (header ch)
  /\ h_readIndex (header ch') = h_readIndex (header ch)
  /\ h_closed (header ch') = h_closed (header ch)
  /\ dataView ch' = dataView ch.

(** The states a sender and a receiver meeting on an open, empty
    capacity-0 channel can be in: both parked, nothing committed. *)
Definition rendezvous_stuck {T : Type} (s : @system T) : Prop :=
  bufferSize (chan s) = 0
  /\ h_writeIndex (header (chan s)) = 0
  /\ h_readIndex (header (chan s)) = 0
  /\ h_closed (header (chan s)) = 0
  /\ (sender s = None \/ sender s = Some SendWaiting)
  /\ (receiver s = None \/ receiver s = Some RecvWaiting).

(* ===================================================================== *)
(** ** WaitGroup (wait-group.ts)                                         *)
(* ===================================================================== *)

Section WaitGroupModel.

(** Results and rejection reasons of the goroutine promises. *)
Context {V E : Type}.

(** How a goroutine promise settles. *)
Inductive outcome : Type :=
| Fulfilled (v : V)
| RejectedWith (e : E).

(** A settlement reaching the group: which handle settled, and how.
    A list of events is in the order the reactions run. *)
Definition event : Type := (nat * outcome)%type.

(** The group: its [count], its [promises] (handles by identifier, in
    the order of [add]), and the handles whose [finally] callback
    ([this.count--]) is registered and has not run yet. *)
Record WaitGroup : Type := mkWaitGroup {
  count : Z;
  promises : list nat;
  finalizers : list nat
}.

Definition new_WaitGroup : WaitGroup := mkWaitGroup 0 [] [].

Definition add (wg : WaitGroup) (goroutinePromise : nat) : WaitGroup :=
  mkWaitGroup (count wg + 1)
    (promises wg ++ [goroutinePromise])
    (finalizers wg ++ [goroutinePromise]).

Definition getCount (wg : WaitGroup) : Z := count wg.

(** The [finally] callbacks registered on handle [h] run when it settles. *)
Definition settle (wg : WaitGroup) (h : nat) : WaitGroup :=
  mkWaitGroup
    (count wg - Z.of_nat (count_occ Nat.eq_dec (finalizers wg) h))
    (promises wg)
    (remove Nat.eq_dec h (finalizers wg)).

Fixpoint value_of (h : nat) (seen : list (nat * V)) : option V :=
  match seen with
  | [] => None
  | (h', v) :: rest => if Nat.eqb h h' then Some v else value_of h rest
  end.

(** The result array of [Promise.all], once every element has a value. *)
Fixpoint collect (ps : list nat) (seen : list (nat * V)) : option (list V) :=
  match ps with
  | [] => Some []
  | h :: rest =>
      match value_of h seen, collect rest seen with
      | Some v, Some vs => Some (v :: vs)
      | _, _ => None
      end
  end.

Inductive all_result : Type :=
| AllFulfilled (vs : list V)
| AllRejected (e : E)
| AllPending.

(** [Promise.all(ps)] on the array [ps] it was called with, while the
    settlements [obs] arrive: fulfilled once every element has a value,
    rejected at the first rejection of an element, pending when [obs]
    ends before either. *)
Fixpoint Promise_all (ps : list nat) (seen : list (nat * V))
  (obs : list event) : all_result :=
  match collect ps seen with
  | Some vs => AllFulfilled vs
  | None =>
      match obs with
      | [] => AllPending
      | (h, Fulfilled v) :: rest => Promise_all ps (seen ++ [(h, v)]) rest
      | (h, RejectedWith e) :: rest =>
          if existsb (Nat.eqb h) ps
          then AllRejected e
          else Promise_all ps seen rest
      end
  end.

Inductive wait_result : Type :=
| WaitResolved (results : list V)
| WaitRejected (e : E)
| WaitPending.

(** What happens to a group between the call of [wait()] and the
    moment the [await] inside it resumes: another [add], or the
    settlement of a handle (its [finally] callback runs, and
    [Promise.all] sees it if the handle is one it was given). *)
Inductive wg_event : Type :=
| EvAdd (h : nat)
| EvSettle (h : nat) (o : outcome).

Definition apply_event (wg : WaitGroup) (ev : wg_event) : WaitGroup :=
  match ev with
  | EvAdd h => add wg h
  | EvSettle h _ => settle wg h
  end.

Definition run_events (wg : WaitGroup) (evs : list wg_event) : WaitGroup :=
  fold_left apply_event evs wg.

(** The settlements among the events, and the handles added, in order. *)
Fixpoint settlements (evs : list wg_event) : list event :=
  match evs with
  | [] => []
  | EvAdd _ :: rest => settlements rest
  | EvSettle h o :: rest => (h, o) :: settlements rest
  end.

Fixpoint additions (evs : list wg_event) : list nat :=
  match evs with
  | [] => []
  | EvAdd h :: rest => h :: additions rest
  | EvSettle _ _ :: rest => additions rest
  end.

(** [wait()] called on [wg], with [evs] all that happens until the
    [await] resumes (or so far, if it has not).  [Promise.all] was given
    the array [this.promises] as it stood at the call; on resumption
    after fulfilment the counter and the array are reset, whatever was
    added meanwhile; after a rejection the [await] throws and the two
    resets are skipped. *)
Definition wait (wg : WaitGroup) (evs : list wg_event)
  : WaitGroup * wait_result :=
  let wg' := run_events wg evs in
  match Promise_all (promises wg) [] (settlements evs) with
  | AllFulfilled results =>
      (mkWaitGroup 0 [] (finalizers wg'), WaitResolved results)
  | AllRejected e => (wg', WaitRejected e)
  | AllPending => (wg', WaitPending)
  end.

(** The first rejection among the handles [ps] in the order observed. *)
Fixpoint first_rejection (ps : list nat) (obs : list event) : option E :=
  match obs with
  | [] => None
  | (h, RejectedWith e) :: rest =>
      if existsb (Nat.eqb h) ps then Some e else first_rejection ps rest
  | _ :: rest => first_rejection ps rest
  end.

End WaitGroupModel.

Arguments outcome : clear implicits.
Arguments event : clear implicits.
Arguments all_result : clear implicits.
Arguments wait_result : clear implicits.
Arguments wg_event : clear implicits.

(* ===================================================================== *)
(** ** WorkerPool (worker-pool.ts)                                       *)
(* ===================================================================== *)

Module Pool.

(** Messages posted to a worker. *)
Inductive posted : Type :=
| RegisterSharedChannel (channelId : nat) (sharedBuffer : nat)
| Execute (id : nat).

(** Replies of a worker. *)
Inductive reply : Type :=
| Result (id : nat) (payload : Z)
| Error (id : nat) (error : Z).

(** The completion handle returned by [execute]. *)
Inductive handle_state : Type :=
| HPending
| HResolved (payload : Z)
| HRejected (error : Z).

(** The pool.  Workers are identified by numbers; [nextWorker] is the
    identity of the next [new Worker].  [handlers] are the
    [messageHandler] closures installed by [processQueue] (worker, task
    id), [handles] the state of the promise of every submitted task,
    [outbox] the messages posted to workers, [terminated] the workers on
    which [terminate()] was called. *)
Record WorkerPool : Type := mkPool {
  workers : list nat;
  availableWorkers : list nat;
  taskQueue : list nat;
  maxWorkers : nat;
  sharedChannels : list (nat * nat);
  nextWorker : nat;
  handlers : list (nat * nat);
  handles : list (nat * handle_state);
  outbox : list (nat * posted);
  terminated : list nat
}.

Definition createWorker (p : WorkerPool) : WorkerPool :=
  let worker := nextWorker p in
  mkPool (workers p ++ [worker]) (availableWorkers p ++ [worker])
    (taskQueue p) (maxWorkers p) (sharedChannels p) (S worker)
    (handlers p) (handles p)
    (outbox p ++
       map (fun c => (worker, RegisterSharedChannel (fst c) (snd c)))
         (sharedChannels p))
    (terminated p).

Fixpoint initializeWorkers (n : nat) (p : WorkerPool) : WorkerPool :=
  match n with
  | O => p
  | S n' => initializeWorkers n' (createWorker p)
  end.

Definition new_WorkerPool (maxWorkers : nat) : WorkerPool :=
  initializeWorkers maxWorkers (mkPool [] [] [] maxWorkers [] 0 [] [] [] []).

(** [splice(indexOf(worker), 1)]: drops the first occurrence. *)
Fixpoint remove_first (w : nat) (l : list nat) : list nat :=
  match l with
  | [] => []
  | x :: rest => if Nat.eqb x w then rest else x :: remove_first w rest
  end.

Definition removeWorker (p : WorkerPool) (worker : nat) : WorkerPool :=
  let p1 :=
    mkPool (remove_first worker (workers p))
      (remove_first worker (availableWorkers p))
      (taskQueue p) (maxWorkers p) (sharedChannels p) (nextWorker p)
      (handlers p) (handles p) (outbox p) (terminated p) in
  if (length (workers p1) <? maxWorkers p1)%nat
     && negb (length (taskQueue p1) =? 0)%nat
  then createWorker p1
  else p1.

(** The [while] loop of [processQueue]; the queue shrinks at each turn. *)
Fixpoint dispatch (queue available : list nat) (hs : list (nat * nat))
  (out : list (nat * posted))
  : list nat * list nat * list (nat * nat) * list (nat * posted) :=
  match queue, available with
  | task :: queue', worker :: available' =>
      dispatch queue' available' (hs ++ [(worker, task)])
        (out ++ [(worker, Execute task)])
  | _, _ => (queue, available, hs, out)
  end.

Definition processQueue (p : WorkerPool) : WorkerPool :=
  let '(queue, available, hs, out) :=
    dispatch (taskQueue p) (availableWorkers p) (handlers p) (outbox p) in
  let p1 :=
    mkPool (workers p) available queue (maxWorkers p) (sharedChannels p)
      (nextWorker p) hs (handles p) out (terminated p) in
  if negb (length (taskQueue p1) =? 0)%nat
     && (length (workers p1) <? maxWorkers p1)%nat
  then createWorker p1
  else p1.

(** [execute(message)]: a new pending handle, the task queued. *)
Definition execute (p : WorkerPool) (id : nat) : WorkerPool :=
  processQueue
    (mkPool (workers p) (availableWorkers p) (taskQueue p ++ [id])
       (maxWorkers p) (sharedChannels p) (nextWorker p) (handlers p)
       (handles p ++ [(id, HPending)]) (outbox p) (terminated p)).

Definition reply_id (m : reply) : nat :=
  match m with Result id _ | Error id _ => id end.

Definition settle_handle (m : reply) (hs : list (nat * handle_state))
  : list (nat * handle_state) :=
  map (fun h =>
         if Nat.eqb (fst h) (reply_id m) then
           match snd h, m with
           | HPending, Result _ payload => (fst h, HResolved payload)
           | HPending, Error _ error => (fst h, HRejected error)
           | _, _ => h
           end
         else h) hs.

(** [handleWorkerMessage]: the worker goes back to the available list
    if it is not there, then the queue is processed. *)
Definition handleWorkerMessage (p : WorkerPool) (worker : nat) : WorkerPool :=
  let available :=
    if existsb (Nat.eqb worker) (availableWorkers p)
    then availableWorkers p
    else availableWorkers p ++ [worker] in
  processQueue
    (mkPool (workers p) available (taskQueue p) (maxWorkers p)
       (sharedChannels p) (nextWorker p) (handlers p) (handles p)
       (outbox p) (terminated p)).

(** A ['message'] event of [worker]: [handleWorkerMessage] first (it was
    registered first), then the [messageHandler] installed for the task
    the message answers, which unregisters itself and settles the
    handle.  Handlers installed while the event is being delivered are
    not called for it. *)
Definition on_message (p : WorkerPool) (worker : nat) (m : reply) : WorkerPool :=
  let p1 := handleWorkerMessage p worker in
  let matching h := Nat.eqb (fst h) worker && Nat.eqb (snd h) (reply_id m) in
  if existsb matching (handlers p)
  then
    mkPool (workers p1) (availableWorkers p1) (taskQueue p1) (maxWorkers p1)
      (sharedChannels p1) (nextWorker p1)
      (filter (fun h => negb (matching h)) (handlers p1))
      (settle_handle m (handles p1)) (outbox p1) (terminated p1)
  else p1.

(** [terminate()]: [worker.terminate()] on every worker; the promise
    returned is [Promise.all] of theirs.  Returns the pool and the
    workers whose exit is awaited. *)
Definition terminate (p : WorkerPool) : WorkerPool * list nat :=
  (mkPool (workers p) (availableWorkers p) (taskQueue p) (maxWorkers p)
     (sharedChannels p) (nextWorker p) (handlers p) (handles p) (outbox p)
     (terminated p ++ workers p),
   workers p).

(** The ['exit'] event of a worker. *)
Definition on_exit (p : WorkerPool) (worker : nat) : WorkerPool :=
  removeWorker p worker.

(** [await pool.terminate()]: the promise resolves once every worker
    asked to terminate has emitted ['exit']. *)
Definition terminate_awaited (p : WorkerPool) : WorkerPool :=
  let '(p1, awaited) := terminate p in
  fold_left on_exit awaited p1.

Definition handle_of (p : WorkerPool) (id : nat) : option handle_state :=
  match find (fun h => Nat.eqb (fst h) id) (handles p) with
  | Some h => Some (snd h)
  | None => None
  end.

End Pool.

(* ===================================================================== *)
(** ** calculateElementSize (with-safety.ts)                             *)
(* ===================================================================== *)

Section WithSafety.

Context {T : Type}.

(** [new TextEncoder().encode(JSON.stringify(data))]; [None] when
    [JSON.stringify] throws. *)
Variable encode_json : T -> option (list Z).

Definition calculateElementSize (data : T) : Z :=
  match encode_json data with
  | Some encoded =>
      let actualSize := Z.of_nat (length encoded) + 4 in
      let withSafety := Qceiling (inject_Z actualSize * (3 # 2)) in
      Z.max 256 withSafety
  | None => 1024
  end.

End WithSafety.

(* ===================================================================== *)
(** ** The shared region seen from a worker (channel.ts, worker.js)     *)
(* ===================================================================== *)

(** The region a channel hands to workers: the seven header words and
    the slot storage behind them. *)
Definition SharedArrayBuffer : Type := (ChannelHeader * DataView.t)%type.

Definition getSharedBuffer (ch : SharedChannel) : SharedArrayBuffer :=
  (header ch, dataView ch).

(** [SharedChannel.fromSharedBuffer]: the sizes are read back from the
    header words 0 and 4. *)
Definition fromSharedBuffer (sharedBuffer : SharedArrayBuffer) : SharedChannel :=
  let header := fst sharedBuffer in
  let bufferSize := Atomics.load header 0 in
  let elementSize := Atomics.load header 4 in
  mkChannel header (snd sharedBuffer) bufferSize elementSize.

(** The object's cached sizes are the ones the header holds. *)
Definition sizes_agree (ch : SharedChannel) : Prop :=
  bufferSize ch = h_bufferSize (header ch)
  /\ elementSize ch = h_elementSize (header ch).

(** A pending operation of the worker-side channel object
    ([createSharedChannelFromBuffer] in worker.js): parked on a 1 ms
    timer, settled, or dead because the timer callback threw. *)
Inductive worker_state (A : Type) : Type :=
| WorkerParked
| WorkerSettled (r : settled A)
| WorkerUncaught (e : error).
Arguments WorkerParked {A}.
Arguments WorkerSettled {A} r.
Arguments WorkerUncaught {A} e.

Section WorkerChannel.

Context {T : Type}.

(** [new TextEncoder().encode(JSON.stringify(data))] and
    [JSON.parse(new TextDecoder().decode(bytes))]; [None] when they
    throw. *)
Variable encode_json : T -> option (list Z).
Variable decode_json : list Z -> option T.

(** The inner [tryWrite] of the worker-side [send]; [inr e] is a thrown
    exception. *)
Definition worker_tryWrite (sb : SharedArrayBuffer) (encoded : list Z)
  : SharedArrayBuffer * (bool + error) :=
  let header := fst sb in
  let dataView := snd sb in
  let writeIndex := Atomics.load header 1 in
  let readIndex := Atomics.load header 2 in
  let bufferSize := Atomics.load header 0 in
  let elementSize := Atomics.load header 4 in
  let currentSize := JS.rem (writeIndex - readIndex + bufferSize) bufferSize in
  if (bufferSize =? 0) || JS.ge currentSize bufferSize then
    ((Atomics.add header 5 1, dataView), inl false)
  else
    let offset := JS.mul (JS.rem writeIndex bufferSize) elementSize in
    match DataView.setUint32 dataView offset (Z.of_nat (length encoded)) with
    | None => (sb, inr RangeError)
    | Some dv1 =>
        match write_bytes dv1 offset 0 encoded with
        | (dv2, false) => ((header, dv2), inr RangeError)
        | (dv2, true) =>
            ((Atomics.store header 1 (writeIndex + 1), dv2), inl true)
        end
    end.

(** The synchronous part of the worker-side [send(data)]: the value is
    serialised before the first [tryWrite]; what either throws is caught
    and rejects the promise. *)
Definition worker_send (sb : SharedArrayBuffer) (data : T)
  : SharedArrayBuffer * worker_state unit :=
  if Atomics.load (fst sb) 3 =? 1
  then (sb, WorkerSettled (Rejected ClosedError))
  else
    match encode_json data with
    | None => (sb, WorkerSettled (Rejected SerializerError))
    | Some encoded =>
        match worker_tryWrite sb encoded with
        | (sb', inl true) => (sb', WorkerSettled (Resolved tt))
        | (sb', inl false) => (sb', WorkerParked)
        | (sb', inr e) => (sb', WorkerSettled (Rejected e))
        end
    end.

(** The timer callback of a parked worker-side [send]; nothing catches
    what [tryWrite] throws there. *)
Definition worker_send_retry (sb : SharedArrayBuffer) (encoded : list Z)
  : SharedArrayBuffer * worker_state unit :=
  match worker_tryWrite (Atomics.sub (fst sb) 5 1, snd sb) encoded with
  | (sb', inl true) => (sb', WorkerSettled (Resolved tt))
  | (sb', inl false) => (sb', WorkerParked)
  | (sb', inr e) => (sb', WorkerUncaught e)
  end.

Definition worker_tryRead (sb : SharedArrayBuffer)
  : SharedArrayBuffer * worker_state T :=
  let header := fst sb in
  let dataView := snd sb in
  let writeIndex := Atomics.load header 1 in
  let readIndex := Atomics.load header 2 in
  if writeIndex =? readIndex then
    if Atomics.load header 3 =? 1
    then (sb, WorkerSettled (Rejected ClosedAndEmptyError))
    else ((Atomics.add header 6 1, dataView), WorkerParked)
  else
    let bufferSize := Atomics.load header 0 in
    let elementSize := Atomics.load header 4 in
    let offset := JS.mul (JS.rem readIndex bufferSize) elementSize in
    match DataView.getUint32 dataView offset with
    | None => (sb, WorkerSettled (Rejected RangeError))
    | Some dataLength =>
        match read_bytes dataView offset 0 (Z.to_nat dataLength) with
        | None => (sb, WorkerSettled (Rejected RangeError))
        | Some dataArray =>
            match decode_json dataArray with
            | None => (sb, WorkerSettled (Rejected DeserializerError))
            | Some data =>
                ((Atomics.store header 2 (readIndex + 1), dataView),
                 WorkerSettled (Resolved data))
            end
        end
    end.

(** The synchronous part of the worker-side [receive()]. *)
Definition worker_receive (sb : SharedArrayBuffer)
  : SharedArrayBuffer * worker_state T :=
  if (Atomics.load (fst sb) 3 =? 1)
     && (Atomics.load (fst sb) 1 =? Atomics.load (fst sb) 2)
  then (sb, WorkerSettled (Rejected ClosedAndEmptyError))
  else worker_tryRead sb.

End WorkerChannel.

(** How the host-side states read as worker-side states: both kinds of
    waiting are "parked". *)
Definition send_view (st : send_state) : worker_state unit :=
  match st with
  | SendWaiting | SendWoken => WorkerParked
  | SendSettled r => WorkerSettled r
  end.

Definition recv_view {T : Type} (st : recv_state T) : worker_state T :=
  match st with
  | RecvWaiting | RecvWoken => WorkerParked
  | RecvSettled r => WorkerSettled r
  end.

(* ===================================================================== *)
(** ** Channel registration in the pool (worker-pool.ts)                 *)
(* ===================================================================== *)

Module Registry.
Import Pool.

(** [Map.prototype.set] and [get] on an insertion-ordered map: setting a
    present key replaces its value in place, a new key goes last. *)
Fixpoint Map_set (m : list (nat * nat)) (k v : nat) : list (nat * nat) :=
  match m with
  | [] => [(k, v)]
  | (k', v') :: rest =>
      if Nat.eqb k' k then (k, v) :: rest else (k', v') :: Map_set rest k v
  end.

Fixpoint Map_get (m : list (nat * nat)) (k : nat) : option nat :=
  match m with
  | [] => None
  | (k', v') :: rest => if Nat.eqb k' k then Some v' else Map_get rest k
  end.

Definition registerSharedChannel (p : WorkerPool) (id sharedBuffer : nat)
  : WorkerPool :=
  mkPool (workers p) (availableWorkers p) (taskQueue p) (maxWorkers p)
    (Map_set (sharedChannels p) id sharedBuffer) (nextWorker p)
    (handlers p) (handles p)
    (outbox p ++
       map (fun worker => (worker, RegisterSharedChannel id sharedBuffer))
         (workers p))
    (terminated p).

(** How a reply settles the handle of its task: [task.resolve(payload)]
    or [task.reject(new Error(error))]. *)
Definition settled_by (m : reply) : handle_state :=
  match m with
  | Result _ payload => HResolved payload
  | Error _ error => HRejected error
  end.

(** What every reachable pool satisfies. *)
Definition pool_wf (p : WorkerPool) : Prop :=
  NoDup (workers p)
  /\ NoDup (availableWorkers p)
  /\ incl (availableWorkers p) (workers p)
  /\ Forall (fun w => (w < nextWorker p)%nat) (workers p)
  /\ (length (workers p) <= maxWorkers p)%nat.

End Registry.

(* ===================================================================== *)
(** ** The global pool and the facade (goroutine.ts)                     *)
(* ===================================================================== *)

Module Goroutine.
Import Pool.

(** [globalWorkerPool]: [None] is [null]. *)
Definition global : Type := option WorkerPool.

(** [initializeGoroutines(maxWorkers?)]; [cpus] is [os.cpus().length],
    the default of the pool's constructor. *)
Definition initializeGoroutines (cpus : nat) (g : global)
  (maxWorkers : option nat) : global :=
  match g with
  | Some _ => g
  | None =>
      Some (new_WorkerPool
              (match maxWorkers with Some n => n | None => cpus end))
  end.

(** [getWorkerPool()]: the global afterwards, and the pool returned. *)
Definition getWorkerPool (cpus : nat) (g : global) : WorkerPool :=
  match initializeGoroutines cpus g None with
  | Some pool => pool
  | None => new_WorkerPool cpus
  end.

(** [go(fn, ...args)] and [goShared(fn, ...args)]: the task, with the
    fresh identifier [taskId], is submitted to the (possibly just
    created) global pool. *)
Definition go (cpus : nat) (g : global) (taskId : nat) : global :=
  Some (execute (getWorkerPool cpus g) taskId).

(** [registerChannel(id, channel)]. *)
Definition registerChannel (cpus : nat) (g : global) (id sharedBuffer : nat)
  : global :=
  Some (Registry.registerSharedChannel (getWorkerPool cpus g) id sharedBuffer).

(** [shutdown()]: the pool, if any, is terminated, then forgotten.
    Returns the global afterwards and the pool that was terminated. *)
Definition shutdown (g : global) : global * option WorkerPool :=
  match g with
  | Some pool => (None, Some (terminate_awaited pool))
  | None => (None, None)
  end.

End Goroutine.

(* ===================================================================== *)
(** ** Invariants stated below                                           *)
(* ===================================================================== *)

(** On a capacity-0 channel with equal indices: nothing has been
    committed, and each party has not started, waits, or was turned away
    by a closed channel. *)
Definition nothing_transferred {T : Type} (s : @system T) : Prop :=
  bufferSize (chan s) = 0
  /\ h_writeIndex (header (chan s)) = h_readIndex (header (chan s))
  /\ (sender s = None \/ sender s = Some SendWaiting
      \/ sender s = Some SendWoken
      \/ sender s = Some (SendSettled (Rejected ClosedError)))
  /\ (receiver s = None \/ receiver s = Some RecvWaiting
      \/ receiver s = Some RecvWoken
      \/ receiver s = Some (RecvSettled (Rejected ClosedAndEmptyError))).

(** The counter of a WaitGroup counts the handles whose [finally]
    callback has not run yet, all of them handles of the group. *)
Definition count_tracks_unsettled (wg : WaitGroup) : Prop :=
  count wg = Z.of_nat (length (finalizers wg))
  /\ incl (finalizers wg) (promises wg).

(* ===================================================================== *)
(** * Properties                                                         *)
(* ===================================================================== *)

(** ** Header arithmetic *)

Lemma ToInt32_small (n : Z) :
  - 2 ^ 31 <= n < 2 ^ 31 -> JS.ToInt32 n = n.
Proof.
  intros Hn. unfold JS.ToInt32.
  rewrite Z.mod_small by lia. lia.
Qed.

Lemma rem_below (a b : Z) : 1 <= b -> Z.rem a b < b.
Proof.
  intros Hb.
  assert (Habs : Z.abs (Z.rem a b) < Z.abs b) by (apply Z.rem_bound_abs; lia).
  lia.
Qed.

(** With a capacity of at least one, the occupancy that [tryWrite]
    computes is reduced modulo the capacity and so never reaches it. *)
Lemma currentSize_below_capacity (x b : Z) :
  1 <= b -> JS.ge (JS.rem x b) b = false.
Proof.
  intros Hb. unfold JS.rem, JS.ge.
  destruct (Z.eqb_spec b 0) as [->|_]; [lia|].
  apply Z.leb_gt. now apply rem_below.
Qed.

Lemma length_update (dv : DataView.t) (i : nat) (b : Z) :
  length (DataView.update dv i b) = length dv.
Proof.
  revert i. induction dv as [|x dv IH]; intros [|i]; simpl; auto.
Qed.

(** ** The JSON fragment on sample values *)

Example serializer_42 :
  Json.serializer (Json.VNumber 42) = Some [52; 50].
Proof. reflexivity. Qed.

Example serializer_minus_1000 :
  Json.serializer (Json.VNumber (-1000)) = Some [45; 49; 48; 48; 48].
Proof. reflexivity. Qed.

Example serializer_quoted :
  Json.serializer (Json.VString [97; 34; 98]) = Some [34; 97; 92; 34; 98; 34].
Proof. reflexivity. Qed.

Example deserializer_round_trip :
  Json.deserializer [52; 50] = Some (Json.VNumber 42)
  /\ Json.deserializer [45; 49; 48; 48; 48] = Some (Json.VNumber (-1000))
  /\ Json.deserializer [34; 97; 92; 34; 98; 34] = Some (Json.VString [97; 34; 98])
  /\ Json.deserializer [48] = Some (Json.VNumber 0).
Proof. repeat split; reflexivity. Qed.

Example deserializer_empty_input : Json.deserializer [] = None.
Proof. reflexivity. Qed.

(** ** Creation *)

(** C9, as the code has it: there is no minimum slot size; creation
    succeeds exactly when the region of [28 + capacity * slot_size] bytes
    can be allocated, and then the header is
    [(capacity, 0, 0, 0, slot_size, 0, 0)]. *)
Theorem new_SharedChannel_spec (maxByteLength capacity slot_size : Z) :
  0 <= capacity < 2 ^ 31 ->
  0 <= slot_size < 2 ^ 31 ->
  (28 + capacity * slot_size <= maxByteLength ->
   exists ch,
     new_SharedChannel maxByteLength capacity slot_size = Resolved ch
     /\ region_byteLength ch = 28 + capacity * slot_size
     /\ header_words (header ch) = [capacity; 0; 0; 0; slot_size; 0; 0]
     /\ bufferSize ch = capacity /\ elementSize ch = slot_size)
  /\ (maxByteLength < 28 + capacity * slot_size ->
      new_SharedChannel maxByteLength capacity slot_size = Rejected RangeError).
Proof.
  intros Hc Hs.
  assert (Hprod : 0 <= capacity * slot_size) by nia.
  unfold new_SharedChannel, HEADER_SIZE.
  change (7 * 4) with 28.
  split; intros HM.
  - destruct (Z.ltb_spec (28 + capacity * slot_size) 0); [lia|].
    destruct (Z.ltb_spec maxByteLength (28 + capacity * slot_size)); [lia|].
    destruct (Z.ltb_spec (28 + capacity * slot_size) 28); [lia|].
    cbn [orb]. eexists. split; [reflexivity|].
    unfold region_byteLength, DataView.byteLength, HEADER_SIZE.
    cbn [dataView header bufferSize elementSize].
    rewrite repeat_length.
    repeat split; try lia.
    cbn -[JS.ToInt32 Z.pow].
    rewrite !ToInt32_small by lia. reflexivity.
  - destruct (Z.ltb_spec (28 + capacity * slot_size) 0); [lia|].
    destruct (Z.ltb_spec maxByteLength (28 + capacity * slot_size)); [|lia].
    reflexivity.
Qed.

Lemma new_SharedChannel_spec_witness :
  (exists ch,
     new_SharedChannel (2 ^ 32) 1 4 = Resolved ch
     /\ region_byteLength ch = 28 + 1 * 4
     /\ header_words (header ch) = [1; 0; 0; 0; 4; 0; 0]
     /\ bufferSize ch = 1 /\ elementSize ch = 4)
  /\ new_SharedChannel 64 3 1024 = Rejected RangeError.
Proof.
  split.
  - apply (new_SharedChannel_spec (2 ^ 32) 1 4); lia.
  - apply (new_SharedChannel_spec 64 3 1024); lia.
Defined.

(** C9 as stated fails: a slot size below 8 is accepted. *)
Lemma create_accepts_small_slot :
  ~ (forall maxByteLength capacity slot_size,
        slot_size < 8 ->
        exists e,
          new_SharedChannel maxByteLength capacity slot_size = Rejected e).
Proof.
  intros H. destruct (H (2 ^ 32) 1 4 ltac:(lia)) as [e He].
  vm_compute in He. discriminate He.
Qed.

(** ** The size helper *)

Lemma ceil_three_halves (a : Z) :
  let c := Qceiling (inject_Z a * (3 # 2)) in
  3 * a <= 2 * c < 3 * a + 2.
Proof.
  unfold Qceiling, Qfloor, Qopp, Qmult, inject_Z.
  cbn [Qnum Qden Pos.mul].
  change (Z.pos (1 * 2)) with 2.
  pose proof (Z.div_mod (- (a * 3)) 2 ltac:(lia)) as Hdm.
  pose proof (Z.mod_pos_bound (- (a * 3)) 2 ltac:(lia)) as Hb.
  cbv zeta. lia.
Qed.

(** C10: with [L] the encoded length, the result is [max(256, c)] where
    [c] is the least integer with [2 c >= 3 (L + 4)], that is
    [ceil(1.5 * (L + 4))]; it is at least 256 and at least [L + 4]; when
    serialisation throws the result is 1024; equal arguments give equal
    results. *)
Theorem calculateElementSize_spec {T : Type}
  (encode_json : T -> option (list Z)) (data : T) :
  (forall encoded,
      encode_json data = Some encoded ->
      let L := Z.of_nat (length encoded) in
      exists c,
        3 * (L + 4) <= 2 * c < 3 * (L + 4) + 2
        /\ calculateElementSize encode_json data = Z.max 256 c
        /\ 256 <= calculateElementSize encode_json data
        /\ L + 4 <= calculateElementSize encode_json data)
  /\ (encode_json data = None ->
      calculateElementSize encode_json data = 1024)
  /\ (forall data', data = data' ->
      calculateElementSize encode_json data
      = calculateElementSize encode_json data').
Proof.
  split; [|split].
  - intros encoded Henc L. unfold calculateElementSize. rewrite Henc.
    fold L.
    pose proof (ceil_three_halves (L + 4)) as Hc. cbv zeta in Hc.
    exists (Qceiling (inject_Z (L + 4) * (3 # 2))).
    assert (0 <= L) by (unfold L; lia).
    repeat split; lia.
  - intros Henc. unfold calculateElementSize. now rewrite Henc.
  - intros data' ->. reflexivity.
Qed.

Lemma calculateElementSize_spec_witness :
  (exists c,
      3 * (3 + 4) <= 2 * c < 3 * (3 + 4) + 2
      /\ calculateElementSize Json.serializer (Json.VString [97]) = Z.max 256 c
      /\ 256 <= calculateElementSize Json.serializer (Json.VString [97])
      /\ 3 + 4 <= calculateElementSize Json.serializer (Json.VString [97]))
  /\ calculateElementSize (fun _ : unit => @None (list Z)) tt = 1024.
Proof.
  split.
  - apply (proj1 (calculateElementSize_spec Json.serializer (Json.VString [97]))
             [34; 97; 34] eq_refl).
  - apply (proj1 (proj2 (calculateElementSize_spec
                           (fun _ : unit => @None (list Z)) tt)) eq_refl).
Defined.

(** ** Sending *)

(** On a channel of capacity at least one, [tryWrite] never parks: the
    buffer-full test cannot succeed. *)
Lemma tryWrite_buffered_settles {T : Type}
  (serializer : T -> option (list Z)) (ch : SharedChannel) (data : T) :
  1 <= bufferSize ch ->
  exists r, snd (tryWrite serializer ch data) = SendSettled r.
Proof.
  intros Hcap. unfold tryWrite.
  rewrite currentSize_below_capacity by assumption.
  destruct (Z.eqb_spec (bufferSize ch) 0) as [E|_]; [lia|].
  cbn [orb].
  destruct (serializer data) as [serialized|];
    [|eexists; reflexivity].
  destruct (DataView.setUint32 _ _ _) as [dv1|];
    [|eexists; reflexivity].
  destruct (write_bytes _ _ _ _) as [dv2 [|]]; eexists; reflexivity.
Qed.

(** C1 at a failing input: on a channel of capacity 1 that already
    holds one unread value (occupancy equal to the capacity), a second
    [send] resolves at once and commits, leaving the occupancy at 2. *)
Theorem send_on_full_buffer_commits :
  exists ch0 ch1 ch2,
    new_SharedChannel (2 ^ 32) 1 1024 = Resolved ch0
    /\ send Json.serializer ch0 (Json.VString [97])
       = (ch1, SendSettled (Resolved tt))
    /\ h_writeIndex (header ch1) - h_readIndex (header ch1) = bufferSize ch1
    /\ send Json.serializer ch1 (Json.VString [98])
       = (ch2, SendSettled (Resolved tt))
    /\ bufferSize ch2 = 1
    /\ h_writeIndex (header ch2) - h_readIndex (header ch2) = 2.
Proof.
  do 3 eexists.
  split; [vm_compute; reflexivity|].
  split; [vm_compute; reflexivity|].
  split; [vm_compute; reflexivity|].
  split; [vm_compute; reflexivity|].
  split; vm_compute; reflexivity.
Qed.

(** ** Capacity 0: the rendezvous path *)

Lemma waitForSpace_not_settled (ch : SharedChannel) :
  waitForSpace ch = SendWaiting \/ waitForSpace ch = SendWoken.
Proof.
  unfold waitForSpace. destruct (_ || _); auto.
Qed.

Lemma tryWrite_rendezvous {T : Type}
  (serializer : T -> option (list Z)) (ch : SharedChannel) (data : T) :
  bufferSize ch = 0 ->
  tryWrite serializer ch data
  = (with_header ch (Atomics.add (header ch) 5 1),
     waitForSpace (with_header ch (Atomics.add (header ch) 5 1))).
Proof.
  intros Hcap. unfold tryWrite. rewrite Hcap. reflexivity.
Qed.


Lemma send_step_rendezvous {T : Type}
  (serializer : T -> option (list Z)) (ch : SharedChannel) (data : T)
  (st : send_state) :
  bufferSize ch = 0 ->
  st = SendWaiting \/ st = SendWoken ->
  rendezvous_frame ch (fst (send_step serializer ch data st))
  /\ (snd (send_step serializer ch data st) = SendWaiting
      \/ snd (send_step serializer ch data st) = SendWoken).
Proof.
  intros Hcap [-> | ->]; cbn [send_step].
  - split; [now unfold rendezvous_frame|]. apply waitForSpace_not_settled.
  - rewrite tryWrite_rendezvous by exact Hcap.
    split; [now unfold rendezvous_frame|]. apply waitForSpace_not_settled.
Qed.

(** On a capacity-0 channel a pending [send] never settles, whatever
    the header says, and never commits. *)
Lemma rendezvous_send_never_settles {T : Type}
  (serializer : T -> option (list Z)) (data : T) (n : nat) :
  forall (ch : SharedChannel) (st : send_state),
    bufferSize ch = 0 ->
    st = SendWaiting \/ st = SendWoken ->
    rendezvous_frame ch (fst (send_steps serializer n ch data st))
    /\ (snd (send_steps serializer n ch data st) = SendWaiting
        \/ snd (send_steps serializer n ch data st) = SendWoken).
Proof.
  induction n as [|n IH]; intros ch st Hcap Hst; cbn [send_steps].
  - split; [now unfold rendezvous_frame|exact Hst].
  - destruct (send_step_rendezvous serializer ch data st Hcap Hst)
      as [Hframe Hst'].
    destruct (send_step serializer ch data st) as [ch' st'].
    cbn [fst snd] in Hframe, Hst'.
    destruct Hframe as (Hb & Hw & Hr & Hc & Hd).
    destruct (IH ch' st' ltac:(congruence) Hst') as [(Hb' & Hw' & Hr' & Hc' & Hd') Hs].
    split; [|exact Hs].
    unfold rendezvous_frame. repeat split; congruence.
Qed.

(** A [send] on a closed channel rejects with the Closed error and
    leaves the channel as it was. *)
Lemma send_closed_rejects {T : Type}
  (serializer : T -> option (list Z)) (ch : SharedChannel) (data : T) :
  h_closed (header ch) = 1 ->
  send serializer ch data = (ch, SendSettled (Rejected ClosedError)).
Proof.
  intros Hc. unfold send.
  change (Atomics.load (header ch) 3) with (h_closed (header ch)).
  now rewrite Hc.
Qed.

(** C2 at a failing input: a [send(42)] parked on a capacity-0 channel
    is woken by [close()] but retries [tryWrite], which does not look at
    [closed] again; after any number of its callbacks the promise is
    still unsettled, so it never fails with the Closed error (and the
    write index stays 0). *)
Theorem parked_send_survives_close :
  exists ch0 ch1,
    new_SharedChannel (2 ^ 32) 0 1024 = Resolved ch0
    /\ send Json.serializer ch0 (Json.VNumber 42) = (ch1, SendWaiting)
    /\ isClosed (close ch1) = true
    /\ forall n,
        let r := send_steps Json.serializer n (close ch1)
                   (Json.VNumber 42) SendWaiting in
        snd r <> SendSettled (Rejected ClosedError)
        /\ (forall o, snd r <> SendSettled o)
        /\ h_writeIndex (header (fst r)) = 0.
Proof.
  do 2 eexists.
  split; [vm_compute; reflexivity|].
  split; [vm_compute; reflexivity|].
  split; [vm_compute; reflexivity|].
  intros n r.
  destruct (rendezvous_send_never_settles Json.serializer (Json.VNumber 42) n
              (close (mkChannel (mkHeader 0 0 0 0 1024 1 0) [] 0 1024))
              SendWaiting eq_refl (or_introl eq_refl))
    as [(_ & Hw & _) Hs].
  fold r in Hw, Hs.
  split; [|split].
  - destruct Hs as [-> | ->]; discriminate.
  - intros o. destruct Hs as [-> | ->]; discriminate.
  - rewrite Hw. reflexivity.
Qed.


Lemma waitForSpace_rendezvous_open (ch : SharedChannel) :
  bufferSize ch = 0 -> h_closed (header ch) = 0 ->
  waitForSpace ch = SendWaiting.
Proof.
  intros Hcap Hc. unfold waitForSpace. rewrite Hcap.
  change (Atomics.load (header ch) 3) with (h_closed (header ch)).
  now rewrite Hc.
Qed.

Lemma waitForData_empty_open {T : Type} (ch : SharedChannel) :
  h_writeIndex (header ch) = h_readIndex (header ch) ->
  h_closed (header ch) = 0 ->
  @waitForData T ch = RecvWaiting.
Proof.
  intros Hwr Hc. unfold waitForData.
  change (Atomics.load (header ch) 1) with (h_writeIndex (header ch)).
  change (Atomics.load (header ch) 2) with (h_readIndex (header ch)).
  change (Atomics.load (header ch) 3) with (h_closed (header ch)).
  now rewrite Hwr, Z.eqb_refl, Hc.
Qed.

Lemma step_rendezvous_stuck {T : Type}
  (serializer : T -> option (list Z)) (deserializer : list Z -> option T)
  (data : T) (s : system) (p : party) :
  rendezvous_stuck s ->
  rendezvous_stuck (step serializer deserializer data s p).
Proof.
  intros (Hcap & Hw & Hr & Hc & Hs & Hrv).
  destruct s as [ch snd_st rcv_st]; cbn [chan sender receiver] in *.
  destruct p; cbn [step chan sender receiver].
  - (* the sender runs *)
    assert (Hstep :
      (match snd_st with
       | None => send serializer ch data
       | Some st => send_step serializer ch data st
       end = (ch, SendWaiting))
      \/ (match snd_st with
          | None => send serializer ch data
          | Some st => send_step serializer ch data st
          end = (with_header ch (Atomics.add (header ch) 5 1), SendWaiting))).
    { destruct Hs as [-> | ->].
      - right. unfold send.
        change (Atomics.load (header ch) 3) with (h_closed (header ch)).
        rewrite Hc. cbn [Z.eqb].
        rewrite tryWrite_rendezvous by exact Hcap.
        now rewrite waitForSpace_rendezvous_open.
      - left. cbn [send_step]. now rewrite waitForSpace_rendezvous_open. }
    destruct Hstep as [-> | ->]; unfold rendezvous_stuck;
      cbn [chan sender receiver]; repeat split; auto.
  - (* the receiver runs *)
    assert (Hstep :
      (match rcv_st with
       | None => receive deserializer ch
       | Some st => recv_step deserializer ch st
       end = (ch, RecvWaiting))
      \/ (match rcv_st with
          | None => receive deserializer ch
          | Some st => recv_step deserializer ch st
          end = (with_header ch (Atomics.add (header ch) 6 1), RecvWaiting))).
    { destruct Hrv as [-> | ->].
      - right. unfold receive, tryRead.
        change (Atomics.load (header ch) 1) with (h_writeIndex (header ch)).
        change (Atomics.load (header ch) 2) with (h_readIndex (header ch)).
        change (Atomics.load (header ch) 3) with (h_closed (header ch)).
        rewrite Hc, Hw, Hr. cbn [Z.eqb andb].
        rewrite waitForData_empty_open; [reflexivity| |]; cbn; congruence.
      - left. cbn [recv_step]. rewrite waitForData_empty_open; congruence. }
    destruct Hstep as [-> | ->]; unfold rendezvous_stuck;
      cbn [chan sender receiver]; repeat split; auto.
Qed.

Lemma run_rendezvous_stuck {T : Type}
  (serializer : T -> option (list Z)) (deserializer : list Z -> option T)
  (data : T) (schedule : list party) :
  forall s : system,
    rendezvous_stuck s ->
    rendezvous_stuck (run serializer deserializer data s schedule).
Proof.
  induction schedule as [|p schedule IH]; intros s Hs; cbn [run fold_left].
  - exact Hs.
  - apply IH. now apply step_rendezvous_stuck.
Qed.

(** C4 at its own scenario: on a capacity-0 channel, one [send(42)] and
    one [receive()], their callbacks run in any order and any number of
    times: neither promise ever settles and both indices stay 0, so the
    receiver never returns 42. *)
Theorem rendezvous_never_completes :
  exists ch0,
    new_SharedChannel (2 ^ 32) 0 1024 = Resolved ch0
    /\ forall schedule : list party,
        let s := run Json.serializer Json.deserializer (Json.VNumber 42)
                   (mkSystem ch0 None None) schedule in
        (forall o, sender s <> Some (SendSettled o))
        /\ (forall o, receiver s <> Some (RecvSettled o))
        /\ h_writeIndex (header (chan s)) = 0
        /\ h_readIndex (header (chan s)) = 0.
Proof.
  eexists. split; [vm_compute; reflexivity|].
  intros schedule s.
  assert (Hinit : rendezvous_stuck
                    (@mkSystem Json.value
                       (mkChannel (mkHeader 0 0 0 0 1024 0 0) [] 0 1024)
                       None None)).
  { unfold rendezvous_stuck; cbn; repeat split; auto. }
  pose proof (run_rendezvous_stuck Json.serializer Json.deserializer
                (Json.VNumber 42) schedule _ Hinit)
    as (_ & Hw & Hr & _ & Hs & Hrv).
  fold s in Hw, Hr, Hs, Hrv.
  repeat split; auto.
  - intros o. destruct Hs as [-> | ->]; discriminate.
  - intros o. destruct Hrv as [-> | ->]; discriminate.
Qed.

(** ** Payloads and the slot storage *)

Lemma setUint8_in_range (dv : DataView.t) (i v : Z) :
  0 <= i -> i + 1 <= DataView.byteLength dv ->
  exists dv', DataView.setUint8 dv (Some i) v = Some dv'
              /\ length dv' = length dv.
Proof.
  intros Hi Hlen. unfold DataView.setUint8, JS.ToIndex.
  destruct (Z.ltb_spec i 0); [lia|].
  destruct (Z.leb_spec (i + 1) (DataView.byteLength dv)); [|lia].
  eexists; split; [reflexivity|apply length_update].
Qed.


Lemma write_bytes_fits (dataArray : list Z) :
  forall (dv : DataView.t) (offset i : Z),
    0 <= offset + 4 + i ->
    offset + 4 + i + Z.of_nat (length dataArray) <= DataView.byteLength dv ->
    exists dv', write_bytes dv (Some offset) i dataArray = (dv', true)
                /\ length dv' = length dv.
Proof.
  induction dataArray as [|b rest IH]; intros dv offset i Hpos Hfit;
    cbn [write_bytes].
  - eexists; split; reflexivity.
  - cbn [length] in Hfit. cbn [JS.add].
    destruct (setUint8_in_range dv (offset + 4 + i) b Hpos ltac:(lia))
      as (dv1 & -> & Hlen1).
    destruct (IH dv1 offset (i + 1) ltac:(lia)
                ltac:(unfold DataView.byteLength in *; rewrite Hlen1; lia))
      as (dv2 & -> & Hlen2).
    eexists; split; [reflexivity|congruence].
Qed.


Lemma setUint32_in_range (dv : DataView.t) (i v : Z) :
  0 <= i -> i + 4 <= DataView.byteLength dv ->
  exists dv', DataView.setUint32 dv (Some i) v = Some dv'
              /\ length dv' = length dv.
Proof.
  intros Hi Hlen. unfold DataView.setUint32, JS.ToIndex.
  destruct (Z.ltb_spec i 0); [lia|].
  destruct (Z.leb_spec (i + 4) (DataView.byteLength dv)); [|lia].
  eexists; split; [reflexivity|].
  now rewrite !length_update.
Qed.


(** On an open channel of capacity at least one, [send] goes straight
    to the slot write. *)
Lemma send_open_buffered {T : Type}
  (serializer : T -> option (list Z)) (ch : SharedChannel) (data : T)
  (serialized : list Z) :
  h_closed (header ch) <> 1 ->
  1 <= bufferSize ch ->
  0 <= h_writeIndex (header ch) ->
  serializer data = Some serialized ->
  let offset := (h_writeIndex (header ch) mod bufferSize ch) * elementSize ch in
  let L := Z.of_nat (length serialized) in
  send serializer ch data =
  match DataView.setUint32 (dataView ch) (Some offset) L with
  | None => (ch, SendSettled (Rejected RangeError))
  | Some dv1 =>
      match write_bytes dv1 (Some offset) 0 serialized with
      | (dv2, false) =>
          (with_dataView ch dv2, SendSettled (Rejected RangeError))
      | (dv2, true) =>
          (with_header (with_dataView ch dv2)
             (Atomics.store (header (with_dataView ch dv2)) 1
                (h_writeIndex (header ch) + 1)),
           SendSettled (Resolved tt))
      end
  end.
Proof.
  intros Hopen Hcap Hw Hser offset L.
  unfold send.
  change (Atomics.load (header ch) 3) with (h_closed (header ch)).
  destruct (Z.eqb_spec (h_closed (header ch)) 1) as [E|_]; [contradiction|].
  unfold tryWrite.
  rewrite currentSize_below_capacity by exact Hcap.
  destruct (Z.eqb_spec (bufferSize ch) 0) as [E|Hne]; [lia|].
  cbn [orb]. rewrite Hser.
  change (Atomics.load (header ch) 1) with (h_writeIndex (header ch)).
  unfold JS.rem.
  destruct (Z.eqb_spec (bufferSize ch) 0) as [E|_]; [lia|].
  cbn [JS.mul].
  rewrite Z.rem_mod_nonneg by lia.
  reflexivity.
Qed.






(** ** Receiving *)

Lemma skipn_cons_nth (dv : list Z) :
  forall k : nat,
    (k < length dv)%nat -> skipn k dv = nth k dv 0 :: skipn (S k) dv.
Proof.
  induction dv as [|x dv IH]; intros k Hk; cbn [length] in Hk.
  - lia.
  - destruct k as [|k]; [reflexivity|].
    cbn [skipn nth]. rewrite (IH k) by lia. reflexivity.
Qed.

Lemma getUint8_in_range (dv : DataView.t) (i : Z) :
  0 <= i -> i + 1 <= DataView.byteLength dv ->
  DataView.getUint8 dv (Some i) = Some (nth (Z.to_nat i) dv 0).
Proof.
  intros Hi Hlen. unfold DataView.getUint8, JS.ToIndex.
  destruct (Z.ltb_spec i 0); [lia|].
  destruct (Z.leb_spec (i + 1) (DataView.byteLength dv)); [reflexivity|lia].
Qed.

(** The byte loop of [receive] copies the [dataLength] bytes that follow
    the length prefix. *)
Lemma read_bytes_in_range (dv : DataView.t) (offset : Z) (dataLength : nat) :
  forall i : Z,
    0 <= offset + 4 + i ->
    offset + 4 + i + Z.of_nat dataLength <= DataView.byteLength dv ->
    read_bytes dv (Some offset) i dataLength
    = Some (firstn dataLength (skipn (Z.to_nat (offset + 4 + i)) dv)).
Proof.
  induction dataLength as [|n IH]; intros i Hpos Hfit; cbn [read_bytes].
  - reflexivity.
  - cbn [JS.add].
    rewrite getUint8_in_range by lia.
    rewrite (IH (i + 1)) by lia.
    rewrite (skipn_cons_nth dv (Z.to_nat (offset + 4 + i)))
      by (unfold DataView.byteLength in Hfit; lia).
    cbn [firstn].
    replace (Z.to_nat (offset + 4 + (i + 1)))
      with (S (Z.to_nat (offset + 4 + i))) by lia.
    reflexivity.
Qed.

Lemma tryRead_closedAndEmpty_iff {T : Type}
  (deserializer : list Z -> option T) (ch : SharedChannel) :
  snd (tryRead deserializer ch) = RecvSettled (Rejected ClosedAndEmptyError)
  <-> h_closed (header ch) = 1
      /\ h_writeIndex (header ch) = h_readIndex (header ch).
Proof.
  unfold tryRead.
  change (Atomics.load (header ch) 1) with (h_writeIndex (header ch)).
  change (Atomics.load (header ch) 2) with (h_readIndex (header ch)).
  change (Atomics.load (header ch) 3) with (h_closed (header ch)).
  destruct (Z.eqb_spec (h_writeIndex (header ch)) (h_readIndex (header ch)))
    as [Hwr|Hwr].
  - destruct (Z.eqb_spec (h_closed (header ch)) 1) as [Hc|Hc].
    + cbn [snd]. tauto.
    + cbn [snd]. split; [|tauto].
      unfold waitForData. destruct (_ || _); discriminate.
  - split; [|tauto].
    destruct (DataView.getUint32 _ _) as [dataLength|];
      [|cbn [snd]; discriminate].
    destruct (read_bytes _ _ _ _) as [dataBuffer|];
      [|cbn [snd]; discriminate].
    destruct (deserializer dataBuffer); cbn [snd]; discriminate.
Qed.

Lemma receive_closedAndEmpty_iff {T : Type}
  (deserializer : list Z -> option T) (ch : SharedChannel) :
  snd (receive deserializer ch) = RecvSettled (Rejected ClosedAndEmptyError)
  <-> h_closed (header ch) = 1
      /\ h_writeIndex (header ch) = h_readIndex (header ch).
Proof.
  unfold receive.
  change (Atomics.load (header ch) 1) with (h_writeIndex (header ch)).
  change (Atomics.load (header ch) 2) with (h_readIndex (header ch)).
  change (Atomics.load (header ch) 3) with (h_closed (header ch)).
  destruct (Z.eqb_spec (h_closed (header ch)) 1) as [Hc|Hc];
    destruct (Z.eqb_spec (h_writeIndex (header ch)) (h_readIndex (header ch)))
      as [Hwr|Hwr]; cbn [andb].
  - cbn [snd]. tauto.
  - rewrite tryRead_closedAndEmpty_iff. tauto.
  - rewrite tryRead_closedAndEmpty_iff. tauto.
  - rewrite tryRead_closedAndEmpty_iff. tauto.
Qed.

(** With a value committed and not yet consumed, [receive] reads the slot
    at [read_index mod capacity], hands its payload to the deserializer,
    advances the read index by one and resolves with the value. *)
Lemma receive_committed {T : Type}
  (deserializer : list Z -> option T) (ch : SharedChannel)
  (dataLength : Z) (v : T) :
  1 <= bufferSize ch ->
  0 <= elementSize ch ->
  0 <= h_readIndex (header ch) ->
  h_writeIndex (header ch) <> h_readIndex (header ch) ->
  let offset := (h_readIndex (header ch) mod bufferSize ch) * elementSize ch in
  DataView.getUint32 (dataView ch) (Some offset) = Some dataLength ->
  offset + 4 + dataLength <= DataView.byteLength (dataView ch) ->
  deserializer (firstn (Z.to_nat dataLength)
                  (skipn (Z.to_nat (offset + 4)) (dataView ch))) = Some v ->
  receive deserializer ch
  = (with_header ch
       (Atomics.store (header ch) 2 (h_readIndex (header ch) + 1)),
     RecvSettled (Resolved v)).
Proof.
  intros Hcap Hes Hr Hwr offset Hlen Hfit Hdes.
  assert (Hoff : 0 <= offset).
  { unfold offset. apply Z.mul_nonneg_nonneg; [|exact Hes].
    apply Z.mod_pos_bound. lia. }
  assert (Hfit4 : offset + 4 <= DataView.byteLength (dataView ch)).
  { unfold DataView.getUint32, JS.ToIndex in Hlen.
    destruct (offset <? 0); [discriminate|].
    destruct (Z.leb_spec (offset + 4) (DataView.byteLength (dataView ch)));
      [assumption|discriminate]. }
  unfold receive, tryRead.
  change (Atomics.load (header ch) 1) with (h_writeIndex (header ch)).
  change (Atomics.load (header ch) 2) with (h_readIndex (header ch)).
  destruct (Z.eqb_spec (h_writeIndex (header ch)) (h_readIndex (header ch)))
    as [E|_]; [contradiction|].
  rewrite andb_false_r.
  unfold JS.rem.
  destruct (Z.eqb_spec (bufferSize ch) 0) as [E|_]; [lia|].
  cbn [JS.mul]. rewrite Z.rem_mod_nonneg by lia. fold offset.
  rewrite Hlen.
  rewrite read_bytes_in_range by lia.
  rewrite Z.add_0_r, Hdes. reflexivity.
Qed.

Lemma recv_retry_closedAndEmpty_iff {T : Type}
  (deserializer : list Z -> option T) (ch : SharedChannel) :
  snd (recv_step deserializer ch RecvWoken)
  = RecvSettled (Rejected ClosedAndEmptyError)
  <-> h_closed (header ch) = 1
      /\ h_writeIndex (header ch) = h_readIndex (header ch).
Proof.
  cbn [recv_step]. rewrite tryRead_closedAndEmpty_iff. reflexivity.
Qed.

(** The slot read of [tryRead], for any read index: the code's [%] is
    the truncating remainder, and the success of the length read already
    says that the offset is a valid index. *)
Lemma tryRead_committed {T : Type}
  (deserializer : list Z -> option T) (ch : SharedChannel)
  (dataLength : Z) (v : T) :
  1 <= bufferSize ch ->
  h_writeIndex (header ch) <> h_readIndex (header ch) ->
  let offset := Z.rem (h_readIndex (header ch)) (bufferSize ch)
                * elementSize ch in
  DataView.getUint32 (dataView ch) (Some offset) = Some dataLength ->
  offset + 4 + dataLength <= DataView.byteLength (dataView ch) ->
  deserializer (firstn (Z.to_nat dataLength)
                  (skipn (Z.to_nat (offset + 4)) (dataView ch))) = Some v ->
  tryRead deserializer ch
  = (with_header ch
       (Atomics.store (header ch) 2 (h_readIndex (header ch) + 1)),
     RecvSettled (Resolved v)).
Proof.
  intros Hcap Hwr offset Hlen Hfit Hdes.
  assert (Hoff : 0 <= offset
                 /\ offset + 4 <= DataView.byteLength (dataView ch)).
  { unfold DataView.getUint32, JS.ToIndex in Hlen.
    destruct (Z.ltb_spec offset 0); [discriminate|].
    destruct (Z.leb_spec (offset + 4) (DataView.byteLength (dataView ch)));
      [split; assumption|discriminate]. }
  unfold tryRead.
  change (Atomics.load (header ch) 1) with (h_writeIndex (header ch)).
  change (Atomics.load (header ch) 2) with (h_readIndex (header ch)).
  destruct (Z.eqb_spec (h_writeIndex (header ch)) (h_readIndex (header ch)))
    as [E|_]; [contradiction|].
  unfold JS.rem.
  destruct (Z.eqb_spec (bufferSize ch) 0) as [E|_]; [lia|].
  cbn [JS.mul]. fold offset.
  rewrite Hlen.
  rewrite read_bytes_in_range by lia.
  rewrite Z.add_0_r, Hdes. reflexivity.
Qed.

Lemma receive_pending_is_tryRead {T : Type}
  (deserializer : list Z -> option T) (ch : SharedChannel) :
  h_writeIndex (header ch) <> h_readIndex (header ch) ->
  receive deserializer ch = tryRead deserializer ch.
Proof.
  intros Hwr. unfold receive.
  change (Atomics.load (header ch) 1) with (h_writeIndex (header ch)).
  change (Atomics.load (header ch) 2) with (h_readIndex (header ch)).
  destruct (Z.eqb_spec (h_writeIndex (header ch)) (h_readIndex (header ch)))
    as [E|_]; [contradiction|].
  rewrite andb_false_r. reflexivity.
Qed.

(** C5.  [receive] fails with ClosedAndEmpty exactly when [closed = 1]
    and [write_index = read_index], on the first attempt and on the
    retry after a wake-up; a receive that is waiting is woken by the
    next check exactly when there is data or the channel is closed.
    When a committed slot is pending ([write_index <> read_index], the
    length prefix and the payload readable, the payload accepted by the
    deserializer), both the first attempt and the retry of a receive
    that waited read the slot at [read_index % capacity], deserialise
    its payload, advance the read index by one and return the value; the
    retry also takes the receiver out of [waiting_receivers].  On a
    capacity-1 channel after send ['a'] then close, the first receive
    returns ['a'] and the second fails with ClosedAndEmpty; and a
    receive that parked on the empty channel returns ['a'] on its retry
    once ['a'] has been sent. *)
Theorem receive_spec :
  (forall (T : Type) (deserializer : list Z -> option T) (ch : SharedChannel),
      (snd (receive deserializer ch)
       = RecvSettled (Rejected ClosedAndEmptyError)
       <-> h_closed (header ch) = 1
           /\ h_writeIndex (header ch) = h_readIndex (header ch))
      /\ (snd (recv_step deserializer ch RecvWoken)
          = RecvSettled (Rejected ClosedAndEmptyError)
          <-> h_closed (header ch) = 1
              /\ h_writeIndex (header ch) = h_readIndex (header ch))
      /\ recv_step deserializer ch RecvWaiting
         = (ch, if hasData ch || isClosed ch then RecvWoken else RecvWaiting))
  /\ (forall (T : Type) (deserializer : list Z -> option T)
        (ch : SharedChannel) (dataLength : Z) (v : T),
         1 <= bufferSize ch ->
         h_writeIndex (header ch) <> h_readIndex (header ch) ->
         let offset :=
           Z.rem (h_readIndex (header ch)) (bufferSize ch) * elementSize ch in
         DataView.getUint32 (dataView ch) (Some offset) = Some dataLength ->
         offset + 4 + dataLength <= DataView.byteLength (dataView ch) ->
         deserializer (firstn (Z.to_nat dataLength)
                         (skipn (Z.to_nat (offset + 4)) (dataView ch)))
         = Some v ->
         receive deserializer ch
         = (with_header ch
              (Atomics.store (header ch) 2 (h_readIndex (header ch) + 1)),
            RecvSettled (Resolved v))
         /\ recv_step deserializer ch RecvWoken
            = (with_header ch
                 (Atomics.store (Atomics.sub (header ch) 6 1) 2
                    (h_readIndex (header ch) + 1)),
               RecvSettled (Resolved v)))
  /\ (exists ch0 ch1 ch2 ch3,
         new_SharedChannel (2 ^ 32) 1 1024 = Resolved ch0
         /\ send Json.serializer ch0 (Json.VString [97])
            = (ch1, SendSettled (Resolved tt))
         /\ receive Json.deserializer (close ch1)
            = (ch2, RecvSettled (Resolved (Json.VString [97])))
         /\ h_readIndex (header ch2) = 1
         /\ receive Json.deserializer ch2
            = (ch3, RecvSettled (Rejected ClosedAndEmptyError)))
  /\ (exists ch0 ch1 ch2 ch3,
         new_SharedChannel (2 ^ 32) 1 1024 = Resolved ch0
         /\ receive Json.deserializer ch0 = (ch1, RecvWaiting)
         /\ h_waitingReceivers (header ch1) = 1
         /\ recv_step Json.deserializer ch1 RecvWaiting = (ch1, RecvWaiting)
         /\ send Json.serializer ch1 (Json.VString [97])
            = (ch2, SendSettled (Resolved tt))
         /\ recv_step Json.deserializer ch2 RecvWaiting = (ch2, RecvWoken)
         /\ recv_step Json.deserializer ch2 RecvWoken
            = (ch3, RecvSettled (Resolved (Json.VString [97])))
         /\ h_readIndex (header ch3) = 1
         /\ h_writeIndex (header ch3) = 1
         /\ h_waitingReceivers (header ch3) = 0).
Proof.
  split; [|split; [|split]].
  - intros T deserializer ch. split; [|split].
    + apply receive_closedAndEmpty_iff.
    + apply recv_retry_closedAndEmpty_iff.
    + reflexivity.
  - intros T deserializer ch dataLength v Hcap Hwr offset Hlen Hfit Hdes.
    split.
    + rewrite receive_pending_is_tryRead by exact Hwr.
      exact (tryRead_committed deserializer ch dataLength v
               Hcap Hwr Hlen Hfit Hdes).
    + cbn [recv_step].
      exact (tryRead_committed deserializer
               (with_header ch (Atomics.sub (header ch) 6 1)) dataLength v
               Hcap Hwr Hlen Hfit Hdes).
  - do 4 eexists.
    split; [vm_compute; reflexivity|].
    split; [vm_compute; reflexivity|].
    split; [vm_compute; reflexivity|].
    split; vm_compute; reflexivity.
  - do 4 eexists.
    split; [vm_compute; reflexivity|].
    split; [vm_compute; reflexivity|].
    split; [vm_compute; reflexivity|].
    split; [vm_compute; reflexivity|].
    split; [vm_compute; reflexivity|].
    split; [vm_compute; reflexivity|].
    split; [vm_compute; reflexivity|].
    split; [vm_compute; reflexivity|].
    split; vm_compute; reflexivity.
Qed.

Lemma receive_spec_witness :
  receive Json.deserializer
    (mkChannel (mkHeader 1 1 0 1 8 0 0) [3; 0; 0; 0; 34; 97; 34; 0] 1 8)
  = (mkChannel (mkHeader 1 1 1 1 8 0 0) [3; 0; 0; 0; 34; 97; 34; 0] 1 8,
     RecvSettled (Resolved (Json.VString [97])))
  /\ recv_step Json.deserializer
       (mkChannel (mkHeader 1 1 0 0 8 0 1) [3; 0; 0; 0; 34; 97; 34; 0] 1 8)
       RecvWoken
     = (mkChannel (mkHeader 1 1 1 0 8 0 0) [3; 0; 0; 0; 34; 97; 34; 0] 1 8,
        RecvSettled (Resolved (Json.VString [97]))).
Proof.
  split.
  - apply (proj1 (proj2 receive_spec) Json.value Json.deserializer
             (mkChannel (mkHeader 1 1 0 1 8 0 0)
                [3; 0; 0; 0; 34; 97; 34; 0] 1 8)
             3 (Json.VString [97])
             ltac:(cbn; lia) ltac:(cbn; lia) eq_refl ltac:(cbn; lia) eq_refl).
  - apply (proj1 (proj2 receive_spec) Json.value Json.deserializer
             (mkChannel (mkHeader 1 1 0 0 8 0 1)
                [3; 0; 0; 0; 34; 97; 34; 0] 1 8)
             3 (Json.VString [97])
             ltac:(cbn; lia) ltac:(cbn; lia) eq_refl ltac:(cbn; lia) eq_refl).
Defined.

(** ** The async iterator *)

(** The traversal and the loop around [receive] agree on every run in
    which [receive] raises no error other than ClosedAndEmpty: same
    values, same end, same channel afterwards. *)
Lemma asyncIterator_agrees_with_receive_loop {T : Type}
  (deserializer : list Z -> option T) (fuel : nat) :
  forall ch : SharedChannel,
    (forall e, snd (receive_loop deserializer fuel ch) <> IterFailed e) ->
    asyncIterator deserializer fuel ch = receive_loop deserializer fuel ch.
Proof.
  induction fuel as [|fuel IH]; intros ch Hok; [reflexivity|].
  cbn [asyncIterator receive_loop] in *.
  destruct (negb (isClosed ch) || hasData ch) eqn:Hguard.
  - destruct (receive deserializer ch) as [ch' [| |[v|e]]] eqn:Hrecv;
      try reflexivity.
    + rewrite IH; [reflexivity|].
      intros e He. apply (Hok e).
      destruct (receive_loop deserializer fuel ch') as [[ch'' vs] en].
      exact He.
    + destruct e; try reflexivity; exfalso; eapply Hok; reflexivity.
  - assert (Hce : h_closed (header ch) = 1
                  /\ h_writeIndex (header ch) = h_readIndex (header ch)).
    { unfold isClosed, hasData in Hguard.
      change (Atomics.load (header ch) 1) with (h_writeIndex (header ch)) in Hguard.
      change (Atomics.load (header ch) 2) with (h_readIndex (header ch)) in Hguard.
      change (Atomics.load (header ch) 3) with (h_closed (header ch)) in Hguard.
      destruct (Z.eqb_spec (h_closed (header ch)) 1);
        destruct (Z.eqb_spec (h_writeIndex (header ch))
                    (h_readIndex (header ch)));
        cbn in Hguard; try discriminate; auto. }
    unfold receive.
    change (Atomics.load (header ch) 1) with (h_writeIndex (header ch)).
    change (Atomics.load (header ch) 2) with (h_readIndex (header ch)).
    change (Atomics.load (header ch) 3) with (h_closed (header ch)).
    destruct Hce as [-> ->]. rewrite !Z.eqb_refl. reflexivity.
Qed.

(** The buffered round trip: capacity 3, send 1, 2, 3, close, iterate.
    With fuel for four turns or more the traversal yields [1; 2; 3] and
    returns; the loop around [receive] does the same. *)
Lemma asyncIterator_round_trip :
  exists ch0 ch1 ch2 ch3,
    new_SharedChannel (2 ^ 32) 3 1024 = Resolved ch0
    /\ send Json.serializer ch0 (Json.VNumber 1)
       = (ch1, SendSettled (Resolved tt))
    /\ send Json.serializer ch1 (Json.VNumber 2)
       = (ch2, SendSettled (Resolved tt))
    /\ send Json.serializer ch2 (Json.VNumber 3)
       = (ch3, SendSettled (Resolved tt))
    /\ forall n : nat,
        snd (fst (asyncIterator Json.deserializer (4 + n) (close ch3)))
        = [Json.VNumber 1; Json.VNumber 2; Json.VNumber 3]
        /\ snd (asyncIterator Json.deserializer (4 + n) (close ch3))
           = IterReturned
        /\ asyncIterator Json.deserializer (4 + n) (close ch3)
           = receive_loop Json.deserializer (4 + n) (close ch3).
Proof.
  do 4 eexists.
  split; [vm_compute; reflexivity|].
  split; [vm_compute; reflexivity|].
  split; [vm_compute; reflexivity|].
  split; [vm_compute; reflexivity|].
  intros n. split; [|split]; vm_compute; reflexivity.
Qed.

(** C6 at a failing input: after [send(undefined)] on a capacity-1
    channel the slot holds an empty payload, which [JSON.parse] refuses.
    The loop around [receive] ends with that error; the traversal's
    catch-all swallows it and returns as if the channel were closed and
    drained, although it is open and still holds the slot. *)
Theorem asyncIterator_swallows_receive_error :
  exists ch0 ch1,
    new_SharedChannel (2 ^ 32) 1 1024 = Resolved ch0
    /\ send Json.serializer ch0 Json.VUndefined
       = (ch1, SendSettled (Resolved tt))
    /\ isClosed ch1 = false /\ hasData ch1 = true
    /\ forall n : nat,
        asyncIterator Json.deserializer (S n) ch1 = (ch1, [], IterReturned)
        /\ receive_loop Json.deserializer (S n) ch1
           = (ch1, [], IterFailed DeserializerError).
Proof.
  do 2 eexists.
  split; [vm_compute; reflexivity|].
  split; [vm_compute; reflexivity|].
  split; [vm_compute; reflexivity|].
  split; [vm_compute; reflexivity|].
  intros n. split; vm_compute; reflexivity.
Qed.

(** ** WaitGroup *)

Section WaitGroupFacts.

Context {V E : Type}.

Local Abbreviation event := (event V E).

Lemma existsb_eqb_In (h : nat) (ps : list nat) :
  existsb (Nat.eqb h) ps = true <-> In h ps.
Proof.
  rewrite existsb_exists. split.
  - intros (x & Hx & Heq). apply Nat.eqb_eq in Heq. now subst.
  - intros Hin. exists h. split; [exact Hin|apply Nat.eqb_refl].
Qed.

Lemma value_of_In (h : nat) (seen : list (nat * V)) (v : V) :
  value_of h seen = Some v -> In (h, v) seen.
Proof.
  induction seen as [|[h' v'] seen IH]; cbn [value_of]; [discriminate|].
  destruct (Nat.eqb_spec h h') as [->|Hne].
  - intros [= ->]. now left.
  - intros Hv. right. now apply IH.
Qed.

Lemma value_of_app_l (h : nat) (seen more : list (nat * V)) (v : V) :
  value_of h seen = Some v -> value_of h (seen ++ more) = Some v.
Proof.
  induction seen as [|[h' v'] seen IH]; cbn [value_of app]; [discriminate|].
  destruct (Nat.eqb h h'); auto.
Qed.

Lemma value_of_app_new (h : nat) (seen : list (nat * V)) (v : V) :
  exists v', value_of h (seen ++ [(h, v)]) = Some v'.
Proof.
  induction seen as [|[h' v'] seen IH]; cbn [value_of app].
  - rewrite Nat.eqb_refl. eauto.
  - destruct (Nat.eqb h h'); eauto.
Qed.

Lemma collect_total (ps : list nat) (seen : list (nat * V)) :
  (forall h, In h ps -> exists v, value_of h seen = Some v) ->
  exists vs, collect ps seen = Some vs.
Proof.
  induction ps as [|h ps IH]; intros Hall; cbn [collect].
  - eauto.
  - destruct (Hall h (or_introl eq_refl)) as [v ->].
    destruct IH as [vs ->]; [intros h' Hh'; apply Hall; now right|].
    eauto.
Qed.

Lemma collect_Forall2 (ps : list nat) (seen : list (nat * V)) :
  forall vs,
    collect ps seen = Some vs ->
    Forall2 (fun h v => value_of h seen = Some v) ps vs.
Proof.
  induction ps as [|h ps IH]; intros vs; cbn [collect].
  - intros [= <-]. constructor.
  - destruct (value_of h seen) as [v|] eqn:Hv; [|discriminate].
    destruct (collect ps seen) as [vs'|]; [|discriminate].
    intros [= <-]. constructor; auto.
Qed.

Lemma Forall2_In_l {A B : Type} (R : A -> B -> Prop) (l : list A) (l' : list B) :
  Forall2 R l l' -> forall a, In a l -> exists b, R a b.
Proof.
  induction 1 as [|a b l l' Hab _ IH]; intros x Hx; [destruct Hx|].
  destruct Hx as [<-|Hx]; eauto.
Qed.

(** A fulfilled [Promise.all] carries, in the order of [ps], values with
    which the handles were fulfilled. *)
Lemma Promise_all_fulfilled_values (ps : list nat) (all : list event)
  (obs : list event) :
  forall (seen : list (nat * V)) (vs : list V),
    (forall h v, In (h, v) seen -> In (h, Fulfilled v) all) ->
    incl obs all ->
    Promise_all ps seen obs = AllFulfilled vs ->
    Forall2 (fun h v => In (h, Fulfilled v) all) ps vs.
Proof.
  assert (Hdone : forall seen vs,
             (forall h v, In (h, v) seen -> In (h, Fulfilled v) all) ->
             collect ps seen = Some vs ->
             Forall2 (fun h v => In (h, Fulfilled v) all) ps vs).
  { intros seen vs Hseen Hc. apply collect_Forall2 in Hc.
    eapply Forall2_impl; [|exact Hc].
    intros h v Hv. cbn beta in Hv. apply Hseen. now apply value_of_In. }
  induction obs as [|[h [v|e]] obs IH]; intros seen vs Hseen Hincl;
    cbn [Promise_all]; destruct (collect ps seen) as [vs0|] eqn:Hc;
    try (intros [= <-]; now apply (Hdone seen));
    try discriminate.
  - apply IH.
    + intros h' v' Hin. apply in_app_or in Hin. destruct Hin as [Hin|Hin].
      * now apply Hseen.
      * destruct Hin as [[= <- <-]|[]]. apply Hincl. now left.
    + intros ev Hev. apply Hincl. now right.
  - destruct (existsb (Nat.eqb h) ps); [discriminate|].
    apply IH; [exact Hseen|].
    intros ev Hev. apply Hincl. now right.
Qed.

(** If every handle is fulfilled somewhere in [obs] and none is rejected,
    [Promise.all] is fulfilled. *)
Lemma Promise_all_fulfils (ps : list nat) (obs : list event) :
  forall seen : list (nat * V),
    (forall h, In h ps ->
               (exists v, value_of h seen = Some v)
               \/ (exists v, In (h, Fulfilled v) obs)) ->
    (forall h e, In h ps -> ~ In (h, RejectedWith e) obs) ->
    exists vs, Promise_all ps seen obs = AllFulfilled vs.
Proof.
  induction obs as [|[h [v|e]] obs IH]; intros seen Hall Hnorej;
    cbn [Promise_all]; destruct (collect ps seen) as [vs0|] eqn:Hc;
    try (eexists; reflexivity).
  - exfalso.
    destruct (collect_total ps seen) as [vs Hvs]; [|congruence].
    intros h Hh. destruct (Hall h Hh) as [Hv|[v []]]. exact Hv.
  - apply IH.
    + intros h' Hh'. destruct (Hall h' Hh') as [[v' Hv']|[v' Hin]].
      * left. exists v'. now apply value_of_app_l.
      * destruct Hin as [[= -> ->]|Hin].
        -- left. apply value_of_app_new.
        -- right. eauto.
    + intros h' e Hh' Hin. apply (Hnorej h' e Hh'). now right.
  - destruct (existsb (Nat.eqb h) ps) eqn:Hmem.
    + exfalso. apply existsb_eqb_In in Hmem.
      apply (Hnorej h e Hmem). now left.
    + apply IH.
      * intros h' Hh'. destruct (Hall h' Hh') as [Hv|[v' Hin]]; [now left|].
        destruct Hin as [[=]|Hin]. right. eauto.
      * intros h' e' Hh' Hin. apply (Hnorej h' e' Hh'). now right.
Qed.

Lemma NoDup_fst_unique (obs : list event) (h : nat) (o1 o2 : outcome V E) :
  NoDup (map fst obs) -> In (h, o1) obs -> In (h, o2) obs -> o1 = o2.
Proof.
  induction obs as [|[h' o'] obs IH]; cbn [map fst]; intros Hnd H1 H2.
  - destruct H1.
  - inversion Hnd as [|? ? Hnotin Hnd']; subst.
    destruct H1 as [E1|H1], H2 as [E2|H2]; auto.
    + congruence.
    + exfalso. apply Hnotin. apply (in_map fst) in H2.
      injection E1 as -> _. exact H2.
    + exfalso. apply Hnotin. apply (in_map fst) in H1.
      injection E2 as -> _. exact H1.
Qed.

(** If a handle of [ps] is rejected in [obs], [Promise.all] is rejected
    with the reason of the first such rejection. *)
Lemma Promise_all_rejects (ps : list nat) (obs : list event) :
  forall seen : list (nat * V),
    NoDup (map fst obs) ->
    (forall h v e, In (h, v) seen -> ~ In (h, RejectedWith e) obs) ->
    (exists h e, In h ps /\ In (h, RejectedWith e) obs) ->
    exists e1,
      Promise_all ps seen obs = AllRejected e1
      /\ first_rejection ps obs = Some e1.
Proof.
  induction obs as [|[h0 [v0|e0]] obs IH]; intros seen Hnd Hseen Hrej.
  - destruct Hrej as (h & e & _ & []).
  - cbn [Promise_all first_rejection].
    destruct Hrej as (h & e & Hh & Hin).
    destruct Hin as [[=]|Hin].
    destruct (collect ps seen) as [vs0|] eqn:Hc.
    + exfalso. apply collect_Forall2 in Hc.
      destruct (Forall2_In_l _ _ _ Hc h Hh) as [v Hv].
      apply value_of_In in Hv. apply (Hseen h v e Hv). now right.
    + cbn [map fst] in Hnd. inversion Hnd as [|? ? Hnotin Hnd']; subst.
      apply IH; [exact Hnd'| |eauto].
      intros h' v' e' Hin' Hr. apply in_app_or in Hin'.
      destruct Hin' as [Hin'|[[= <- <-]|[]]].
      * apply (Hseen h' v' e' Hin'). now right.
      * apply Hnotin. apply (in_map fst) in Hr. exact Hr.
  - cbn [Promise_all first_rejection].
    destruct (collect ps seen) as [vs0|] eqn:Hc.
    + exfalso. destruct Hrej as (h & e & Hh & Hin).
      apply collect_Forall2 in Hc.
      destruct (Forall2_In_l _ _ _ Hc h Hh) as [v Hv].
      apply value_of_In in Hv. apply (Hseen h v e Hv). exact Hin.
    + destruct (existsb (Nat.eqb h0) ps) eqn:Hmem.
      * eexists. split; reflexivity.
      * cbn [map fst] in Hnd. inversion Hnd as [|? ? Hnotin Hnd']; subst.
        apply IH; [exact Hnd'| |].
        -- intros h' v' e' Hin' Hr. apply (Hseen h' v' e' Hin'). now right.
        -- destruct Hrej as (h & e & Hh & Hin).
           destruct Hin as [[= <- <-]|Hin]; [|eauto].
           apply existsb_eqb_In in Hh. congruence.
Qed.

Lemma Promise_all_rejected_inv (ps : list nat) (obs : list event) :
  forall (seen : list (nat * V)) (e : E),
    Promise_all ps seen obs = AllRejected e ->
    exists h, In h ps /\ In (h, RejectedWith e) obs.
Proof.
  induction obs as [|[h0 [v0|e0]] obs IH]; intros seen e;
    cbn [Promise_all]; destruct (collect ps seen); try discriminate.
  - intros Hr. destruct (IH _ _ Hr) as (h & Hh & Hin).
    exists h. split; [exact Hh|now right].
  - destruct (existsb (Nat.eqb h0) ps) eqn:Hmem.
    + intros [= <-]. exists h0. split; [now apply existsb_eqb_In|now left].
    + intros Hr. destruct (IH _ _ Hr) as (h & Hh & Hin).
      exists h. split; [exact Hh|now right].
Qed.

Lemma In_settlements (evs : list (wg_event V E)) (h : nat) (o : outcome V E) :
  In (h, o) (settlements evs) <-> In (EvSettle h o) evs.
Proof.
  induction evs as [|[h'|h' o'] evs IH]; cbn [settlements In].
  - tauto.
  - rewrite IH. split; [auto|]. intros [Heq|Hin]; [discriminate|exact Hin].
  - rewrite IH. split; (intros [Heq|Hin]; [left; congruence|now right]).
Qed.

Lemma promises_run_events (evs : list (wg_event V E)) :
  forall wg : WaitGroup,
    promises (run_events wg evs) = promises wg ++ additions evs.
Proof.
  induction evs as [|[h|h o] evs IH]; intros wg;
    cbn [run_events fold_left apply_event additions].
  - now rewrite app_nil_r.
  - fold (run_events (add wg h) evs). rewrite IH. cbn [add promises].
    now rewrite <- app_assoc.
  - fold (run_events (settle wg h) evs). rewrite IH. reflexivity.
Qed.

End WaitGroupFacts.

(** C7, at the inputs where the code departs from it.  The events of a
    [wait()] are those of [wg_event]; a settlement listed for a handle
    that settled before the call stands for [Promise.all] learning of
    it.

    A rejected [wait()]: one handle, rejected with reason 7.  [wait()]
    rejects with 7 and the two resets are skipped, so the group still
    holds the handle.  After [add] of a second handle that is fulfilled
    with 5, the next [wait()] rejects with 7 again, where a new group
    given that handle resolves with [[5]].

    An [add] while [wait()] is pending: [Promise.all] was given the
    array of the call, so [wait()] resolves with [[10]] when the first
    handle is fulfilled, without the handle added meanwhile; the resets
    drop that handle although its callback is outstanding, so the
    counter goes to -1 when it settles, and the next [wait()] resolves
    at once with no result for it. *)
Theorem wait_leaves_the_group_unusable :
  wait (add new_WaitGroup 0%nat) [EvSettle 0%nat (@RejectedWith Z Z 7)]
  = (mkWaitGroup 0 [0%nat] [], WaitRejected 7)
  /\ wait (add (mkWaitGroup 0 [0%nat] []) 1%nat)
       [EvSettle 0%nat (@RejectedWith Z Z 7); EvSettle 1%nat (Fulfilled 5)]
     = (mkWaitGroup 0 [0%nat; 1%nat] [], WaitRejected 7)
  /\ wait (add new_WaitGroup 1%nat) [EvSettle 1%nat (@Fulfilled Z Z 5)]
     = (new_WaitGroup, WaitResolved [5])
  /\ wait (add new_WaitGroup 0%nat)
       [EvAdd 1%nat; EvSettle 0%nat (@Fulfilled Z Z 10)]
     = (mkWaitGroup 0 [] [1%nat], WaitResolved [10])
  /\ getCount (settle (mkWaitGroup 0 [] [1%nat]) 1%nat) = -1
  /\ wait (mkWaitGroup 0 [] [1%nat]) (@nil (wg_event Z Z))
     = (mkWaitGroup 0 [] [1%nat], WaitResolved []).
Proof.
  repeat split.
Qed.

(** ** Pool teardown *)

Module PoolFacts.
Import Pool.

Lemma createWorker_keeps_tasks (p : WorkerPool) :
  taskQueue (createWorker p) = taskQueue p
  /\ handles (createWorker p) = handles p.
Proof. split; reflexivity. Qed.

Lemma removeWorker_keeps_tasks (p : WorkerPool) (worker : nat) :
  taskQueue (removeWorker p worker) = taskQueue p
  /\ handles (removeWorker p worker) = handles p.
Proof.
  unfold removeWorker. destruct (_ && _); split; reflexivity.
Qed.

Lemma exits_keep_tasks (ws : list nat) :
  forall p : WorkerPool,
    taskQueue (fold_left on_exit ws p) = taskQueue p
    /\ handles (fold_left on_exit ws p) = handles p.
Proof.
  induction ws as [|w ws IH]; intros p; cbn [fold_left]; [auto|].
  destruct (IH (on_exit p w)) as [-> ->].
  apply removeWorker_keeps_tasks.
Qed.




Lemma In_remove_first (x y : nat) (l : list nat) :
  In y (remove_first x l) -> In y l.
Proof.
  induction l as [|z l IH]; cbn [remove_first]; [auto|].
  destruct (Nat.eqb z x); [now right|].
  intros [->|Hin]; [now left|right; auto].
Qed.

Lemma NoDup_remove_first (x : nat) (l : list nat) :
  NoDup l -> NoDup (remove_first x l) /\ ~ In x (remove_first x l).
Proof.
  induction 1 as [|z l Hnotin Hnd [IHnd IHnot]]; cbn [remove_first].
  - split; [constructor|intros []].
  - destruct (Nat.eqb_spec z x) as [->|Hne].
    + split; assumption.
    + split.
      * constructor; [|exact IHnd].
        intros Hin. apply Hnotin. eapply In_remove_first; eassumption.
      * intros [Heq|Hin]; [contradiction|now apply IHnot].
Qed.





End PoolFacts.

(** ** A value sent is the value received *)

Lemma nth_update_eq (dv : DataView.t) (b : Z) :
  forall k : nat, (k < length dv)%nat -> nth k (DataView.update dv k b) 0 = b.
Proof.
  induction dv as [|x dv IH]; intros k Hk; cbn [length] in Hk; [lia|].
  destruct k as [|k]; [reflexivity|]. cbn [DataView.update nth].
  apply IH. lia.
Qed.

Lemma nth_update_neq (dv : DataView.t) (b : Z) :
  forall k j : nat, k <> j -> nth k (DataView.update dv j b) 0 = nth k dv 0.
Proof.
  induction dv as [|x dv IH]; intros k j Hkj.
  - destruct j; reflexivity.
  - destruct j as [|j], k as [|k]; cbn [DataView.update nth];
      try reflexivity; try lia.
    apply IH. lia.
Qed.

(** What the byte loop of [send] leaves in the storage. *)
Lemma write_bytes_written (dataArray : list Z) :
  forall (dv dv' : DataView.t) (offset i : Z),
    0 <= offset + 4 + i ->
    write_bytes dv (Some offset) i dataArray = (dv', true) ->
    length dv' = length dv
    /\ (forall j : nat,
           (j < length dataArray)%nat ->
           nth (Z.to_nat (offset + 4 + i) + j) dv' 0
           = nth j dataArray 0 mod 256)
    /\ (forall k : nat,
           (k < Z.to_nat (offset + 4 + i))%nat
           \/ (Z.to_nat (offset + 4 + i) + length dataArray <= k)%nat ->
           nth k dv' 0 = nth k dv 0).
Proof.
  induction dataArray as [|b rest IH]; intros dv dv' offset i Hpos Hw;
    cbn [write_bytes] in Hw.
  - injection Hw as <-. repeat split; auto. intros j Hj. cbn in Hj. lia.
  - cbn [JS.add] in Hw. unfold DataView.setUint8, JS.ToIndex in Hw.
    destruct (Z.ltb_spec (offset + 4 + i) 0); [lia|].
    destruct (Z.leb_spec (offset + 4 + i + 1) (DataView.byteLength dv))
      as [Hle|]; [|discriminate].
    unfold DataView.byteLength in Hle.
    set (p := Z.to_nat (offset + 4 + i)) in *.
    destruct (IH _ dv' offset (i + 1) ltac:(lia) Hw) as (Hlen & Hin & Hout).
    replace (Z.to_nat (offset + 4 + (i + 1))) with (S p) in Hin, Hout by lia.
    rewrite length_update in Hlen.
    split; [exact Hlen|split].
    + intros [|j] Hj; cbn [length] in Hj.
      * rewrite Nat.add_0_r, Hout by lia.
        cbn [nth]. apply nth_update_eq. lia.
      * replace (p + S j)%nat with (S p + j)%nat by lia.
        cbn [nth]. apply Hin. lia.
    + intros k Hk. cbn [length] in Hk.
      rewrite Hout by lia. apply nth_update_neq. lia.
Qed.

Lemma uint32_bytes (u : Z) :
  0 <= u < 2 ^ 32 ->
  u mod 256 + 256 * ((u / 256) mod 256) + 65536 * ((u / 65536) mod 256)
  + 16777216 * ((u / 16777216) mod 256) = u.
Proof.
  intros Hu.
  pose proof (Z.div_mod u 256 ltac:(lia)) as H0.
  pose proof (Z.div_mod (u / 256) 256 ltac:(lia)) as H1.
  pose proof (Z.div_mod (u / 256 / 256) 256 ltac:(lia)) as H2.
  assert (E1 : u / 256 / 256 = u / 65536)
    by (rewrite Z.div_div by lia; reflexivity).
  assert (E2 : u / 65536 / 256 = u / 16777216)
    by (rewrite Z.div_div by lia; reflexivity).
  rewrite E1 in H1, H2. rewrite E2 in H2.
  assert (H3 : (u / 16777216) mod 256 = u / 16777216).
  { apply Z.mod_small. split.
    - apply Z.div_pos; lia.
    - apply Z.div_lt_upper_bound; lia. }
  lia.
Qed.

(** The length prefix read back from where it was stored, as long as the
    four bytes are not written again. *)
Lemma getUint32_after_setUint32 (dv dv1 dv2 : DataView.t) (i v : Z) :
  0 <= v < 2 ^ 32 ->
  DataView.setUint32 dv (Some i) v = Some dv1 ->
  length dv2 = length dv1 ->
  (forall k : nat, (k < Z.to_nat i + 4)%nat -> nth k dv2 0 = nth k dv1 0) ->
  DataView.getUint32 dv2 (Some i) = Some v.
Proof.
  intros Hv Hset Hlen Hsame.
  unfold DataView.setUint32, JS.ToIndex in Hset.
  unfold DataView.getUint32, JS.ToIndex.
  destruct (Z.ltb_spec i 0); [discriminate|].
  destruct (Z.leb_spec (i + 4) (DataView.byteLength dv)) as [Hle|];
    [|discriminate].
  injection Hset as <-.
  unfold DataView.byteLength in *.
  rewrite !length_update in Hlen. rewrite Hlen.
  destruct (Z.leb_spec (i + 4) (Z.of_nat (length dv))); [|lia].
  set (n := Z.to_nat i) in *.
  rewrite !Hsame by lia.
  unfold JS.ToUint32. rewrite (Z.mod_small v) by lia.
  rewrite (nth_update_eq _ _ (S (S (S n))))
    by (rewrite !length_update; lia).
  rewrite (nth_update_neq _ _ (S (S n)) (S (S (S n)))) by lia.
  rewrite (nth_update_eq _ _ (S (S n))) by (rewrite !length_update; lia).
  rewrite (nth_update_neq _ _ (S n) (S (S (S n)))) by lia.
  rewrite (nth_update_neq _ _ (S n) (S (S n))) by lia.
  rewrite (nth_update_eq _ _ (S n)) by (rewrite !length_update; lia).
  rewrite (nth_update_neq _ _ n (S (S (S n)))) by lia.
  rewrite (nth_update_neq _ _ n (S (S n))) by lia.
  rewrite (nth_update_neq _ _ n (S n)) by lia.
  rewrite (nth_update_eq _ _ n) by lia.
  f_equal. apply uint32_bytes. exact Hv.
Qed.

(** On an open channel ([closed = 0]) of capacity at least one and slot
    size at least 0, empty with [0 <= write_index = read_index < 2^31 - 1]:
    when the serializer yields bytes (each in 0..255) of length
    [L < 2^32] with [(write_index mod capacity) * slot_size + 4 + L]
    within the storage, and the deserializer accepts those bytes, [send]
    is committed, the next [receive] hands exactly those bytes to the
    deserializer and returns its value, and both indices end at the old
    index plus one. *)
Lemma send_receive_round_trip {T : Type}
  (serializer : T -> option (list Z)) (deserializer : list Z -> option T)
  (ch : SharedChannel) (data v : T) (serialized : list Z) :
  h_closed (header ch) = 0 ->
  1 <= bufferSize ch ->
  0 <= elementSize ch ->
  0 <= h_writeIndex (header ch) < 2 ^ 31 - 1 ->
  h_readIndex (header ch) = h_writeIndex (header ch) ->
  serializer data = Some serialized ->
  Forall (fun b => 0 <= b < 256) serialized ->
  Z.of_nat (length serialized) < 2 ^ 32 ->
  (h_writeIndex (header ch) mod bufferSize ch) * elementSize ch + 4
  + Z.of_nat (length serialized) <= DataView.byteLength (dataView ch) ->
  deserializer serialized = Some v ->
  exists ch1 ch2,
    send serializer ch data = (ch1, SendSettled (Resolved tt))
    /\ receive deserializer ch1 = (ch2, RecvSettled (Resolved v))
    /\ h_writeIndex (header ch2) = h_writeIndex (header ch) + 1
    /\ h_readIndex (header ch2) = h_readIndex (header ch) + 1.
Proof.
  intros Hopen Hcap Hes Hw Hr Hser Hbytes HL Hfit Hdes.
  set (offset := (h_writeIndex (header ch) mod bufferSize ch) * elementSize ch)
    in *.
  assert (Hoff : 0 <= offset).
  { unfold offset. apply Z.mul_nonneg_nonneg; [|exact Hes].
    apply Z.mod_pos_bound. lia. }
  pose proof (send_open_buffered serializer ch data serialized
                ltac:(lia) Hcap ltac:(lia) Hser) as Hsend.
  cbv zeta in Hsend. fold offset in Hsend.
  destruct (setUint32_in_range (dataView ch) offset
              (Z.of_nat (length serialized)) Hoff ltac:(lia))
    as (dv1 & Hset & Hlen1).
  rewrite Hset in Hsend.
  destruct (write_bytes_fits serialized dv1 offset 0 ltac:(lia)
              ltac:(unfold DataView.byteLength in *; rewrite Hlen1; lia))
    as (dv2 & Hwrite & Hlen2).
  rewrite Hwrite in Hsend.
  destruct (write_bytes_written serialized dv1 dv2 offset 0 ltac:(lia) Hwrite)
    as (_ & Hin & Hout).
  rewrite Z.add_0_r in Hin, Hout.
  eexists. eexists. split; [exact Hsend|].
  assert (Hw1 : JS.ToInt32 (h_writeIndex (header ch) + 1)
                = h_writeIndex (header ch) + 1)
    by (apply ToInt32_small; lia).
  assert (Hr1 : JS.ToInt32 (h_readIndex (header ch) + 1)
                = h_readIndex (header ch) + 1)
    by (apply ToInt32_small; lia).
  split; [|split].
  - erewrite (receive_committed deserializer _
                (Z.of_nat (length serialized)) v).
    + reflexivity.
    + exact Hcap.
    + exact Hes.
    + cbn. lia.
    + cbn -[JS.ToInt32]. rewrite Hw1. lia.
    + cbn -[JS.ToInt32 Z.pow]. rewrite Hr. fold offset.
      apply (getUint32_after_setUint32 (dataView ch) dv1 dv2); auto.
      * lia.
      * intros k Hk. apply Hout. left. lia.
    + cbn -[JS.ToInt32 Z.pow]. rewrite Hr. fold offset.
      unfold DataView.byteLength in *. rewrite Hlen2, Hlen1. lia.
    + cbn -[JS.ToInt32 Z.pow]. rewrite Hr. fold offset.
      rewrite Nat2Z.id.
      replace (firstn (length serialized) (skipn (Z.to_nat (offset + 4)) dv2))
        with serialized; [exact Hdes|].
      apply (nth_ext _ _ 0 0).
      * rewrite length_firstn, length_skipn.
        unfold DataView.byteLength in *. lia.
      * intros j Hj. rewrite nth_firstn.
        destruct (Nat.ltb_spec j (length serialized)); [|lia].
        rewrite nth_skipn, Hin by lia.
        rewrite Z.mod_small; [reflexivity|].
        rewrite Forall_forall in Hbytes. apply Hbytes. now apply nth_In.
  - cbn -[JS.ToInt32 Z.pow]. exact Hw1.
  - cbn -[JS.ToInt32 Z.pow]. exact Hr1.
Qed.

(* ===================================================================== *)
(** * Further properties of the code                                     *)
(* ===================================================================== *)

(** ** What one attempt does to the header and the storage *)

(** The three things [tryWrite] can do: commit (write index advanced by
    one), fail (header untouched), or park (one more waiting sender,
    storage untouched). *)
Lemma tryWrite_effect {T : Type}
  (serializer : T -> option (list Z)) (ch : SharedChannel) (data : T) :
  let r := tryWrite serializer ch data in
  bufferSize (fst r) = bufferSize ch
  /\ elementSize (fst r) = elementSize ch
  /\ length (dataView (fst r)) = length (dataView ch)
  /\ ((snd r = SendSettled (Resolved tt)
       /\ header (fst r)
          = Atomics.store (header ch) 1 (h_writeIndex (header ch) + 1))
      \/ ((exists e, snd r = SendSettled (Rejected e))
          /\ header (fst r) = header ch)
      \/ ((snd r = SendWaiting \/ snd r = SendWoken)
          /\ header (fst r) = Atomics.add (header ch) 5 1
          /\ dataView (fst r) = dataView ch)).
Proof.
  unfold tryWrite.
  destruct ((bufferSize ch =? 0) || JS.ge _ _).
  - cbn [fst snd bufferSize elementSize dataView header with_header].
    repeat split.
    right. right. split; [apply waitForSpace_not_settled|]. split; reflexivity.
  - destruct (serializer data) as [serialized|].
    + destruct (DataView.setUint32 _ _ _) as [dv1|] eqn:Hset.
      * assert (Hlen1 : length dv1 = length (dataView ch)).
        { unfold DataView.setUint32 in Hset.
          destruct (JS.ToIndex _); [|discriminate].
          destruct (_ <=? _); [|discriminate].
          injection Hset as <-. now rewrite !length_update. }
        assert (Hlen2 : forall bs dv i,
                   length (fst (write_bytes dv
                                  (JS.mul (JS.rem (Atomics.load (header ch) 1)
                                             (bufferSize ch)) (elementSize ch))
                                  i bs)) = length dv).
        { induction bs as [|b bs IH]; intros dv i; cbn [write_bytes];
            [reflexivity|].
          destruct (DataView.setUint8 _ _ _) as [dv'|] eqn:H8; [|reflexivity].
          rewrite IH. unfold DataView.setUint8 in H8.
          destruct (JS.ToIndex _); [|discriminate].
          destruct (_ <=? _); [|discriminate].
          injection H8 as <-. apply length_update. }
        specialize (Hlen2 serialized dv1 0).
        destruct (write_bytes _ _ _ _) as [dv2 [|]];
          cbn [fst snd bufferSize elementSize dataView header with_header
                 with_dataView] in *;
          repeat split; try congruence.
        -- left. split; reflexivity.
        -- right. left. split; [eexists; reflexivity|reflexivity].
      * cbn [fst snd]. repeat split.
        right. left. split; [eexists; reflexivity|reflexivity].
    + cbn [fst snd]. repeat split.
      right. left. split; [eexists; reflexivity|reflexivity].
Qed.

(** The three things [tryRead] can do: consume (read index advanced by
    one), fail (nothing changed), or park (one more waiting receiver);
    it never writes the storage. *)
Lemma tryRead_effect {T : Type}
  (deserializer : list Z -> option T) (ch : SharedChannel) :
  let r := tryRead deserializer ch in
  bufferSize (fst r) = bufferSize ch
  /\ elementSize (fst r) = elementSize ch
  /\ dataView (fst r) = dataView ch
  /\ (((exists v, snd r = RecvSettled (Resolved v))
       /\ h_writeIndex (header ch) <> h_readIndex (header ch)
       /\ header (fst r)
          = Atomics.store (header ch) 2 (h_readIndex (header ch) + 1))
      \/ ((exists e, snd r = RecvSettled (Rejected e)) /\ fst r = ch)
      \/ (snd r = RecvWaiting
          /\ h_writeIndex (header ch) = h_readIndex (header ch)
          /\ header (fst r) = Atomics.add (header ch) 6 1)).
Proof.
  unfold tryRead.
  change (Atomics.load (header ch) 1) with (h_writeIndex (header ch)).
  change (Atomics.load (header ch) 2) with (h_readIndex (header ch)).
  change (Atomics.load (header ch) 3) with (h_closed (header ch)).
  destruct (Z.eqb_spec (h_writeIndex (header ch)) (h_readIndex (header ch)))
    as [Hwr|Hwr].
  - destruct (Z.eqb_spec (h_closed (header ch)) 1) as [Hc|Hc].
    + cbn [fst snd]. repeat split.
      right. left. split; [eexists; reflexivity|reflexivity].
    + cbn [fst snd bufferSize elementSize dataView header with_header].
      repeat split. right. right.
      split; [|split; [exact Hwr|reflexivity]].
      unfold waitForData.
      change (Atomics.load (header (with_header ch (Atomics.add (header ch) 6 1))) 1)
        with (h_writeIndex (header ch)).
      change (Atomics.load (header (with_header ch (Atomics.add (header ch) 6 1))) 2)
        with (h_readIndex (header ch)).
      change (Atomics.load (header (with_header ch (Atomics.add (header ch) 6 1))) 3)
        with (h_closed (header ch)).
      rewrite Hwr, Z.eqb_refl.
      destruct (Z.eqb_spec (h_closed (header ch)) 1); [contradiction|].
      reflexivity.
  - destruct (DataView.getUint32 _ _) as [dataLength|];
      [|cbn [fst snd]; repeat split; right; left;
        split; [eexists; reflexivity|reflexivity]].
    destruct (read_bytes _ _ _ _) as [dataBuffer|];
      [|cbn [fst snd]; repeat split; right; left;
        split; [eexists; reflexivity|reflexivity]].
    destruct (deserializer dataBuffer) as [v|];
      [|cbn [fst snd]; repeat split; right; left;
        split; [eexists; reflexivity|reflexivity]].
    cbn [fst snd bufferSize elementSize dataView header with_header].
    repeat split. left.
    split; [eexists; reflexivity|split; [exact Hwr|reflexivity]].
Qed.

(** ** What a committed send leaves in the slot *)

Lemma setUint32_written (dv dv1 : DataView.t) (i v : Z) :
  DataView.setUint32 dv (Some i) v = Some dv1 ->
  forall k : nat,
    (k < Z.to_nat i)%nat \/ (Z.to_nat i + 4 <= k)%nat ->
    nth k dv1 0 = nth k dv 0.
Proof.
  intros Hset k Hk. unfold DataView.setUint32, JS.ToIndex in Hset.
  destruct (i <? 0); [discriminate|].
  destruct (_ <=? _); [|discriminate].
  injection Hset as <-.
  rewrite !nth_update_neq by lia. reflexivity.
Qed.

(** A payload that fits is committed; the slot then holds its length and
    its bytes, and every byte outside [offset, offset + 4 + L) is as
    before. *)
Lemma send_commits_readable {T : Type}
  (serializer : T -> option (list Z)) (ch : SharedChannel) (data : T)
  (serialized : list Z) :
  h_closed (header ch) <> 1 ->
  1 <= bufferSize ch ->
  0 <= elementSize ch ->
  0 <= h_writeIndex (header ch) ->
  serializer data = Some serialized ->
  Forall (fun b => 0 <= b < 256) serialized ->
  Z.of_nat (length serialized) < 2 ^ 32 ->
  let offset := (h_writeIndex (header ch) mod bufferSize ch) * elementSize ch in
  offset + 4 + Z.of_nat (length serialized)
  <= DataView.byteLength (dataView ch) ->
  exists dv2,
    send serializer ch data
    = (with_header (with_dataView ch dv2)
         (Atomics.store (header ch) 1 (h_writeIndex (header ch) + 1)),
       SendSettled (Resolved tt))
    /\ length dv2 = length (dataView ch)
    /\ DataView.getUint32 dv2 (Some offset)
       = Some (Z.of_nat (length serialized))
    /\ firstn (length serialized) (skipn (Z.to_nat (offset + 4)) dv2)
       = serialized
    /\ forall k : nat,
        (k < Z.to_nat offset)%nat
        \/ (Z.to_nat offset + 4 + length serialized <= k)%nat ->
        nth k dv2 0 = nth k (dataView ch) 0.
Proof.
  intros Hopen Hcap Hes Hw Hser Hbytes HL offset Hfit.
  assert (Hoff : 0 <= offset).
  { unfold offset. apply Z.mul_nonneg_nonneg; [|exact Hes].
    apply Z.mod_pos_bound. lia. }
  pose proof (send_open_buffered serializer ch data serialized
                Hopen Hcap Hw Hser) as Hsend.
  cbv zeta in Hsend. fold offset in Hsend.
  destruct (setUint32_in_range (dataView ch) offset
              (Z.of_nat (length serialized)) Hoff ltac:(lia))
    as (dv1 & Hset & Hlen1).
  rewrite Hset in Hsend.
  destruct (write_bytes_fits serialized dv1 offset 0 ltac:(lia)
              ltac:(unfold DataView.byteLength in *; rewrite Hlen1; lia))
    as (dv2 & Hwrite & Hlen2).
  rewrite Hwrite in Hsend.
  destruct (write_bytes_written serialized dv1 dv2 offset 0 ltac:(lia) Hwrite)
    as (_ & Hin & Hout).
  rewrite Z.add_0_r in Hin, Hout.
  exists dv2. split; [exact Hsend|]. split; [congruence|]. split; [|split].
  - apply (getUint32_after_setUint32 (dataView ch) dv1 dv2); auto.
    + lia.
    + intros k Hk. apply Hout. left. lia.
  - apply (nth_ext _ _ 0 0).
    + rewrite length_firstn, length_skipn.
      unfold DataView.byteLength in *. lia.
    + intros j Hj. rewrite length_firstn, length_skipn in Hj.
      rewrite nth_firstn.
      destruct (Nat.ltb_spec j (length serialized)); [|lia].
      rewrite nth_skipn, Hin by lia.
      rewrite Z.mod_small; [reflexivity|].
      rewrite Forall_forall in Hbytes. apply Hbytes. now apply nth_In.
  - intros k Hk.
    rewrite Hout by lia.
    apply (setUint32_written _ _ _ _ Hset). lia.
Qed.

Lemma send_receive_round_trip_witness :
  exists ch1 ch2,
    send Json.serializer
      (mkChannel (mkHeader 2 0 0 0 8 0 0) (repeat 0 16%nat) 2 8)
      (Json.VNumber 42)
    = (ch1, SendSettled (Resolved tt))
    /\ receive Json.deserializer ch1
       = (ch2, RecvSettled (Resolved (Json.VNumber 42)))
    /\ h_writeIndex (header ch2) = 0 + 1
    /\ h_readIndex (header ch2) = 0 + 1.
Proof.
  apply (send_receive_round_trip Json.serializer Json.deserializer
           (mkChannel (mkHeader 2 0 0 0 8 0 0) (repeat 0 16%nat) 2 8)
           (Json.VNumber 42) (Json.VNumber 42) [52; 50]).
  - reflexivity.
  - cbn; lia.
  - cbn; lia.
  - cbn; lia.
  - reflexivity.
  - reflexivity.
  - repeat constructor; lia.
  - cbn; lia.
  - cbn; lia.
  - reflexivity.
Defined.

(** On an open channel ([closed = 0]) of capacity at least one and slot
    size at least 0, full with [0 <= read_index] and
    [write_index = read_index + capacity < 2^31 - 1]: when the
    serializer yields bytes (each in 0..255) of length [L < 2^32] with
    [(write_index mod capacity) * slot_size + 4 + L] within the storage,
    and the deserializer accepts those bytes, the send is committed into
    the slot of the oldest unread value: the occupancy becomes
    [capacity + 1] and the next receive returns the value just sent, not
    the oldest one. *)
Theorem send_on_full_buffer_overwrites_oldest {T : Type}
  (serializer : T -> option (list Z)) (deserializer : list Z -> option T)
  (ch : SharedChannel) (data v : T) (serialized : list Z) :
  h_closed (header ch) = 0 ->
  1 <= bufferSize ch ->
  0 <= elementSize ch ->
  0 <= h_readIndex (header ch) ->
  h_writeIndex (header ch) = h_readIndex (header ch) + bufferSize ch ->
  h_writeIndex (header ch) < 2 ^ 31 - 1 ->
  serializer data = Some serialized ->
  Forall (fun b => 0 <= b < 256) serialized ->
  Z.of_nat (length serialized) < 2 ^ 32 ->
  (h_writeIndex (header ch) mod bufferSize ch) * elementSize ch + 4
  + Z.of_nat (length serialized) <= DataView.byteLength (dataView ch) ->
  deserializer serialized = Some v ->
  exists ch1 ch2,
    send serializer ch data = (ch1, SendSettled (Resolved tt))
    /\ h_writeIndex (header ch1) - h_readIndex (header ch1)
       = bufferSize ch + 1
    /\ receive deserializer ch1 = (ch2, RecvSettled (Resolved v)).
Proof.
  intros Hopen Hcap Hes Hr Hfull Hw Hser Hbytes HL Hfit Hdes.
  destruct (send_commits_readable serializer ch data serialized
              ltac:(lia) Hcap Hes ltac:(lia) Hser Hbytes HL Hfit)
    as (dv2 & Hsend & Hlen & Hget & Hpay & _).
  assert (Hslot : h_readIndex (header ch) mod bufferSize ch
                  = h_writeIndex (header ch) mod bufferSize ch).
  { rewrite Hfull.
    rewrite <- (Z.mod_add (h_readIndex (header ch)) 1 (bufferSize ch)) by lia.
    f_equal. lia. }
  assert (Hw1 : JS.ToInt32 (h_writeIndex (header ch) + 1)
                = h_writeIndex (header ch) + 1)
    by (apply ToInt32_small; lia).
  eexists. eexists. split; [exact Hsend|]. split.
  - cbn -[JS.ToInt32 Z.pow]. rewrite Hw1. lia.
  - erewrite (receive_committed deserializer _
                (Z.of_nat (length serialized)) v).
    + reflexivity.
    + exact Hcap.
    + exact Hes.
    + cbn -[JS.ToInt32 Z.pow]. exact Hr.
    + cbn -[JS.ToInt32 Z.pow]. rewrite Hw1. lia.
    + cbn -[JS.ToInt32 Z.pow]. rewrite Hslot. exact Hget.
    + cbn -[JS.ToInt32 Z.pow]. rewrite Hslot.
      unfold DataView.byteLength in *. rewrite Hlen. exact Hfit.
    + cbn -[JS.ToInt32 Z.pow]. rewrite Hslot, Nat2Z.id, Hpay. exact Hdes.
Qed.

Lemma send_on_full_buffer_overwrites_oldest_witness :
  exists ch1 ch2,
    send Json.serializer
      (mkChannel (mkHeader 1 1 0 0 8 0 0) [1; 0; 0; 0; 55; 0; 0; 0] 1 8)
      (Json.VNumber 9)
    = (ch1, SendSettled (Resolved tt))
    /\ h_writeIndex (header ch1) - h_readIndex (header ch1) = 1 + 1
    /\ receive Json.deserializer ch1
       = (ch2, RecvSettled (Resolved (Json.VNumber 9))).
Proof.
  apply (send_on_full_buffer_overwrites_oldest
           Json.serializer Json.deserializer
           (mkChannel (mkHeader 1 1 0 0 8 0 0) [1; 0; 0; 0; 55; 0; 0; 0] 1 8)
           (Json.VNumber 9) (Json.VNumber 9) [57]).
  - reflexivity.
  - cbn; lia.
  - cbn; lia.
  - cbn; lia.
  - reflexivity.
  - cbn; lia.
  - reflexivity.
  - repeat constructor; lia.
  - cbn; lia.
  - cbn; lia.
  - reflexivity.
Defined.

(** ** First in, first out *)

Lemma getUint32_ext (dv dv' : DataView.t) (i : Z) :
  length dv' = length dv ->
  (forall k : nat,
      (Z.to_nat i <= k < Z.to_nat i + 4)%nat -> nth k dv' 0 = nth k dv 0) ->
  DataView.getUint32 dv' (Some i) = DataView.getUint32 dv (Some i).
Proof.
  intros Hlen Hsame. unfold DataView.getUint32, DataView.byteLength, JS.ToIndex.
  rewrite Hlen. destruct (i <? 0); [reflexivity|].
  destruct (_ <=? _); [|reflexivity].
  rewrite !Hsame by lia. reflexivity.
Qed.

Lemma payload_ext (dv dv' : DataView.t) (p n : nat) :
  length dv' = length dv ->
  (forall k : nat, (p <= k < p + n)%nat -> nth k dv' 0 = nth k dv 0) ->
  firstn n (skipn p dv') = firstn n (skipn p dv).
Proof.
  intros Hlen Hsame. apply (nth_ext _ _ 0 0).
  - rewrite !length_firstn, !length_skipn. lia.
  - intros j Hj. rewrite length_firstn in Hj.
    rewrite !nth_firstn.
    destruct (Nat.ltb_spec j n); [|reflexivity].
    rewrite !nth_skipn. apply Hsame. lia.
Qed.

Lemma consecutive_slots_differ (w capacity : Z) :
  2 <= capacity -> (w + 1) mod capacity <> w mod capacity.
Proof.
  intros Hcap Heq.
  pose proof (Z.div_mod w capacity ltac:(lia)) as H0.
  pose proof (Z.div_mod (w + 1) capacity ltac:(lia)) as H1.
  rewrite Heq in H1.
  assert (Hk : capacity * ((w + 1) / capacity - w / capacity) = 1) by lia.
  assert (Hpos : 0 < (w + 1) / capacity - w / capacity) by nia.
  nia.
Qed.

(** On an open channel ([closed = 0]) of capacity at least two, empty
    with [0 <= write_index = read_index < 2^31 - 2], whose storage is
    exactly [capacity * slot_size] bytes with [slot_size < 2^32]: two
    values whose serialised bytes (each in 0..255) fit their slot
    ([4 + length <= slot_size]) and are accepted by the deserializer are
    both committed, and two receives return them in the order they were
    sent, leaving the channel empty. *)
Theorem two_sends_are_received_in_order {T : Type}
  (serializer : T -> option (list Z)) (deserializer : list Z -> option T)
  (ch : SharedChannel) (a b va vb : T) (sa sb : list Z) :
  h_closed (header ch) = 0 ->
  2 <= bufferSize ch ->
  0 <= h_writeIndex (header ch) < 2 ^ 31 - 2 ->
  h_readIndex (header ch) = h_writeIndex (header ch) ->
  DataView.byteLength (dataView ch) = bufferSize ch * elementSize ch ->
  elementSize ch < 2 ^ 32 ->
  serializer a = Some sa ->
  serializer b = Some sb ->
  Forall (fun x => 0 <= x < 256) sa ->
  Forall (fun x => 0 <= x < 256) sb ->
  4 + Z.of_nat (length sa) <= elementSize ch ->
  4 + Z.of_nat (length sb) <= elementSize ch ->
  deserializer sa = Some va ->
  deserializer sb = Some vb ->
  exists ch1 ch2 ch3 ch4,
    send serializer ch a = (ch1, SendSettled (Resolved tt))
    /\ send serializer ch1 b = (ch2, SendSettled (Resolved tt))
    /\ receive deserializer ch2 = (ch3, RecvSettled (Resolved va))
    /\ receive deserializer ch3 = (ch4, RecvSettled (Resolved vb))
    /\ h_readIndex (header ch4) = h_writeIndex (header ch4).
Proof.
  intros Hopen Hcap Hw Hr Hlen Hes32 Hsa Hsb Hba Hbb Hfa Hfb Hda Hdb.
  set (w := h_writeIndex (header ch)) in *.
  set (cap := bufferSize ch) in *.
  set (es := elementSize ch) in *.
  assert (Hes : 0 <= es) by lia.
  pose proof (Z.mod_pos_bound w cap ltac:(lia)) as Hs0.
  pose proof (Z.mod_pos_bound (w + 1) cap ltac:(lia)) as Hs1.
  pose proof (consecutive_slots_differ w cap Hcap) as Hdiff.
  set (s0 := w mod cap) in *. set (s1 := (w + 1) mod cap) in *.
  assert (Hin0 : s0 * es + es <= cap * es) by nia.
  assert (Hin1 : s1 * es + es <= cap * es) by nia.
  assert (Hoff0 : 0 <= s0 * es) by nia.
  assert (Hoff1 : 0 <= s1 * es) by nia.
  assert (Hapart : s0 * es + es <= s1 * es \/ s1 * es + es <= s0 * es) by nia.
  assert (Hw1 : JS.ToInt32 (w + 1) = w + 1) by (apply ToInt32_small; lia).
  assert (Hw2 : JS.ToInt32 (w + 1 + 1) = w + 2)
    by (rewrite ToInt32_small; lia).
  assert (Hr1 : JS.ToInt32 (w + 1) = w + 1) by exact Hw1.
  (* first send *)
  destruct (send_commits_readable serializer ch a sa
              ltac:(lia) ltac:(fold cap; lia) Hes ltac:(fold w; lia)
              Hsa Hba ltac:(lia)
              ltac:(fold w cap es s0; rewrite Hlen; lia))
    as (dva & Hsend1 & Hlena & Hgeta & Hpaya & _).
  fold w cap es s0 in Hsend1, Hgeta, Hpaya.
  set (ch1 := with_header (with_dataView ch dva)
                (Atomics.store (header ch) 1 (w + 1))) in *.
  (* second send *)
  destruct (send_commits_readable serializer ch1 b sb
              ltac:(cbn; lia) ltac:(cbn; fold cap; lia) Hes
              ltac:(cbn -[JS.ToInt32 Z.pow]; fold w; rewrite Hw1; lia)
              Hsb Hbb ltac:(lia)
              ltac:(cbn -[JS.ToInt32 Z.pow]; fold w cap es; rewrite Hw1;
                    fold s1; unfold DataView.byteLength in *;
                    rewrite Hlena, Hlen; lia))
    as (dvb & Hsend2 & Hlenb & Hgetb & Hpayb & Houtb).
  cbn -[JS.ToInt32 Z.pow] in Hsend2, Hlenb, Hgetb, Hpayb, Houtb.
  fold w cap es in Hsend2, Hgetb, Hpayb, Houtb.
  rewrite Hw1 in Hsend2, Hgetb, Hpayb, Houtb.
  fold s1 in Hgetb, Hpayb, Houtb.
  set (ch2 := with_header (with_dataView ch1 dvb)
                (Atomics.store (header ch1) 1 (w + 1 + 1))) in *.
  (* first receive: slot s0 is untouched by the second send *)
  assert (Hget0 : DataView.getUint32 dvb (Some (s0 * es))
                  = Some (Z.of_nat (length sa))).
  { rewrite <- Hgeta. apply getUint32_ext; [exact Hlenb|].
    intros k Hk. apply Houtb. lia. }
  assert (Hpay0 : firstn (length sa) (skipn (Z.to_nat (s0 * es + 4)) dvb) = sa).
  { rewrite <- Hpaya at 2. apply payload_ext; [exact Hlenb|].
    intros k Hk. apply Houtb. lia. }
  set (ch3 := with_header ch2
                (Atomics.store (header ch2) 2 (h_readIndex (header ch2) + 1))).
  assert (Hrecv1 : receive deserializer ch2 = (ch3, RecvSettled (Resolved va))).
  { apply (receive_committed deserializer ch2 (Z.of_nat (length sa)) va).
    - cbn. fold cap. lia.
    - exact Hes.
    - cbn -[JS.ToInt32 Z.pow]. rewrite Hr. fold w. lia.
    - cbn -[JS.ToInt32 Z.pow]. rewrite Hr, Hw2. fold w. lia.
    - cbn -[JS.ToInt32 Z.pow]. rewrite Hr. fold w cap es s0. exact Hget0.
    - cbn -[JS.ToInt32 Z.pow]. rewrite Hr. fold w cap es s0.
      unfold DataView.byteLength in *. rewrite Hlenb, Hlena, Hlen. lia.
    - cbn -[JS.ToInt32 Z.pow]. rewrite Hr. fold w cap es s0.
      rewrite Nat2Z.id, Hpay0. exact Hda. }
  (* second receive *)
  exists ch1, ch2, ch3. eexists.
  split; [exact Hsend1|]. split; [exact Hsend2|]. split; [exact Hrecv1|].
  assert (Hrecv2 :
    receive deserializer ch3
    = (with_header ch3
         (Atomics.store (header ch3) 2 (h_readIndex (header ch3) + 1)),
       RecvSettled (Resolved vb))).
  { apply (receive_committed deserializer ch3 (Z.of_nat (length sb)) vb).
    - cbn. fold cap. lia.
    - exact Hes.
    - cbn -[JS.ToInt32 Z.pow]. rewrite Hr. fold w. rewrite Hr1. lia.
    - cbn -[JS.ToInt32 Z.pow]. rewrite Hr. fold w. rewrite Hr1, Hw2. lia.
    - cbn -[JS.ToInt32 Z.pow]. rewrite Hr. fold w. rewrite Hr1.
      fold cap es s1. exact Hgetb.
    - cbn -[JS.ToInt32 Z.pow]. rewrite Hr. fold w. rewrite Hr1.
      fold cap es s1.
      unfold DataView.byteLength in *. rewrite Hlenb, Hlena, Hlen. lia.
    - cbn -[JS.ToInt32 Z.pow]. rewrite Hr. fold w. rewrite Hr1.
      fold cap es s1. rewrite Nat2Z.id, Hpayb. exact Hdb. }
  split; [exact Hrecv2|].
  cbn -[JS.ToInt32 Z.pow]. rewrite Hr. fold w. rewrite Hr1, Hw2.
  reflexivity.
Qed.

Lemma two_sends_are_received_in_order_witness :
  exists ch1 ch2 ch3 ch4,
    send Json.serializer
      (mkChannel (mkHeader 2 0 0 0 8 0 0) (repeat 0 16%nat) 2 8)
      (Json.VNumber 1)
    = (ch1, SendSettled (Resolved tt))
    /\ send Json.serializer ch1 (Json.VNumber 2)
       = (ch2, SendSettled (Resolved tt))
    /\ receive Json.deserializer ch2
       = (ch3, RecvSettled (Resolved (Json.VNumber 1)))
    /\ receive Json.deserializer ch3
       = (ch4, RecvSettled (Resolved (Json.VNumber 2)))
    /\ h_readIndex (header ch4) = h_writeIndex (header ch4).
Proof.
  apply (two_sends_are_received_in_order Json.serializer Json.deserializer
           (mkChannel (mkHeader 2 0 0 0 8 0 0) (repeat 0 16%nat) 2 8)
           (Json.VNumber 1) (Json.VNumber 2) (Json.VNumber 1) (Json.VNumber 2)
           [49] [50]).
  - reflexivity.
  - cbn; lia.
  - cbn; lia.
  - reflexivity.
  - reflexivity.
  - cbn; lia.
  - reflexivity.
  - reflexivity.
  - repeat constructor; lia.
  - repeat constructor; lia.
  - cbn; lia.
  - cbn; lia.
  - reflexivity.
  - reflexivity.
Defined.

(** ** Closing *)

(** The store of [close()] sets the closed word and leaves the indices
    and the storage alone; every [send] started afterwards rejects with
    the Closed error and changes nothing, and a [receive] on the closed,
    drained channel rejects with ClosedAndEmpty.  The ['close'] event
    that [close()] emits after the store is outside this statement. *)
Theorem close_stops_new_sends {T : Type}
  (serializer : T -> option (list Z)) (deserializer : list Z -> option T)
  (ch : SharedChannel) (data : T) :
  isClosed (close ch) = true
  /\ h_writeIndex (header (close ch)) = h_writeIndex (header ch)
  /\ h_readIndex (header (close ch)) = h_readIndex (header ch)
  /\ dataView (close ch) = dataView ch
  /\ hasData (close ch) = hasData ch
  /\ send serializer (close ch) data
     = (close ch, SendSettled (Rejected ClosedError))
  /\ (hasData ch = false ->
      receive deserializer (close ch)
      = (close ch, RecvSettled (Rejected ClosedAndEmptyError))).
Proof.
  repeat split; try reflexivity.
  intros Hempty. unfold hasData in Hempty. apply negb_false_iff in Hempty.
  unfold receive.
  change (Atomics.load (header (close ch)) 3 =? 1) with true.
  change (Atomics.load (header (close ch)) 1) with (Atomics.load (header ch) 1).
  change (Atomics.load (header (close ch)) 2) with (Atomics.load (header ch) 2).
  rewrite Hempty. reflexivity.
Qed.

Lemma close_stops_new_sends_witness :
  receive Json.deserializer
    (close (mkChannel (mkHeader 1 3 3 0 8 0 0) (repeat 0 8%nat) 1 8))
  = (close (mkChannel (mkHeader 1 3 3 0 8 0 0) (repeat 0 8%nat) 1 8),
     RecvSettled (Rejected ClosedAndEmptyError)).
Proof.
  apply (proj2 (proj2 (proj2 (proj2 (proj2 (proj2
           (close_stops_new_sends Json.serializer Json.deserializer
              (mkChannel (mkHeader 1 3 3 0 8 0 0) (repeat 0 8%nat) 1 8)
              Json.VUndefined))))))).
  reflexivity.
Defined.

(** Closing does not lose what is buffered: while a committed value is
    pending, [receive] on the closed channel does exactly what it would
    have done on the open one. *)
Theorem close_keeps_buffered_values {T : Type}
  (deserializer : list Z -> option T) (ch : SharedChannel) :
  hasData ch = true ->
  receive deserializer (close ch)
  = (close (fst (receive deserializer ch)), snd (receive deserializer ch)).
Proof.
  intros Hdata. unfold hasData in Hdata. apply negb_true_iff in Hdata.
  unfold receive.
  change (Atomics.load (header (close ch)) 1) with (Atomics.load (header ch) 1).
  change (Atomics.load (header (close ch)) 2) with (Atomics.load (header ch) 2).
  rewrite Hdata, !andb_false_r.
  unfold tryRead.
  change (Atomics.load (header (close ch)) 1) with (Atomics.load (header ch) 1).
  change (Atomics.load (header (close ch)) 2) with (Atomics.load (header ch) 2).
  rewrite Hdata.
  change (bufferSize (close ch)) with (bufferSize ch).
  change (elementSize (close ch)) with (elementSize ch).
  change (dataView (close ch)) with (dataView ch).
  destruct (DataView.getUint32 _ _) as [dataLength|]; [|reflexivity].
  destruct (read_bytes _ _ _ _) as [dataBuffer|]; [|reflexivity].
  destruct (deserializer dataBuffer) as [v|]; reflexivity.
Qed.

Lemma close_keeps_buffered_values_witness :
  receive Json.deserializer
    (close (mkChannel (mkHeader 1 1 0 0 8 0 0) [2; 0; 0; 0; 52; 50; 0; 0] 1 8))
  = (close (fst (receive Json.deserializer
                   (mkChannel (mkHeader 1 1 0 0 8 0 0)
                      [2; 0; 0; 0; 52; 50; 0; 0] 1 8))),
     snd (receive Json.deserializer
            (mkChannel (mkHeader 1 1 0 0 8 0 0)
               [2; 0; 0; 0; 52; 50; 0; 0] 1 8))).
Proof.
  apply (close_keeps_buffered_values Json.deserializer
           (mkChannel (mkHeader 1 1 0 0 8 0 0) [2; 0; 0; 0; 52; 50; 0; 0] 1 8)).
  reflexivity.
Defined.

(** ** Indices *)

Lemma tryWrite_indices {T : Type}
  (serializer : T -> option (list Z)) (ch : SharedChannel) (data : T) :
  0 <= h_readIndex (header ch) <= h_writeIndex (header ch) ->
  h_writeIndex (header ch) < 2 ^ 31 - 1 ->
  h_readIndex (header (fst (tryWrite serializer ch data)))
  = h_readIndex (header ch)
  /\ h_writeIndex (header ch)
     <= h_writeIndex (header (fst (tryWrite serializer ch data)))
     <= h_writeIndex (header ch) + 1.
Proof.
  intros Hrw Hw.
  destruct (tryWrite_effect serializer ch data)
    as (_ & _ & _ & [[_ ->] | [[_ ->] | [_ [-> _]]]]).
  - cbn -[JS.ToInt32 Z.pow]. rewrite ToInt32_small by lia. lia.
  - lia.
  - cbn -[JS.ToInt32 Z.pow]. lia.
Qed.

Lemma tryRead_indices {T : Type}
  (deserializer : list Z -> option T) (ch : SharedChannel) :
  0 <= h_readIndex (header ch) <= h_writeIndex (header ch) ->
  h_writeIndex (header ch) < 2 ^ 31 - 1 ->
  h_writeIndex (header (fst (tryRead deserializer ch)))
  = h_writeIndex (header ch)
  /\ h_readIndex (header ch)
     <= h_readIndex (header (fst (tryRead deserializer ch)))
     <= h_writeIndex (header ch)
  /\ h_readIndex (header (fst (tryRead deserializer ch)))
     <= h_readIndex (header ch) + 1.
Proof.
  intros Hrw Hw.
  destruct (tryRead_effect deserializer ch)
    as (_ & _ & _ & [[_ [Hne ->]] | [[_ ->] | [_ [_ ->]]]]).
  - cbn -[JS.ToInt32 Z.pow]. rewrite ToInt32_small by lia. lia.
  - lia.
  - cbn -[JS.ToInt32 Z.pow]. lia.
Qed.

(** Below the 32-bit wrap-around, no step of a [send] or a [receive]
    (first attempt or retry) moves an index backwards or by more than
    one, a send never touches the read index nor a receive the write
    index, and the read index never passes the write index. *)
Theorem indices_stay_ordered {T : Type}
  (serializer : T -> option (list Z)) (deserializer : list Z -> option T)
  (ch : SharedChannel) (data : T) (ss : send_state) (rs : recv_state T) :
  0 <= h_readIndex (header ch) <= h_writeIndex (header ch) ->
  h_writeIndex (header ch) < 2 ^ 31 - 1 ->
  let r := h_readIndex (header ch) in
  let w := h_writeIndex (header ch) in
  (forall ch',
      ch' = fst (send serializer ch data)
      \/ ch' = fst (send_step serializer ch data ss) ->
      h_readIndex (header ch') = r
      /\ w <= h_writeIndex (header ch') <= w + 1)
  /\ (forall ch',
         ch' = fst (receive deserializer ch)
         \/ ch' = fst (recv_step deserializer ch rs) ->
         h_writeIndex (header ch') = w
         /\ r <= h_readIndex (header ch') <= w
         /\ h_readIndex (header ch') <= r + 1).
Proof.
  intros Hrw Hw r w. split.
  - intros ch' [-> | ->].
    + unfold send. destruct (_ =? 1); [cbn [fst]; fold r w; lia|].
      now apply tryWrite_indices.
    + destruct ss; cbn [send_step fst]; try (fold r w; lia).
      apply (tryWrite_indices serializer
               (with_header ch (Atomics.sub (header ch) 5 1)) data);
        cbn -[JS.ToInt32 Z.pow]; assumption.
  - intros ch' [-> | ->].
    + unfold receive. destruct (_ && _); [cbn [fst]; fold r w; lia|].
      now apply tryRead_indices.
    + destruct rs; cbn [recv_step fst]; try (fold r w; lia).
      apply (tryRead_indices deserializer
               (with_header ch (Atomics.sub (header ch) 6 1)));
        cbn -[JS.ToInt32 Z.pow]; assumption.
Qed.

Lemma indices_stay_ordered_witness :
  (forall ch',
      ch' = fst (send Json.serializer
                   (mkChannel (mkHeader 2 1 0 0 8 0 0) (repeat 0 16%nat) 2 8)
                   (Json.VNumber 7))
      \/ ch' = fst (send_step Json.serializer
                      (mkChannel (mkHeader 2 1 0 0 8 0 0) (repeat 0 16%nat) 2 8)
                      (Json.VNumber 7) SendWoken) ->
      h_readIndex (header ch') = 0
      /\ 1 <= h_writeIndex (header ch') <= 1 + 1)
  /\ (forall ch',
         ch' = fst (receive Json.deserializer
                      (mkChannel (mkHeader 2 1 0 0 8 0 0) (repeat 0 16%nat) 2 8))
         \/ ch' = fst (recv_step Json.deserializer
                         (mkChannel (mkHeader 2 1 0 0 8 0 0)
                            (repeat 0 16%nat) 2 8) RecvWoken) ->
         h_writeIndex (header ch') = 1
         /\ 0 <= h_readIndex (header ch') <= 1
         /\ h_readIndex (header ch') <= 0 + 1).
Proof.
  apply (indices_stay_ordered Json.serializer Json.deserializer
           (mkChannel (mkHeader 2 1 0 0 8 0 0) (repeat 0 16%nat) 2 8)
           (Json.VNumber 7) SendWoken RecvWoken).
  - cbn; lia.
  - cbn; lia.
Defined.


(** ** A parked receiver and a later send *)

Lemma receive_with_data_is_tryRead {T : Type}
  (deserializer : list Z -> option T) (ch : SharedChannel) :
  h_writeIndex (header ch) <> h_readIndex (header ch) ->
  receive deserializer ch = tryRead deserializer ch.
Proof.
  intros Hne. unfold receive.
  change (Atomics.load (header ch) 1) with (h_writeIndex (header ch)).
  change (Atomics.load (header ch) 2) with (h_readIndex (header ch)).
  destruct (Z.eqb_spec (h_writeIndex (header ch)) (h_readIndex (header ch)));
    [contradiction|].
  now rewrite andb_false_r.
Qed.

(** On an open channel ([closed = 0]) of capacity at least one and slot
    size at least 0, empty with [0 <= write_index = read_index < 2^31 - 1]
    and [-2^31 <= waiting_receivers < 2^31 - 1]: a [receive] parks and
    counts itself in [waiting_receivers]; once a send has committed a
    value (bytes in 0..255, length [L < 2^32],
    [(write_index mod capacity) * slot_size + 4 + L] within the storage,
    accepted by the deserializer), the receiver's next check wakes it,
    and its retry returns that value, un-counts itself and leaves the
    channel empty with [write_index] one more than before. *)
Theorem parked_receiver_gets_next_send {T : Type}
  (serializer : T -> option (list Z)) (deserializer : list Z -> option T)
  (ch : SharedChannel) (data v : T) (serialized : list Z) :
  h_closed (header ch) = 0 ->
  1 <= bufferSize ch ->
  0 <= elementSize ch ->
  0 <= h_writeIndex (header ch) < 2 ^ 31 - 1 ->
  h_readIndex (header ch) = h_writeIndex (header ch) ->
  - 2 ^ 31 <= h_waitingReceivers (header ch) < 2 ^ 31 - 1 ->
  serializer data = Some serialized ->
  Forall (fun b => 0 <= b < 256) serialized ->
  Z.of_nat (length serialized) < 2 ^ 32 ->
  (h_writeIndex (header ch) mod bufferSize ch) * elementSize ch + 4
  + Z.of_nat (length serialized) <= DataView.byteLength (dataView ch) ->
  deserializer serialized = Some v ->
  exists parked sent final,
    receive deserializer ch = (parked, RecvWaiting)
    /\ h_waitingReceivers (header parked)
       = h_waitingReceivers (header ch) + 1
    /\ send serializer parked data = (sent, SendSettled (Resolved tt))
    /\ recv_step deserializer sent RecvWaiting = (sent, RecvWoken)
    /\ recv_step deserializer sent RecvWoken
       = (final, RecvSettled (Resolved v))
    /\ h_waitingReceivers (header final) = h_waitingReceivers (header ch)
    /\ h_readIndex (header final) = h_writeIndex (header final)
    /\ h_writeIndex (header final) = h_writeIndex (header ch) + 1.
Proof.
  intros Hopen Hcap Hes Hw Hr Hwr Hser Hbytes HL Hfit Hdes.
  set (parked := with_header ch (Atomics.add (header ch) 6 1)).
  assert (Hpark : receive deserializer ch = (parked, RecvWaiting)).
  { unfold receive, tryRead.
    change (Atomics.load (header ch) 1) with (h_writeIndex (header ch)).
    change (Atomics.load (header ch) 2) with (h_readIndex (header ch)).
    change (Atomics.load (header ch) 3) with (h_closed (header ch)).
    rewrite Hopen, Hr, Z.eqb_refl. cbn [Z.eqb andb].
    fold parked. f_equal.
    apply waitForData_empty_open; cbn -[JS.ToInt32 Z.pow]; congruence. }
  destruct (send_commits_readable serializer parked data serialized
              ltac:(cbn -[JS.ToInt32 Z.pow]; lia) Hcap Hes
              ltac:(cbn -[JS.ToInt32 Z.pow]; lia) Hser Hbytes HL Hfit)
    as (dv2 & Hsend & Hlen & Hget & Hpay & _).
  cbn -[JS.ToInt32 Z.pow] in Hget, Hpay, Hlen.
  set (sent := with_header (with_dataView parked dv2)
                 (Atomics.store (header parked) 1
                    (h_writeIndex (header parked) + 1))) in *.
  assert (Hw1 : JS.ToInt32 (h_writeIndex (header ch) + 1)
                = h_writeIndex (header ch) + 1)
    by (apply ToInt32_small; lia).
  assert (Hwr1 : JS.ToInt32 (h_waitingReceivers (header ch) + 1)
                 = h_waitingReceivers (header ch) + 1)
    by (apply ToInt32_small; lia).
  set (woken := with_header sent (Atomics.sub (header sent) 6 1)).
  assert (Hrecv :
    receive deserializer woken
    = (with_header woken
         (Atomics.store (header woken) 2 (h_readIndex (header woken) + 1)),
       RecvSettled (Resolved v))).
  { apply (receive_committed deserializer woken
             (Z.of_nat (length serialized)) v).
    - exact Hcap.
    - exact Hes.
    - cbn -[JS.ToInt32 Z.pow]. lia.
    - cbn -[JS.ToInt32 Z.pow]. rewrite Hw1. lia.
    - cbn -[JS.ToInt32 Z.pow]. rewrite Hr. exact Hget.
    - cbn -[JS.ToInt32 Z.pow]. rewrite Hr.
      unfold DataView.byteLength in *. rewrite Hlen. exact Hfit.
    - cbn -[JS.ToInt32 Z.pow]. rewrite Hr, Nat2Z.id, Hpay. exact Hdes. }
  rewrite receive_with_data_is_tryRead in Hrecv
    by (cbn -[JS.ToInt32 Z.pow]; rewrite Hw1; lia).
  exists parked, sent. eexists.
  split; [exact Hpark|].
  split; [exact Hwr1|].
  split; [exact Hsend|].
  split.
  { cbn [recv_step]. f_equal. unfold waitForData.
    change (Atomics.load (header sent) 1)
      with (JS.ToInt32 (h_writeIndex (header ch) + 1)).
    change (Atomics.load (header sent) 2) with (h_readIndex (header ch)).
    rewrite Hw1, Hr.
    destruct (Z.eqb_spec (h_writeIndex (header ch) + 1)
                (h_writeIndex (header ch))); [lia|reflexivity]. }
  split; [cbn [recv_step]; fold woken; exact Hrecv|].
  change (JS.ToInt32 (JS.ToInt32 (h_waitingReceivers (header ch) + 1) - 1)
          = h_waitingReceivers (header ch)
          /\ JS.ToInt32 (h_readIndex (header ch) + 1)
             = JS.ToInt32 (h_writeIndex (header ch) + 1)
          /\ JS.ToInt32 (h_writeIndex (header ch) + 1)
             = h_writeIndex (header ch) + 1).
  rewrite Hwr1, Hw1, Hr.
  rewrite !ToInt32_small by lia.
  repeat split; lia.
Qed.

Lemma parked_receiver_gets_next_send_witness :
  exists parked sent final,
    receive Json.deserializer
      (mkChannel (mkHeader 1 0 0 0 8 0 0) (repeat 0 8%nat) 1 8)
    = (parked, RecvWaiting)
    /\ h_waitingReceivers (header parked) = 0 + 1
    /\ send Json.serializer parked (Json.VNumber 42)
       = (sent, SendSettled (Resolved tt))
    /\ recv_step Json.deserializer sent RecvWaiting = (sent, RecvWoken)
    /\ recv_step Json.deserializer sent RecvWoken
       = (final, RecvSettled (Resolved (Json.VNumber 42)))
    /\ h_waitingReceivers (header final) = 0
    /\ h_readIndex (header final) = h_writeIndex (header final)
    /\ h_writeIndex (header final) = 0 + 1.
Proof.
  apply (parked_receiver_gets_next_send Json.serializer Json.deserializer
           (mkChannel (mkHeader 1 0 0 0 8 0 0) (repeat 0 8%nat) 1 8)
           (Json.VNumber 42) (Json.VNumber 42) [52; 50]).
  - reflexivity.
  - cbn; lia.
  - cbn; lia.
  - cbn; lia.
  - reflexivity.
  - cbn; lia.
  - reflexivity.
  - repeat constructor; lia.
  - cbn; lia.
  - cbn; lia.
  - reflexivity.
Defined.

(** ** Draining a closed channel *)

(** Iterating a closed channel always ends: with more fuel than there
    are unread values the traversal returns (it neither parks nor runs
    out of fuel), it has consumed exactly as many slots as it yielded
    values, and it never reads past the write index. *)
Theorem asyncIterator_drains_closed_channel {T : Type}
  (deserializer : list Z -> option T) (fuel : nat) :
  forall ch : SharedChannel,
    h_closed (header ch) = 1 ->
    0 <= h_readIndex (header ch) <= h_writeIndex (header ch) ->
    h_writeIndex (header ch) < 2 ^ 31 - 1 ->
    (Z.to_nat (h_writeIndex (header ch) - h_readIndex (header ch)) < fuel)%nat ->
    let r := asyncIterator deserializer fuel ch in
    snd r = IterReturned
    /\ Z.of_nat (length (snd (fst r)))
       = h_readIndex (header (fst (fst r))) - h_readIndex (header ch)
    /\ h_readIndex (header (fst (fst r))) <= h_writeIndex (header ch)
    /\ h_writeIndex (header (fst (fst r))) = h_writeIndex (header ch).
Proof.
  induction fuel as [|fuel IH]; intros ch Hclosed Hrw Hw Hfuel; [lia|].
  cbn [asyncIterator].
  unfold isClosed, hasData.
  change (Atomics.load (header ch) 1) with (h_writeIndex (header ch)).
  change (Atomics.load (header ch) 2) with (h_readIndex (header ch)).
  change (Atomics.load (header ch) 3) with (h_closed (header ch)).
  rewrite Hclosed. cbn [Z.eqb Pos.eqb negb orb].
  destruct (Z.eqb_spec (h_writeIndex (header ch)) (h_readIndex (header ch)))
    as [Heq|Hne]; cbn [negb].
  - cbn [fst snd length]. repeat split; lia.
  - rewrite receive_with_data_is_tryRead by exact Hne.
    pose proof (tryRead_effect deserializer ch) as Heff. cbv zeta in Heff.
    destruct (tryRead deserializer ch) as [ch1 st] eqn:Htry.
    cbn [fst snd] in Heff.
    destruct Heff as (_ & _ & _ & [[[v ->] [_ Hh]] | [[[e ->] ->] | [_ [Heq _]]]]).
    + assert (Hr1 : h_readIndex (header ch1) = h_readIndex (header ch) + 1).
      { rewrite Hh. cbn -[JS.ToInt32 Z.pow]. apply ToInt32_small. lia. }
      assert (Hw1 : h_writeIndex (header ch1) = h_writeIndex (header ch))
        by (rewrite Hh; reflexivity).
      assert (Hc1 : h_closed (header ch1) = 1)
        by (rewrite Hh; exact Hclosed).
      specialize (IH ch1 Hc1 ltac:(lia) ltac:(lia) ltac:(lia)).
      cbv zeta in IH.
      destruct (asyncIterator deserializer fuel ch1) as [[ch2 vs] en].
      cbn [fst snd length] in *.
      destruct IH as (He & Hlen & Hle & Hwr).
      repeat split; try assumption; lia.
    + cbn [fst snd length]. repeat split; lia.
    + congruence.
Qed.

Lemma asyncIterator_drains_closed_channel_witness :
  snd (asyncIterator Json.deserializer 2
         (mkChannel (mkHeader 1 1 0 1 8 0 0) [2; 0; 0; 0; 52; 50; 0; 0] 1 8))
  = IterReturned
  /\ Z.of_nat (length (snd (fst (asyncIterator Json.deserializer 2
         (mkChannel (mkHeader 1 1 0 1 8 0 0) [2; 0; 0; 0; 52; 50; 0; 0] 1 8)))))
     = h_readIndex (header (fst (fst (asyncIterator Json.deserializer 2
         (mkChannel (mkHeader 1 1 0 1 8 0 0) [2; 0; 0; 0; 52; 50; 0; 0] 1 8)))))
       - 0
  /\ h_readIndex (header (fst (fst (asyncIterator Json.deserializer 2
         (mkChannel (mkHeader 1 1 0 1 8 0 0) [2; 0; 0; 0; 52; 50; 0; 0] 1 8)))))
     <= 1
  /\ h_writeIndex (header (fst (fst (asyncIterator Json.deserializer 2
         (mkChannel (mkHeader 1 1 0 1 8 0 0) [2; 0; 0; 0; 52; 50; 0; 0] 1 8)))))
     = 1.
Proof.
  apply (asyncIterator_drains_closed_channel Json.deserializer 2
           (mkChannel (mkHeader 1 1 0 1 8 0 0) [2; 0; 0; 0; 52; 50; 0; 0] 1 8)).
  - reflexivity.
  - cbn; lia.
  - cbn; lia.
  - cbn; lia.
Defined.

(** ** The worker's view of a channel *)

Lemma sizes_agree_iff_same_view (ch : SharedChannel) :
  sizes_agree ch <-> fromSharedBuffer (getSharedBuffer ch) = ch.
Proof.
  unfold sizes_agree, fromSharedBuffer, getSharedBuffer.
  destruct ch as [h dv b e]. cbn [fst snd header dataView bufferSize elementSize].
  change (Atomics.load h 0) with (h_bufferSize h).
  change (Atomics.load h 4) with (h_elementSize h).
  split.
  - intros [-> ->]. reflexivity.
  - intros [= Hb He]. auto.
Qed.

Lemma tryWrite_sizes_agree {T : Type}
  (serializer : T -> option (list Z)) (ch : SharedChannel) (data : T) :
  sizes_agree ch -> sizes_agree (fst (tryWrite serializer ch data)).
Proof.
  intros [Hb He]. unfold sizes_agree.
  destruct (tryWrite_effect serializer ch data)
    as (-> & -> & _ & [[_ ->] | [[_ ->] | [_ [-> _]]]]); auto.
Qed.

Lemma tryRead_sizes_agree {T : Type}
  (deserializer : list Z -> option T) (ch : SharedChannel) :
  sizes_agree ch -> sizes_agree (fst (tryRead deserializer ch)).
Proof.
  intros [Hb He]. unfold sizes_agree.
  destruct (tryRead_effect deserializer ch)
    as (-> & -> & _ & [[_ [_ ->]] | [[_ ->] | [_ [_ ->]]]]); auto.
Qed.

(** A channel built by the constructor from sizes that fit 32 bits is the
    channel [fromSharedBuffer] rebuilds from its region, and it stays so
    after every step of [send], [receive] and [close]: host and workers
    compute with the same capacity and slot size. *)
Theorem fromSharedBuffer_rebuilds_the_channel {T : Type}
  (serializer : T -> option (list Z)) (deserializer : list Z -> option T)
  (maxByteLength capacity slot_size : Z) (ch0 : SharedChannel) :
  0 <= capacity < 2 ^ 31 ->
  0 <= slot_size < 2 ^ 31 ->
  new_SharedChannel maxByteLength capacity slot_size = Resolved ch0 ->
  fromSharedBuffer (getSharedBuffer ch0) = ch0
  /\ forall ch : SharedChannel,
      fromSharedBuffer (getSharedBuffer ch) = ch ->
      forall (data : T) (ss : send_state) (rs : recv_state T) (ch' : SharedChannel),
        ch' = fst (send serializer ch data)
        \/ ch' = fst (send_step serializer ch data ss)
        \/ ch' = fst (receive deserializer ch)
        \/ ch' = fst (recv_step deserializer ch rs)
        \/ ch' = close ch ->
        fromSharedBuffer (getSharedBuffer ch') = ch'.
Proof.
  intros Hc Hs Hnew. split.
  - apply sizes_agree_iff_same_view.
    unfold new_SharedChannel in Hnew.
    destruct (_ || _); [discriminate|].
    destruct (_ <? _); [discriminate|].
    injection Hnew as <-. unfold sizes_agree.
    cbn -[JS.ToInt32 Z.pow]. rewrite !ToInt32_small by lia. auto.
  - intros ch Hview data ss rs ch' Hstep.
    apply sizes_agree_iff_same_view in Hview.
    apply sizes_agree_iff_same_view.
    destruct Hstep as [-> | [-> | [-> | [-> | ->]]]].
    + unfold send. destruct (_ =? 1); [exact Hview|].
      now apply tryWrite_sizes_agree.
    + destruct ss; cbn [send_step fst]; try exact Hview.
      apply tryWrite_sizes_agree. exact Hview.
    + unfold receive. destruct (_ && _); [exact Hview|].
      now apply tryRead_sizes_agree.
    + destruct rs; cbn [recv_step fst]; try exact Hview.
      apply tryRead_sizes_agree. exact Hview.
    + exact Hview.
Qed.

Lemma fromSharedBuffer_rebuilds_the_channel_witness :
  fromSharedBuffer
    (getSharedBuffer (mkChannel (mkHeader 1 0 0 0 8 0 0) (repeat 0 8%nat) 1 8))
  = mkChannel (mkHeader 1 0 0 0 8 0 0) (repeat 0 8%nat) 1 8.
Proof.
  apply (proj1 (fromSharedBuffer_rebuilds_the_channel
                  Json.serializer Json.deserializer (2 ^ 32) 1 8
                  (mkChannel (mkHeader 1 0 0 0 8 0 0) (repeat 0 8%nat) 1 8)
                  ltac:(lia) ltac:(lia) eq_refl)).
Defined.

(** The channel object of worker.js does, in the synchronous part of
    [receive] and of [send], what the host's [SharedChannel] does on the
    same region: same region afterwards, same outcome, parked where the
    host waits.  The one difference: the worker serialises before it
    looks at the buffer, so an unserialisable value is rejected there
    even where the host would have parked. *)
Theorem worker_channel_agrees_with_host {T : Type}
  (encode_json : T -> option (list Z)) (decode_json : list Z -> option T)
  (sb : SharedArrayBuffer) (data : T) :
  worker_receive decode_json sb
  = (getSharedBuffer (fst (receive decode_json (fromSharedBuffer sb))),
     recv_view (snd (receive decode_json (fromSharedBuffer sb))))
  /\ (encode_json data <> None ->
      worker_send encode_json sb data
      = (getSharedBuffer (fst (send encode_json (fromSharedBuffer sb) data)),
         send_view (snd (send encode_json (fromSharedBuffer sb) data))))
  /\ (encode_json data = None ->
      Atomics.load (fst sb) 3 <> 1 ->
      worker_send encode_json sb data
      = (sb, WorkerSettled (Rejected SerializerError))).
Proof.
  destruct sb as [h dv]. split; [|split].
  - unfold worker_receive, receive, worker_tryRead, tryRead, fromSharedBuffer.
    cbn [fst snd header dataView bufferSize elementSize].
    destruct (_ && _); [reflexivity|].
    destruct (Atomics.load h 1 =? Atomics.load h 2).
    + destruct (Atomics.load h 3 =? 1); [reflexivity|].
      cbn [fst snd getSharedBuffer header dataView with_header].
      f_equal. unfold waitForData. destruct (_ || _); reflexivity.
    + destruct (DataView.getUint32 _ _); [|reflexivity].
      destruct (read_bytes _ _ _ _); [|reflexivity].
      destruct (decode_json _); reflexivity.
  - intros Henc.
    unfold worker_send, send, worker_tryWrite, tryWrite, fromSharedBuffer.
    cbn [fst snd header dataView bufferSize elementSize].
    destruct (Atomics.load h 3 =? 1); [reflexivity|].
    destruct (encode_json data) as [encoded|]; [|contradiction].
    destruct (_ || _).
    + cbn [fst snd getSharedBuffer header dataView with_header].
      f_equal.
      destruct (waitForSpace_not_settled
                  (with_header
                     (mkChannel h dv (Atomics.load h 0) (Atomics.load h 4))
                     (Atomics.add h 5 1))) as [-> | ->]; reflexivity.
    + destruct (DataView.setUint32 _ _ _); [|reflexivity].
      destruct (write_bytes _ _ _ _) as [dv2 [|]]; reflexivity.
  - intros Henc Hopen. unfold worker_send. cbn [fst] in *.
    destruct (Z.eqb_spec (Atomics.load h 3) 1); [contradiction|].
    now rewrite Henc.
Qed.

Lemma worker_channel_agrees_with_host_witness :
  worker_send Json.serializer (mkHeader 1 0 0 0 8 0 0, repeat 0 8%nat)
    (Json.VNumber 5)
  = (getSharedBuffer
       (fst (send Json.serializer
               (fromSharedBuffer (mkHeader 1 0 0 0 8 0 0, repeat 0 8%nat))
               (Json.VNumber 5))),
     send_view
       (snd (send Json.serializer
               (fromSharedBuffer (mkHeader 1 0 0 0 8 0 0, repeat 0 8%nat))
               (Json.VNumber 5)))).
Proof.
  apply (proj1 (proj2 (worker_channel_agrees_with_host
                         Json.serializer Json.deserializer
                         (mkHeader 1 0 0 0 8 0 0, repeat 0 8%nat)
                         (Json.VNumber 5)))).
  discriminate.
Defined.

(** ** A channel sized with the helper *)



(** ** The pool: what every reachable state satisfies *)

Module PoolInvariant.
Import Pool Registry.

Lemma createWorker_wf (p : WorkerPool) :
  pool_wf p ->
  (length (workers p) < maxWorkers p)%nat ->
  pool_wf (createWorker p).
Proof.
  intros (Hnw & Hna & Hincl & Hlt & _) Hroom.
  assert (Hfresh : ~ In (nextWorker p) (workers p)).
  { intros Hin. rewrite Forall_forall in Hlt. specialize (Hlt _ Hin). lia. }
  unfold pool_wf, createWorker.
  cbn [workers availableWorkers nextWorker maxWorkers].
  repeat split.
  - apply NoDup_app; [exact Hnw|repeat constructor; intros []|].
    intros x Hx [<-|[]]. contradiction.
  - apply NoDup_app; [exact Hna|repeat constructor; intros []|].
    intros x Hx [<-|[]]. apply Hfresh. now apply Hincl.
  - intros x Hx. apply in_app_or in Hx. apply in_or_app.
    destruct Hx as [Hx|Hx]; [left; now apply Hincl|now right].
  - apply Forall_app. split.
    + eapply Forall_impl; [|exact Hlt]. intros a Ha. cbn beta in *. lia.
    + repeat constructor.
  - rewrite length_app. cbn [length]. lia.
Qed.

Lemma initializeWorkers_wf (n : nat) :
  forall p : WorkerPool,
    pool_wf p ->
    (length (workers p) + n <= maxWorkers p)%nat ->
    pool_wf (initializeWorkers n p).
Proof.
  induction n as [|n IH]; intros p Hwf Hroom; cbn [initializeWorkers];
    [exact Hwf|].
  apply IH.
  - apply createWorker_wf; [exact Hwf|lia].
  - cbn [createWorker workers maxWorkers]. rewrite length_app. cbn [length]. lia.
Qed.

Lemma In_remove_first_other (w y : nat) (l : list nat) :
  y <> w -> In y l -> In y (remove_first w l).
Proof.
  intros Hne. induction l as [|x l IH]; cbn [remove_first]; [auto|].
  intros [->|Hin].
  - destruct (Nat.eqb_spec y w); [contradiction|now left].
  - destruct (Nat.eqb x w); [exact Hin|right; auto].
Qed.

Lemma length_remove_first (w : nat) (l : list nat) :
  (length (remove_first w l) <= length l)%nat.
Proof.
  induction l as [|x l IH]; cbn [remove_first length]; [lia|].
  destruct (Nat.eqb x w); cbn [length]; lia.
Qed.

Lemma removeWorker_wf (p : WorkerPool) (worker : nat) :
  pool_wf p -> pool_wf (removeWorker p worker).
Proof.
  intros (Hnw & Hna & Hincl & Hlt & Hmax).
  assert (Hwf1 : pool_wf
            (mkPool (remove_first worker (workers p))
               (remove_first worker (availableWorkers p))
               (taskQueue p) (maxWorkers p) (sharedChannels p) (nextWorker p)
               (handlers p) (handles p) (outbox p) (terminated p))).
  { unfold pool_wf. cbn [workers availableWorkers nextWorker maxWorkers].
    destruct (PoolFacts.NoDup_remove_first worker _ Hnw) as [Hnw' _].
    destruct (PoolFacts.NoDup_remove_first worker _ Hna) as [Hna' Hnot].
    repeat split; try assumption.
    - intros y Hy.
      apply In_remove_first_other.
      + intros ->. contradiction.
      + apply Hincl. eapply PoolFacts.In_remove_first. exact Hy.
    - rewrite Forall_forall in *. intros y Hy. apply Hlt.
      eapply PoolFacts.In_remove_first. exact Hy.
    - pose proof (length_remove_first worker (workers p)). lia. }
  unfold removeWorker.
  destruct (Nat.ltb_spec
              (length (workers
                 (mkPool (remove_first worker (workers p))
                    (remove_first worker (availableWorkers p))
                    (taskQueue p) (maxWorkers p) (sharedChannels p)
                    (nextWorker p) (handlers p) (handles p) (outbox p)
                    (terminated p))))
              (maxWorkers
                 (mkPool (remove_first worker (workers p))
                    (remove_first worker (availableWorkers p))
                    (taskQueue p) (maxWorkers p) (sharedChannels p)
                    (nextWorker p) (handlers p) (handles p) (outbox p)
                    (terminated p)))) as [Hroom|Hfull]; cbn [andb].
  - destruct (negb _); [|exact Hwf1].
    apply createWorker_wf; assumption.
  - exact Hwf1.
Qed.

(** The closed form of the dispatch loop: the i-th queued task goes to
    the i-th available worker, as many as there are of both. *)
Lemma dispatch_closed_form (queue : list nat) :
  forall (available : list nat) (hs : list (nat * nat))
         (out : list (nat * posted)),
    dispatch queue available hs out
    = (skipn (length available) queue,
       skipn (length queue) available,
       hs ++ combine available queue,
       out ++ map (fun wt => (fst wt, Execute (snd wt)))
                (combine available queue)).
Proof.
  induction queue as [|task queue IH]; intros available hs out.
  - cbn [dispatch length skipn]. destruct available; cbn [combine map];
      now rewrite ?skipn_nil, !app_nil_r.
  - destruct available as [|worker available].
    + cbn [dispatch length skipn combine map]. now rewrite !app_nil_r.
    + cbn [dispatch]. rewrite IH. cbn [length skipn combine map fst snd].
      now rewrite <- !app_assoc.
Qed.

Lemma NoDup_skipn (n : nat) (l : list nat) : NoDup l -> NoDup (skipn n l).
Proof.
  revert l. induction n as [|n IH]; intros l Hnd; [exact Hnd|].
  destruct l as [|x l]; [exact Hnd|]. cbn [skipn].
  apply IH. now inversion Hnd.
Qed.

Lemma In_skipn (n : nat) (y : nat) (l : list nat) :
  In y (skipn n l) -> In y l.
Proof.
  revert l. induction n as [|n IH]; intros l; [auto|].
  destruct l as [|x l]; [auto|]. cbn [skipn]. intros Hy. right. auto.
Qed.

Lemma processQueue_wf (p : WorkerPool) :
  pool_wf p -> pool_wf (processQueue p).
Proof.
  intros (Hnw & Hna & Hincl & Hlt & Hmax).
  unfold processQueue. rewrite dispatch_closed_form.
  set (p1 := mkPool (workers p)
               (skipn (length (taskQueue p)) (availableWorkers p))
               (skipn (length (availableWorkers p)) (taskQueue p))
               (maxWorkers p) (sharedChannels p) (nextWorker p)
               (handlers p ++ combine (availableWorkers p) (taskQueue p))
               (handles p)
               (outbox p ++
                  map (fun wt => (fst wt, Execute (snd wt)))
                    (combine (availableWorkers p) (taskQueue p)))
               (terminated p)).
  assert (Hwf1 : pool_wf p1).
  { unfold pool_wf, p1. cbn [workers availableWorkers nextWorker maxWorkers].
    repeat split; try assumption.
    - now apply NoDup_skipn.
    - intros y Hy. apply Hincl. eapply In_skipn. exact Hy. }
  destruct (negb _); cbn [andb]; [|exact Hwf1].
  destruct (Nat.ltb_spec (length (workers p1)) (maxWorkers p1));
    [|exact Hwf1].
  now apply createWorker_wf.
Qed.

Lemma handleWorkerMessage_wf (p : WorkerPool) (worker : nat) :
  pool_wf p -> In worker (workers p) ->
  pool_wf (handleWorkerMessage p worker).
Proof.
  intros (Hnw & Hna & Hincl & Hlt & Hmax) Hin.
  unfold handleWorkerMessage. apply processQueue_wf.
  unfold pool_wf. cbn [workers availableWorkers nextWorker maxWorkers].
  destruct (existsb (Nat.eqb worker) (availableWorkers p)) eqn:Hmem;
    repeat split; try assumption.
  - apply NoDup_app; [exact Hna|repeat constructor; intros []|].
    intros x Hx [<-|[]].
    apply existsb_eqb_In in Hx. congruence.
  - intros x Hx. apply in_app_or in Hx.
    destruct Hx as [Hx|[<-|[]]]; [now apply Hincl|exact Hin].
Qed.

Lemma exits_wf (ws : list nat) :
  forall p : WorkerPool, pool_wf p -> pool_wf (fold_left on_exit ws p).
Proof.
  induction ws as [|w ws IH]; intros p Hwf; cbn [fold_left]; [exact Hwf|].
  apply IH. now apply removeWorker_wf.
Qed.

(** A new pool has its workers distinct, its idle workers among them (and
    distinct), worker identities never reused, and at most [maxWorkers]
    workers; every operation of the pool keeps it so. *)
Theorem pool_stays_well_formed :
  (forall n : nat, pool_wf (new_WorkerPool n))
  /\ (forall p : WorkerPool,
         pool_wf p ->
         (forall id, pool_wf (execute p id))
         /\ pool_wf (processQueue p)
         /\ (forall worker, pool_wf (removeWorker p worker))
         /\ (forall worker m,
                In worker (workers p) -> pool_wf (on_message p worker m))
         /\ (forall id sharedBuffer,
                pool_wf (registerSharedChannel p id sharedBuffer))
         /\ pool_wf (terminate_awaited p)).
Proof.
  split.
  - intros n. unfold new_WorkerPool. apply initializeWorkers_wf.
    + unfold pool_wf. cbn. repeat split; try constructor.
      * intros x [].
      * lia.
    + cbn. lia.
  - intros p Hwf.
    split; [|split; [|split; [|split; [|split]]]].
    + intros id. unfold execute. apply processQueue_wf.
      destruct Hwf as (? & ? & ? & ? & ?).
      unfold pool_wf. cbn [workers availableWorkers nextWorker maxWorkers].
      auto.
    + now apply processQueue_wf.
    + intros worker. now apply removeWorker_wf.
    + intros worker m Hin. unfold on_message.
      pose proof (handleWorkerMessage_wf p worker Hwf Hin)
        as (? & ? & ? & ? & ?).
      destruct (existsb _ (handlers p)); unfold pool_wf;
        cbn [workers availableWorkers nextWorker maxWorkers]; auto.
    + intros id sharedBuffer.
      destruct Hwf as (? & ? & ? & ? & ?).
      unfold pool_wf, registerSharedChannel.
      cbn [workers availableWorkers nextWorker maxWorkers]. auto.
    + unfold terminate_awaited, terminate. apply exits_wf.
      destruct Hwf as (? & ? & ? & ? & ?).
      unfold pool_wf. cbn [workers availableWorkers nextWorker maxWorkers].
      auto.
Qed.

Lemma pool_stays_well_formed_witness :
  pool_wf (on_message (execute (new_WorkerPool 2) 7%nat) 0%nat (Result 7%nat 49)).
Proof.
  apply (proj1 (proj2 (proj2 (proj2
           (proj2 pool_stays_well_formed (execute (new_WorkerPool 2) 7%nat)
              (proj1 (proj2 pool_stays_well_formed (new_WorkerPool 2)
                        (proj1 pool_stays_well_formed 2%nat)) 7%nat)))))).
  cbn. auto.
Defined.

End PoolInvariant.

(** ** The pool: dispatch, replies, registrations *)

Module PoolDispatch.
Import Pool Registry.

Lemma combine_keeps_queue (available queue : list nat) :
  map snd (combine available queue) ++ skipn (length available) queue = queue.
Proof.
  revert queue. induction available as [|w available IH]; intros queue.
  - reflexivity.
  - destruct queue as [|t queue]; [reflexivity|].
    cbn [combine map snd length skipn app]. now rewrite IH.
Qed.

Lemma combine_keeps_available (available queue : list nat) :
  map fst (combine available queue) ++ skipn (length queue) available
  = available.
Proof.
  revert queue. induction available as [|w available IH]; intros queue.
  - now rewrite skipn_nil.
  - destruct queue as [|t queue]; [reflexivity|].
    cbn [combine map fst length skipn app]. now rewrite IH.
Qed.

Lemma skipn_both_empty (available queue : list nat) :
  skipn (length available) queue = []
  \/ skipn (length queue) available = [].
Proof.
  revert queue. induction available as [|w available IH]; intros queue.
  - right. apply skipn_nil.
  - destruct queue as [|t queue]; [now left|]. cbn [length skipn]. apply IH.
Qed.

(** [processQueue] in closed form.  The queued tasks are paired with
    the idle workers in order, first with first, as many as there are of
    both; the tasks left over stay queued in their order, the workers
    left over stay idle in theirs, and one of the two is empty.  Each
    pair gets one [messageHandler], appended in order, and one execute
    message to its worker, appended in order, and nothing else is
    posted by the loop.  A worker is created exactly when tasks are left
    and the pool is below [maxWorkers]: it joins the idle workers after
    the loop, and what is posted to it is the replay of the
    registrations and nothing more, so it gets no task from this call
    although tasks wait. *)
Theorem processQueue_dispatches_in_order (p : WorkerPool) :
  let dispatched := combine (availableWorkers p) (taskQueue p) in
  let idle := skipn (length (taskQueue p)) (availableWorkers p) in
  let waiting := skipn (length (availableWorkers p)) (taskQueue p) in
  let executes := map (fun wt => (fst wt, Execute (snd wt))) dispatched in
  let grows :=
    negb (length waiting =? 0)%nat
    && (length (workers p) <? maxWorkers p)%nat in
  handlers (processQueue p) = handlers p ++ dispatched
  /\ taskQueue (processQueue p) = waiting
  /\ map snd dispatched ++ waiting = taskQueue p
  /\ map fst dispatched ++ idle = availableWorkers p
  /\ (waiting = [] \/ idle = [])
  /\ availableWorkers (processQueue p)
     = idle ++ (if grows then [nextWorker p] else [])
  /\ workers (processQueue p)
     = workers p ++ (if grows then [nextWorker p] else [])
  /\ nextWorker (processQueue p)
     = (if grows then S (nextWorker p) else nextWorker p)
  /\ outbox (processQueue p)
     = outbox p ++ executes
       ++ (if grows
           then map (fun c => (nextWorker p,
                               RegisterSharedChannel (fst c) (snd c)))
                  (sharedChannels p)
           else [])
  /\ handles (processQueue p) = handles p
  /\ sharedChannels (processQueue p) = sharedChannels p
  /\ maxWorkers (processQueue p) = maxWorkers p
  /\ terminated (processQueue p) = terminated p
  /\ (~ In (nextWorker p) (availableWorkers p) ->
      forall task : nat,
        ~ In (nextWorker p, task) dispatched
        /\ ~ In (nextWorker p, Execute task) executes).
Proof.
  intros dispatched idle waiting executes grows.
  assert (Hfresh : ~ In (nextWorker p) (availableWorkers p) ->
                   forall task : nat,
                     ~ In (nextWorker p, task) dispatched
                     /\ ~ In (nextWorker p, Execute task) executes).
  { intros Hnew task. split.
    - intros Hin. apply Hnew. exact (in_combine_l _ _ _ _ Hin).
    - intros Hin. unfold executes in Hin. apply in_map_iff in Hin.
      destruct Hin as ([w t] & Heq & Hin). cbn [fst snd] in Heq.
      injection Heq as -> _. apply Hnew. exact (in_combine_l _ _ _ _ Hin). }
  unfold processQueue.
  rewrite PoolInvariant.dispatch_closed_form.
  fold dispatched idle waiting executes.
  cbn [taskQueue workers maxWorkers]. fold grows.
  destruct grows.
  - cbn [createWorker handlers taskQueue availableWorkers workers outbox
           nextWorker handles sharedChannels maxWorkers terminated].
    rewrite <- app_assoc.
    split; [reflexivity|]. split; [reflexivity|].
    split; [apply combine_keeps_queue|].
    split; [apply combine_keeps_available|].
    split; [apply skipn_both_empty|].
    repeat (split; [reflexivity|]). exact Hfresh.
  - cbn [handlers taskQueue availableWorkers workers outbox
           nextWorker handles sharedChannels maxWorkers terminated].
    rewrite !app_nil_r.
    split; [reflexivity|]. split; [reflexivity|].
    split; [apply combine_keeps_queue|].
    split; [apply combine_keeps_available|].
    split; [apply skipn_both_empty|].
    repeat (split; [reflexivity|]). exact Hfresh.
Qed.

Lemma processQueue_dispatches_in_order_witness :
  (processQueue (mkPool [0] [0] [5; 6] 2 [(7, 8)] 1 [] [] [] [])
   = mkPool [0; 1] [1] [6] 2 [(7, 8)] 2 [(0, 5)] []
       [(0, Execute 5); (1, RegisterSharedChannel 7 8)] []
   /\ forall task : nat,
        ~ In (1, task) [(0, 5)]
        /\ ~ In (1, Execute task) [(0, Execute 5)])%nat.
Proof.
  split; [reflexivity|].
  apply (proj2 (proj2 (proj2 (proj2 (proj2 (proj2 (proj2 (proj2 (proj2 (proj2 (proj2 (proj2 (proj2
             (processQueue_dispatches_in_order
                (mkPool [0%nat] [0%nat] [5%nat; 6%nat] 2
                   [(7%nat, 8%nat)] 1 [] [] [] []))))))))))))))).
  cbn. lia.
Defined.

End PoolDispatch.

Module PoolReplies.
Import Pool Registry.

Lemma processQueue_keeps_handles (p : WorkerPool) :
  handles (processQueue p) = handles p.
Proof.
  unfold processQueue.
  destruct (dispatch _ _ _ _) as [[[queue available] hs] out].
  destruct (_ && _); reflexivity.
Qed.

Lemma handleWorkerMessage_keeps_handles (p : WorkerPool) (worker : nat) :
  handles (handleWorkerMessage p worker) = handles p.
Proof.
  unfold handleWorkerMessage. now rewrite processQueue_keeps_handles.
Qed.

Lemma settle_entry (m : reply) (i : nat) (s : handle_state) :
  settle_handle m [(i, s)]
  = [(i, if Nat.eqb i (reply_id m)
         then match s with HPending => settled_by m | s' => s' end
         else s)].
Proof.
  unfold settle_handle. cbn [map fst snd].
  destruct (Nat.eqb i (reply_id m)); [|reflexivity].
  destruct s, m; reflexivity.
Qed.

Lemma find_settle_handle (m : reply) (id : nat)
  (hs : list (nat * handle_state)) :
  match find (fun h => Nat.eqb (fst h) id) (settle_handle m hs) with
  | Some h => Some (snd h)
  | None => None
  end
  = match find (fun h => Nat.eqb (fst h) id) hs with
    | Some h =>
        if Nat.eqb id (reply_id m)
        then match snd h with
             | HPending => Some (settled_by m)
             | s => Some s
             end
        else Some (snd h)
    | None => None
    end.
Proof.
  induction hs as [|[i s] hs IH]; [reflexivity|].
  change (settle_handle m ((i, s) :: hs))
    with (settle_handle m [(i, s)] ++ settle_handle m hs).
  rewrite settle_entry. cbn [app find fst snd].
  destruct (Nat.eqb_spec i id) as [->|Hid]; [|exact IH].
  destruct (Nat.eqb id (reply_id m)); [|reflexivity].
  destruct s; reflexivity.
Qed.

Lemma on_message_settles (p : WorkerPool) (worker : nat) (m : reply) :
  In (worker, reply_id m) (handlers p) ->
  handle_of p (reply_id m) = Some HPending ->
  handle_of (on_message p worker m) (reply_id m) = Some (settled_by m)
  /\ ~ In (worker, reply_id m) (handlers (on_message p worker m)).
Proof.
  intros Hin Hpending.
  assert (Hex :
    existsb (fun h => Nat.eqb (fst h) worker && Nat.eqb (snd h) (reply_id m))
      (handlers p) = true).
  { rewrite existsb_exists. exists (worker, reply_id m).
    split; [exact Hin|]. cbn [fst snd]. now rewrite !Nat.eqb_refl. }
  unfold on_message. rewrite Hex. split.
  - unfold handle_of in *. cbn [handles].
    rewrite handleWorkerMessage_keeps_handles, find_settle_handle.
    rewrite Nat.eqb_refl.
    destruct (find _ (handles p)) as [[i s]|]; [|discriminate].
    cbn [snd] in *. injection Hpending as ->. reflexivity.
  - cbn [handlers]. intros Hstill.
    apply filter_In in Hstill. destruct Hstill as [_ Hneg].
    cbn [fst snd] in Hneg. rewrite !Nat.eqb_refl in Hneg. discriminate Hneg.
Qed.



Lemma handleWorkerMessage_idle_queue (p : WorkerPool) (worker : nat) :
  taskQueue p = [] ->
  taskQueue (handleWorkerMessage p worker) = []
  /\ availableWorkers (handleWorkerMessage p worker)
     = (if existsb (Nat.eqb worker) (availableWorkers p)
        then availableWorkers p
        else availableWorkers p ++ [worker]).
Proof.
  intros Hq. unfold handleWorkerMessage, processQueue.
  cbn [taskQueue availableWorkers handlers outbox]. rewrite Hq.
  cbn [dispatch taskQueue length Nat.eqb negb andb availableWorkers].
  split; reflexivity.
Qed.

Lemma handle_of_new_task (hs : list (nat * handle_state)) (id : nat) :
  find (fun h => Nat.eqb (fst h) id) hs = None ->
  find (fun h => Nat.eqb (fst h) id) (hs ++ [(id, HPending)])
  = Some (id, HPending).
Proof.
  induction hs as [|[i s] hs IH]; cbn [find app fst].
  - now rewrite Nat.eqb_refl.
  - destruct (Nat.eqb i id); [discriminate|exact IH].
Qed.

(** A task submitted while a worker is idle and nothing is queued goes at
    once to the first idle worker, with a pending handle; the worker's
    result for it resolves the handle with that payload, returns the
    worker to the idle list and removes the handler. *)
Theorem idle_pool_runs_a_task (p : WorkerPool) (id worker : nat)
  (rest : list nat) (payload : Z) :
  taskQueue p = [] ->
  availableWorkers p = worker :: rest ->
  handle_of p id = None ->
  let p1 := execute p id in
  let p2 := on_message p1 worker (Result id payload) in
  taskQueue p1 = []
  /\ availableWorkers p1 = rest
  /\ In (worker, Execute id) (outbox p1)
  /\ handle_of p1 id = Some HPending
  /\ handle_of p2 id = Some (HResolved payload)
  /\ In worker (availableWorkers p2)
  /\ ~ In (worker, id) (handlers p2)
  /\ taskQueue p2 = [].
Proof.
  intros Hq Ha Hnew p1 p2.
  assert (Hp1 : p1 = mkPool (workers p) rest [] (maxWorkers p)
                       (sharedChannels p) (nextWorker p)
                       (handlers p ++ [(worker, id)])
                       (handles p ++ [(id, HPending)])
                       (outbox p ++ [(worker, Execute id)]) (terminated p)).
  { unfold p1, execute, processQueue. cbn [taskQueue availableWorkers handlers
                                             outbox].
    rewrite Hq, Ha. reflexivity. }
  assert (Hh1 : handle_of p1 id = Some HPending).
  { rewrite Hp1. unfold handle_of in *. cbn [handles].
    rewrite handle_of_new_task; [reflexivity|].
    destruct (find _ (handles p)); [discriminate|reflexivity]. }
  assert (Hin1 : In (worker, reply_id (Result id payload)) (handlers p1)).
  { rewrite Hp1. cbn [handlers reply_id]. apply in_or_app. right. now left. }
  destruct (on_message_settles p1 worker (Result id payload) Hin1 Hh1)
    as [Hres Hgone].
  split; [now rewrite Hp1|]. split; [now rewrite Hp1|].
  split; [rewrite Hp1; cbn [outbox]; apply in_or_app; right; now left|].
  split; [exact Hh1|]. split; [exact Hres|].
  assert (Hq1 : taskQueue p1 = []) by now rewrite Hp1.
  destruct (handleWorkerMessage_idle_queue p1 worker Hq1) as [Hq2 Ha2].
  assert (Hsame : taskQueue p2 = taskQueue (handleWorkerMessage p1 worker)
                  /\ availableWorkers p2
                     = availableWorkers (handleWorkerMessage p1 worker)).
  { unfold p2, on_message. destruct (existsb _ (handlers p1)); split; reflexivity. }
  destruct Hsame as [-> ->].
  split; [|split; [exact Hgone|exact Hq2]].
  rewrite Ha2.
  destruct (existsb (Nat.eqb worker) (availableWorkers p1)) eqn:Hmem.
  - now apply existsb_eqb_In.
  - apply in_or_app. right. now left.
Qed.

Lemma idle_pool_runs_a_task_witness :
  taskQueue (execute (new_WorkerPool 2) 7%nat) = []
  /\ availableWorkers (execute (new_WorkerPool 2) 7%nat) = [1%nat]
  /\ In (0%nat, Execute 7%nat) (outbox (execute (new_WorkerPool 2) 7%nat))
  /\ handle_of (execute (new_WorkerPool 2) 7%nat) 7%nat = Some HPending
  /\ handle_of
       (on_message (execute (new_WorkerPool 2) 7%nat) 0%nat (Result 7%nat 49))
       7%nat
     = Some (HResolved 49)
  /\ In 0%nat
       (availableWorkers
          (on_message (execute (new_WorkerPool 2) 7%nat) 0%nat
             (Result 7%nat 49)))
  /\ ~ In (0%nat, 7%nat)
       (handlers
          (on_message (execute (new_WorkerPool 2) 7%nat) 0%nat
             (Result 7%nat 49)))
  /\ taskQueue
       (on_message (execute (new_WorkerPool 2) 7%nat) 0%nat (Result 7%nat 49))
     = [].
Proof.
  apply (idle_pool_runs_a_task (new_WorkerPool 2) 7%nat 0%nat
           [1%nat] 49); reflexivity.
Defined.

End PoolReplies.

Module PoolRegistrations.
Import Pool Registry.

Lemma Map_get_set_same (m : list (nat * nat)) (k v : nat) :
  Map_get (Map_set m k v) k = Some v.
Proof.
  induction m as [|[k' v'] m IH]; cbn [Map_set Map_get].
  - now rewrite Nat.eqb_refl.
  - destruct (Nat.eqb_spec k' k) as [->|Hne]; cbn [Map_get].
    + now rewrite Nat.eqb_refl.
    + destruct (Nat.eqb_spec k' k); [contradiction|exact IH].
Qed.

Lemma Map_get_set_other (m : list (nat * nat)) (k k' v : nat) :
  k' <> k -> Map_get (Map_set m k v) k' = Map_get m k'.
Proof.
  intros Hne. induction m as [|[k0 v0] m IH]; cbn [Map_set Map_get].
  - destruct (Nat.eqb_spec k k'); [congruence|reflexivity].
  - destruct (Nat.eqb_spec k0 k) as [->|Hk0]; cbn [Map_get].
    + destruct (Nat.eqb_spec k k'); [congruence|reflexivity].
    + destruct (Nat.eqb k0 k'); [reflexivity|exact IH].
Qed.

Lemma Map_get_In (m : list (nat * nat)) (k v : nat) :
  Map_get m k = Some v -> In (k, v) m.
Proof.
  induction m as [|[k' v'] m IH]; cbn [Map_get]; [discriminate|].
  destruct (Nat.eqb_spec k' k) as [->|Hne].
  - intros [= ->]. now left.
  - intros Hget. right. auto.
Qed.

Lemma Map_set_keys_NoDup (m : list (nat * nat)) (k v : nat) :
  NoDup (map fst m) -> NoDup (map fst (Map_set m k v)).
Proof.
  induction m as [|[k' v'] m IH]; cbn [Map_set map fst]; intros Hnd.
  - repeat constructor. intros [].
  - inversion Hnd as [|? ? Hnotin Hnd']; subst.
    destruct (Nat.eqb_spec k' k) as [->|Hne]; cbn [map fst].
    + constructor; assumption.
    + constructor; [|auto].
      intros Hin. apply Hnotin.
      clear -Hin Hne. induction m as [|[k0 v0] m IH]; cbn [Map_set map fst] in *.
      * destruct Hin as [->|[]]. contradiction.
      * destruct (Nat.eqb_spec k0 k) as [->|Hk0]; cbn [map fst] in Hin.
        -- destruct Hin as [->|Hin]; [contradiction|now right].
        -- destruct Hin as [->|Hin]; [now left|right; auto].
Qed.

(** Registering a channel sends the registration to every current worker
    and records it under its id, replacing an earlier registration of
    that id and leaving the other ids alone; every worker created
    afterwards (at start-up, on demand or as a replacement) is sent every
    recorded registration, so it learns the latest region of each id. *)
Theorem registrations_reach_every_worker (p : WorkerPool)
  (id sharedBuffer : nat) :
  let p' := registerSharedChannel p id sharedBuffer in
  (forall worker,
      In worker (workers p) ->
      In (worker, RegisterSharedChannel id sharedBuffer) (outbox p'))
  /\ Map_get (sharedChannels p') id = Some sharedBuffer
  /\ (forall id', id' <> id ->
                  Map_get (sharedChannels p') id' = Map_get (sharedChannels p) id')
  /\ (NoDup (map fst (sharedChannels p)) ->
      NoDup (map fst (sharedChannels p')))
  /\ (forall (q : WorkerPool) (id' b : nat),
         Map_get (sharedChannels q) id' = Some b ->
         In (nextWorker q, RegisterSharedChannel id' b) (outbox (createWorker q))
         /\ In (nextWorker q) (workers (createWorker q)))
  /\ In (nextWorker p', RegisterSharedChannel id sharedBuffer)
       (outbox (createWorker p')).
Proof.
  intros p'.
  assert (Hreplay : forall (q : WorkerPool) (id' b : nat),
             Map_get (sharedChannels q) id' = Some b ->
             In (nextWorker q, RegisterSharedChannel id' b)
               (outbox (createWorker q))
             /\ In (nextWorker q) (workers (createWorker q))).
  { intros q id' b Hget. unfold createWorker. cbn [outbox workers]. split.
    - apply in_or_app. right.
      apply (in_map (fun c => (nextWorker q,
                               RegisterSharedChannel (fst c) (snd c)))
               _ (id', b)).
      now apply Map_get_In.
    - apply in_or_app. right. now left. }
  split; [|split; [|split; [|split; [|split]]]].
  - intros worker Hin. unfold p', registerSharedChannel. cbn [outbox].
    apply in_or_app. right.
    apply (in_map (fun w => (w, RegisterSharedChannel id sharedBuffer))).
    exact Hin.
  - apply Map_get_set_same.
  - intros id' Hne. now apply Map_get_set_other.
  - apply Map_set_keys_NoDup.
  - exact Hreplay.
  - apply Hreplay. apply Map_get_set_same.
Qed.

Lemma length_remove_first_In (w : nat) (l : list nat) :
  In w l -> S (length (remove_first w l)) = length l.
Proof.
  induction l as [|x l IH]; cbn [remove_first length]; [intros []|].
  intros [->|Hin].
  - now rewrite Nat.eqb_refl.
  - destruct (Nat.eqb x w); [reflexivity|]. cbn [length]. now rewrite IH.
Qed.

(** When a worker of a full pool goes away while tasks are queued, a
    replacement is created, is sent every recorded registration and is
    idle; the queued tasks are not dispatched by this event. *)
Theorem replacement_worker_is_told_registrations (p : WorkerPool)
  (worker id sharedBuffer : nat) :
  pool_wf p ->
  In worker (workers p) ->
  taskQueue p <> [] ->
  Map_get (sharedChannels p) id = Some sharedBuffer ->
  let p' := removeWorker p worker in
  workers p' = remove_first worker (workers p) ++ [nextWorker p]
  /\ In (nextWorker p) (availableWorkers p')
  /\ In (nextWorker p, RegisterSharedChannel id sharedBuffer) (outbox p')
  /\ taskQueue p' = taskQueue p.
Proof.
  intros (_ & _ & _ & _ & Hmax) Hin Hq Hget p'.
  pose proof (length_remove_first_In worker (workers p) Hin) as Hlen.
  unfold p', removeWorker. cbn [workers maxWorkers taskQueue].
  destruct (Nat.ltb_spec (length (remove_first worker (workers p)))
              (maxWorkers p)) as [_|Hge]; [|lia].
  destruct (taskQueue p) as [|t q] eqn:Hqueue; [contradiction|].
  cbn [length Nat.eqb negb andb createWorker workers availableWorkers outbox
         taskQueue sharedChannels nextWorker].
  split; [reflexivity|]. split; [apply in_or_app; right; now left|].
  split; [|reflexivity].
  apply in_or_app. right.
  apply (in_map (fun c => (nextWorker p,
                           RegisterSharedChannel (fst c) (snd c)))
           _ (id, sharedBuffer)).
  now apply Map_get_In.
Qed.

Lemma replacement_worker_is_told_registrations_witness :
  workers (removeWorker
             (execute (execute (registerSharedChannel (new_WorkerPool 1)
                                  5%nat 9%nat) 1%nat) 2%nat) 0%nat)
  = remove_first 0%nat [0%nat] ++ [1%nat]
  /\ In 1%nat
       (availableWorkers
          (removeWorker
             (execute (execute (registerSharedChannel (new_WorkerPool 1)
                                  5%nat 9%nat) 1%nat) 2%nat) 0%nat))
  /\ In (1%nat, RegisterSharedChannel 5%nat 9%nat)
       (outbox
          (removeWorker
             (execute (execute (registerSharedChannel (new_WorkerPool 1)
                                  5%nat 9%nat) 1%nat) 2%nat) 0%nat))
  /\ taskQueue
       (removeWorker
          (execute (execute (registerSharedChannel (new_WorkerPool 1)
                               5%nat 9%nat) 1%nat) 2%nat) 0%nat)
     = [2%nat].
Proof.
  apply (replacement_worker_is_told_registrations
           (execute (execute (registerSharedChannel (new_WorkerPool 1)
                                5%nat 9%nat) 1%nat) 2%nat)
           0%nat 5%nat 9%nat).
  - unfold pool_wf. cbn. repeat split; repeat constructor; cbn; intuition lia.
  - cbn. auto.
  - cbn. discriminate.
  - reflexivity.
Defined.

End PoolRegistrations.

(** ** WaitGroup: the counter and the three outcomes of wait *)

Section WaitGroupMore.

Context {V E : Type}.

Lemma length_remove_count (h : nat) (l : list nat) :
  Z.of_nat (length (remove Nat.eq_dec h l))
  = Z.of_nat (length l) - Z.of_nat (count_occ Nat.eq_dec l h).
Proof.
  induction l as [|x l IH]; [reflexivity|].
  cbn [remove count_occ length].
  destruct (Nat.eq_dec h x) as [->|Hne].
  - destruct (Nat.eq_dec x x); [|contradiction]. lia.
  - destruct (Nat.eq_dec x h); [congruence|]. cbn [length]. lia.
Qed.

Lemma settle_tracks (wg : WaitGroup) (h : nat) :
  count_tracks_unsettled wg -> count_tracks_unsettled (settle wg h).
Proof.
  intros [Hc Hincl]. unfold count_tracks_unsettled, settle.
  cbn [count finalizers promises]. split.
  - rewrite length_remove_count. lia.
  - intros x Hx. apply Hincl. now apply in_remove in Hx.
Qed.

Lemma settle_promises (wg : WaitGroup) (h : nat) :
  promises (settle wg h) = promises wg.
Proof. reflexivity. Qed.

Lemma add_tracks (wg : WaitGroup) (h : nat) :
  count_tracks_unsettled wg -> count_tracks_unsettled (add wg h).
Proof.
  intros [Hc Hincl]. unfold count_tracks_unsettled, add.
  cbn [count finalizers promises].
  rewrite length_app. cbn [length]. split; [lia|].
  intros x Hx. apply in_app_or in Hx. apply in_or_app.
  destruct Hx as [Hx|Hx]; [left; now apply Hincl|now right].
Qed.

(** Adds and settlements, in any order, keep the counter right. *)
Lemma run_events_tracks (evs : list (wg_event V E)) :
  forall wg : WaitGroup,
    count_tracks_unsettled wg -> count_tracks_unsettled (run_events wg evs).
Proof.
  induction evs as [|[h|h o] evs IH]; intros wg Hwg;
    cbn [run_events fold_left apply_event].
  - exact Hwg.
  - apply IH. now apply add_tracks.
  - apply IH. now apply settle_tracks.
Qed.

(** Without an [add] among the events, a callback still outstanding at
    the end was outstanding at the start and its handle has not settled. *)
Lemma finalizers_run_no_add (evs : list (wg_event V E)) :
  forall (wg : WaitGroup) (x : nat),
    additions evs = [] ->
    In x (finalizers (run_events wg evs)) ->
    In x (finalizers wg) /\ forall o, ~ In (EvSettle x o) evs.
Proof.
  induction evs as [|[h|h o] evs IH]; intros wg x Hadd Hin;
    cbn [run_events fold_left apply_event additions] in *.
  - split; [exact Hin|intros o []].
  - discriminate Hadd.
  - destruct (IH (settle wg h) x Hadd Hin) as [Hfin Hnot].
    cbn [settle finalizers] in Hfin. apply in_remove in Hfin.
    destruct Hfin as [Hfin Hne]. split; [exact Hfin|].
    intros o' [Heq|Hin']; [congruence|exact (Hnot o' Hin')].
Qed.

(** A [wait()] that resolves without an [add] in between finds every
    callback run. *)
Lemma resolved_without_add_all_run (wg : WaitGroup)
  (evs : list (wg_event V E)) (vs : list V) :
  count_tracks_unsettled wg ->
  additions evs = [] ->
  Promise_all (promises wg) [] (settlements evs) = AllFulfilled vs ->
  finalizers (run_events wg evs) = [].
Proof.
  intros [_ Hincl] Hadd Hall.
  destruct (finalizers (run_events wg evs)) as [|x l] eqn:Hf; [reflexivity|].
  exfalso.
  destruct (finalizers_run_no_add evs wg x Hadd) as [Hfin Hnot].
  { rewrite Hf. now left. }
  pose proof (Promise_all_fulfilled_values (promises wg) (settlements evs)
                (settlements evs) [] vs ltac:(intros ? ? [])
                (incl_refl _) Hall) as Hvals.
  destruct (Forall2_In_l _ _ _ Hvals x (Hincl x Hfin)) as [v Hv].
  apply In_settlements in Hv. exact (Hnot _ Hv).
Qed.

End WaitGroupMore.

(** For a group whose counter equals the number of registered [finally]
    callbacks that have not run, all of them on handles of the group
    (true of a new group): the counter is not negative; [add] raises it
    by one and a settlement lowers it by the number of times the handle
    was added, both keeping the relation, and so does any sequence of
    them.  A [wait()] that rejects or is still pending changes nothing
    more, so it keeps the relation.  A [wait()] that resolves sets the
    counter to 0 and empties the array whatever callbacks are
    outstanding: the relation survives exactly when none is, which is
    the case whenever no [add] happened between the call of [wait()]
    and its resumption. *)
Theorem count_is_the_number_of_unsettled_handles {V E : Type}
  (wg : WaitGroup) (h : nat) (evs : list (wg_event V E)) :
  count_tracks_unsettled wg ->
  0 <= getCount wg
  /\ count_tracks_unsettled (add wg h)
  /\ getCount (add wg h) = getCount wg + 1
  /\ count_tracks_unsettled (settle wg h)
  /\ getCount (settle wg h)
     = getCount wg - Z.of_nat (count_occ Nat.eq_dec (finalizers wg) h)
  /\ count_tracks_unsettled (run_events wg evs)
  /\ ((forall vs, snd (wait wg evs) <> WaitResolved vs) ->
      fst (wait wg evs) = run_events wg evs)
  /\ (forall vs,
         snd (wait wg evs) = WaitResolved vs ->
         fst (wait wg evs)
         = mkWaitGroup 0 [] (finalizers (run_events wg evs))
         /\ (count_tracks_unsettled (fst (wait wg evs))
             <-> finalizers (run_events wg evs) = []))
  /\ (additions evs = [] -> count_tracks_unsettled (fst (wait wg evs))).
Proof.
  intros Hwg. pose proof Hwg as [Hc Hincl].
  pose proof (run_events_tracks evs wg Hwg) as Hrun.
  split; [unfold getCount; lia|].
  split; [now apply add_tracks|].
  split; [reflexivity|].
  split; [now apply settle_tracks|].
  split; [reflexivity|].
  split; [exact Hrun|].
  unfold wait.
  destruct (Promise_all (promises wg) [] (settlements evs)) as [vs0|e|]
    eqn:Hall; cbn [fst snd].
  - split; [intros Hno; exfalso; exact (Hno vs0 eq_refl)|].
    split.
    + intros vs _. split; [reflexivity|].
      unfold count_tracks_unsettled. cbn [count finalizers promises].
      split.
      * intros [Hlen _].
        destruct (finalizers (run_events wg evs)); [reflexivity|].
        cbn [length] in Hlen. lia.
      * intros ->. split; [reflexivity|intros x []].
    + intros Hadd.
      rewrite (resolved_without_add_all_run wg evs vs0 Hwg Hadd Hall).
      split; [reflexivity|intros x []].
  - split; [reflexivity|]. split; [discriminate|]. intros _. exact Hrun.
  - split; [reflexivity|]. split; [discriminate|]. intros _. exact Hrun.
Qed.

Lemma count_is_the_number_of_unsettled_handles_witness :
  0 <= getCount (add new_WaitGroup 4%nat)
  /\ count_tracks_unsettled (add (add new_WaitGroup 4%nat) 5%nat)
  /\ getCount (add (add new_WaitGroup 4%nat) 5%nat)
     = getCount (add new_WaitGroup 4%nat) + 1
  /\ count_tracks_unsettled (settle (add new_WaitGroup 4%nat) 5%nat)
  /\ getCount (settle (add new_WaitGroup 4%nat) 5%nat)
     = getCount (add new_WaitGroup 4%nat)
       - Z.of_nat (count_occ Nat.eq_dec
                     (finalizers (add new_WaitGroup 4%nat)) 5%nat)
  /\ count_tracks_unsettled
       (fst (wait (add new_WaitGroup 4%nat)
               [EvSettle 4%nat (@Fulfilled Z Z 16)]))
  /\ (count_tracks_unsettled
        (fst (wait (add new_WaitGroup 4%nat)
                [EvAdd 6%nat; EvSettle 4%nat (@Fulfilled Z Z 16)]))
      <-> [6%nat] = []).
Proof.
  assert (Hwg : count_tracks_unsettled (add new_WaitGroup 4%nat)).
  { unfold count_tracks_unsettled. cbn. split; [reflexivity|].
    intros x Hx. exact Hx. }
  pose proof (count_is_the_number_of_unsettled_handles
                (add new_WaitGroup 4%nat) 5%nat
                [EvSettle 4%nat (@Fulfilled Z Z 16)] Hwg)
    as (H1 & H2 & H3 & H4 & H5 & _ & _ & _ & H9).
  pose proof (count_is_the_number_of_unsettled_handles
                (add new_WaitGroup 4%nat) 5%nat
                [EvAdd 6%nat; EvSettle 4%nat (@Fulfilled Z Z 16)] Hwg)
    as (_ & _ & _ & _ & _ & _ & _ & H8 & _).
  split; [exact H1|]. split; [exact H2|]. split; [exact H3|].
  split; [exact H4|]. split; [exact H5|].
  split; [exact (H9 eq_refl)|].
  exact (proj2 (H8 [16] eq_refl)).
Defined.

(** The three outcomes of [wait()], with adds and settlements arriving
    in any order after the call and each handle settling at most once.
    [wait()] is pending exactly when no handle that the group held at
    the call has been rejected and not all of them have been fulfilled;
    handles added after the call play no part.  If one of the handles
    held at the call is rejected, [wait()] rejects with the first such
    rejection; when it rejects, the group holds the handles it had at
    the call followed by those added since.  When it resolves, the
    results are values the handles held at the call were fulfilled
    with, in the order of their [add], the counter is 0 and the group
    holds no handle, those added since the call included.  On a group
    without handles it resolves with the empty list. *)
Theorem wait_pending_or_rejected {V E : Type}
  (wg : WaitGroup) (evs : list (wg_event V E)) :
  NoDup (map fst (settlements evs)) ->
  (snd (wait wg evs) = WaitPending
   <-> (forall h e, In h (promises wg) ->
                    ~ In (EvSettle h (RejectedWith e)) evs)
       /\ ~ (forall h, In h (promises wg) ->
                       exists v, In (EvSettle h (Fulfilled v)) evs))
  /\ ((exists h e, In h (promises wg)
                   /\ In (EvSettle h (RejectedWith e)) evs) ->
      exists e1,
        snd (wait wg evs) = WaitRejected e1
        /\ first_rejection (promises wg) (settlements evs) = Some e1)
  /\ (forall wg' e,
         wait wg evs = (wg', WaitRejected e) ->
         promises wg' = promises wg ++ additions evs
         /\ exists h, In h (promises wg)
                      /\ In (EvSettle h (RejectedWith e)) evs)
  /\ (forall wg' vs,
         wait wg evs = (wg', WaitResolved vs) ->
         Forall2 (fun h v => In (EvSettle h (Fulfilled v)) evs)
           (promises wg) vs
         /\ getCount wg' = 0
         /\ promises wg' = [])
  /\ (promises wg = [] -> snd (wait wg evs) = WaitResolved []).
Proof.
  intros Hnd.
  assert (Hrejects :
            (exists h e, In h (promises wg)
                         /\ In (EvSettle h (RejectedWith e)) evs) ->
            exists e1,
              Promise_all (promises wg) [] (settlements evs) = AllRejected e1
              /\ first_rejection (promises wg) (settlements evs) = Some e1).
  { intros (h & e & Hh & Hin).
    apply (Promise_all_rejects (promises wg) (settlements evs) [] Hnd).
    - intros ? ? ? [].
    - exists h, e. split; [exact Hh|now apply In_settlements]. }
  assert (Hrej : forall wg' e,
             wait wg evs = (wg', WaitRejected e) ->
             promises wg' = promises wg ++ additions evs
             /\ exists h, In h (promises wg)
                          /\ In (EvSettle h (RejectedWith e)) evs).
  { intros wg' e Hwait. unfold wait in Hwait.
    destruct (Promise_all (promises wg) [] (settlements evs)) as [vs|e1|]
      eqn:Hall; try discriminate.
    injection Hwait as <- <-. split; [apply promises_run_events|].
    destruct (Promise_all_rejected_inv _ _ _ _ Hall) as (h & Hh & Hin).
    exists h. split; [exact Hh|now apply In_settlements]. }
  assert (Hres : forall wg' vs,
             wait wg evs = (wg', WaitResolved vs) ->
             Forall2 (fun h v => In (EvSettle h (Fulfilled v)) evs)
               (promises wg) vs
             /\ getCount wg' = 0
             /\ promises wg' = []).
  { intros wg' vs Hwait. unfold wait in Hwait.
    destruct (Promise_all (promises wg) [] (settlements evs)) as [vs1|e1|]
      eqn:Hall; try discriminate.
    injection Hwait as <- <-. split; [|split; reflexivity].
    pose proof (Promise_all_fulfilled_values (promises wg) (settlements evs)
                  (settlements evs) [] vs1 ltac:(intros ? ? [])
                  (incl_refl _) Hall) as Hf.
    eapply Forall2_impl; [|exact Hf].
    intros h v Hv. cbn beta in Hv. now apply In_settlements. }
  split; [|split; [|split; [exact Hrej|split; [exact Hres|]]]].
  - split.
    + intros Hpending. split.
      * intros h e Hh Hin.
        destruct (Hrejects (ex_intro _ h (ex_intro _ e (conj Hh Hin))))
          as (e1 & Hall & _).
        unfold wait in Hpending. rewrite Hall in Hpending.
        discriminate Hpending.
      * intros Hall.
        destruct (Promise_all_fulfils (promises wg) (settlements evs) [])
          as (vs & Hfu).
        -- intros h Hh. right. destruct (Hall h Hh) as [v Hv].
           exists v. now apply In_settlements.
        -- intros h e Hh Hin. destruct (Hall h Hh) as [v Hv].
           apply In_settlements in Hv.
           pose proof (NoDup_fst_unique _ h _ _ Hnd Hin Hv) as Heq.
           discriminate Heq.
        -- unfold wait in Hpending. rewrite Hfu in Hpending.
           discriminate Hpending.
    + intros [Hnorej Hnotall].
      destruct (wait wg evs) as [wg' [vs|e|]] eqn:Hwait; [| |reflexivity].
      * exfalso. apply Hnotall.
        destruct (Hres wg' vs eq_refl) as [Hf _].
        intros h Hh. exact (Forall2_In_l _ _ _ Hf h Hh).
      * exfalso. destruct (Hrej wg' e eq_refl) as [_ (h & Hh & Hin)].
        exact (Hnorej h e Hh Hin).
  - intros Hex. destruct (Hrejects Hex) as (e1 & Hall & Hfirst).
    exists e1. split; [|exact Hfirst].
    unfold wait. rewrite Hall. reflexivity.
  - intros Hempty. unfold wait. rewrite Hempty.
    destruct (settlements evs) as [|[h0 [v0|e0]] obs']; reflexivity.
Qed.

Lemma wait_pending_or_rejected_witness :
  (snd (wait (add (add new_WaitGroup 0%nat) 1%nat)
          [EvSettle 0%nat (@Fulfilled Z Z 3); EvAdd 2%nat])
   = WaitPending
   <-> (forall h e, In h [0%nat; 1%nat] ->
                    ~ In (EvSettle h (RejectedWith e))
                        [EvSettle 0%nat (@Fulfilled Z Z 3); EvAdd 2%nat])
       /\ ~ (forall h, In h [0%nat; 1%nat] ->
                       exists v, In (EvSettle h (Fulfilled v))
                                   [EvSettle 0%nat (@Fulfilled Z Z 3);
                                    EvAdd 2%nat]))
  /\ (forall wg' vs,
         wait (add new_WaitGroup 0%nat)
           [EvAdd 1%nat; EvSettle 0%nat (@Fulfilled Z Z 10)]
         = (wg', WaitResolved vs) ->
         Forall2
           (fun h v =>
              In (EvSettle h (Fulfilled v))
                [EvAdd 1%nat; EvSettle 0%nat (@Fulfilled Z Z 10)])
           [0%nat] vs
         /\ getCount wg' = 0
         /\ promises wg' = []).
Proof.
  split.
  - apply (proj1 (wait_pending_or_rejected
                    (add (add new_WaitGroup 0%nat) 1%nat)
                    [EvSettle 0%nat (@Fulfilled Z Z 3); EvAdd 2%nat]
                    ltac:(cbn; repeat constructor; intros []))).
  - apply (proj1 (proj2 (proj2 (proj2
             (wait_pending_or_rejected
                (add new_WaitGroup 0%nat)
                [EvAdd 1%nat; EvSettle 0%nat (@Fulfilled Z Z 10)]
                ltac:(cbn; repeat constructor; intros [])))))).
Defined.

(** ** The global pool *)

Module GoroutineFacts.
Import Pool Registry Goroutine.

Lemma initializeWorkers_shape (n : nat) :
  forall p : WorkerPool,
    workers (initializeWorkers n p) = workers p ++ seq (nextWorker p) n
    /\ availableWorkers (initializeWorkers n p)
       = availableWorkers p ++ seq (nextWorker p) n
    /\ taskQueue (initializeWorkers n p) = taskQueue p
    /\ sharedChannels (initializeWorkers n p) = sharedChannels p
    /\ maxWorkers (initializeWorkers n p) = maxWorkers p
    /\ handles (initializeWorkers n p) = handles p.
Proof.
  induction n as [|n IH]; intros p; cbn [initializeWorkers seq].
  - now rewrite !app_nil_r.
  - destruct (IH (createWorker p)) as (-> & -> & -> & -> & -> & ->).
    cbn [createWorker workers availableWorkers taskQueue sharedChannels
           maxWorkers handles nextWorker].
    now rewrite <- !app_assoc.
Qed.

Lemma new_WorkerPool_shape (n : nat) :
  workers (new_WorkerPool n) = seq 0 n
  /\ availableWorkers (new_WorkerPool n) = seq 0 n
  /\ taskQueue (new_WorkerPool n) = []
  /\ sharedChannels (new_WorkerPool n) = []
  /\ maxWorkers (new_WorkerPool n) = n
  /\ handles (new_WorkerPool n) = [].
Proof.
  unfold new_WorkerPool. apply initializeWorkers_shape.
Qed.

(** Only the first initialisation counts: once a pool exists,
    [initializeGoroutines] ignores its argument, and [go] and
    [registerChannel] use the existing pool with its [n] workers; without
    any initialisation they create a pool of [os.cpus().length] workers. *)
Theorem first_initialization_wins (cpus n : nat) (later : option nat)
  (taskId : nat) :
  let g := initializeGoroutines cpus None (Some n) in
  initializeGoroutines cpus g later = g
  /\ getWorkerPool cpus g = new_WorkerPool n
  /\ go cpus g taskId = Some (execute (new_WorkerPool n) taskId)
  /\ workers (getWorkerPool cpus g) = seq 0 n
  /\ workers (getWorkerPool cpus None) = seq 0 cpus.
Proof.
  cbn [initializeGoroutines]. unfold go, getWorkerPool.
  cbn [initializeGoroutines].
  repeat split; apply new_WorkerPool_shape.
Qed.

(** [shutdown()] forgets the pool: the pool that a later [go] or
    [registerChannel] creates has [os.cpus().length] workers, whatever
    size was asked for before, and none of the channels registered
    before; the tasks still queued in the old pool keep their handles
    pending. *)
Theorem shutdown_forgets_the_pool (cpus : nat) (g : global)
  (id sharedBuffer : nat) :
  let registered := registerChannel cpus g id sharedBuffer in
  fst (shutdown registered) = None
  /\ Map_get (sharedChannels (getWorkerPool cpus registered)) id
     = Some sharedBuffer
  /\ getWorkerPool cpus (fst (shutdown registered)) = new_WorkerPool cpus
  /\ sharedChannels (getWorkerPool cpus (fst (shutdown registered))) = []
  /\ (forall pool,
         g = Some pool ->
         exists stopped,
           snd (shutdown g) = Some stopped
           /\ taskQueue stopped = taskQueue pool
           /\ handles stopped = handles pool).
Proof.
  intros registered. unfold registered, registerChannel.
  cbn [shutdown fst snd]. unfold getWorkerPool at 2 3.
  cbn [initializeGoroutines].
  split; [reflexivity|].
  split.
  { unfold getWorkerPool at 1. cbn [initializeGoroutines].
    unfold registerSharedChannel. cbn [sharedChannels].
    apply PoolRegistrations.Map_get_set_same. }
  split; [reflexivity|].
  split; [apply new_WorkerPool_shape|].
  intros pool ->. cbn [shutdown snd]. eexists. split; [reflexivity|].
  unfold terminate_awaited, terminate.
  destruct (PoolFacts.exits_keep_tasks (workers pool)
              (mkPool (workers pool) (availableWorkers pool) (taskQueue pool)
                 (maxWorkers pool) (sharedChannels pool) (nextWorker pool)
                 (handlers pool) (handles pool) (outbox pool)
                 (terminated pool ++ workers pool))) as [Hq Hh].
  split; assumption.
Qed.

(** A pool created with no workers ([maxWorkers = 0]) never runs
    anything: every submitted task is queued in order, nothing is posted
    and every handle stays pending. *)
Theorem pool_without_workers_runs_nothing (ids : list nat) :
  let p := fold_left execute ids (new_WorkerPool 0) in
  taskQueue p = ids
  /\ workers p = []
  /\ outbox p = []
  /\ handles p = map (fun id => (id, HPending)) ids.
Proof.
  assert (Hgen : forall (ids : list nat) (p : WorkerPool),
             workers p = [] -> availableWorkers p = [] -> maxWorkers p = 0%nat ->
             taskQueue (fold_left execute ids p) = taskQueue p ++ ids
             /\ workers (fold_left execute ids p) = []
             /\ outbox (fold_left execute ids p) = outbox p
             /\ handles (fold_left execute ids p)
                = handles p ++ map (fun id => (id, HPending)) ids).
  { clear ids. induction ids as [|id ids IH]; intros p Hw Ha Hm;
      cbn [fold_left map].
    - now rewrite !app_nil_r.
    - assert (He : execute p id
                   = mkPool [] [] (taskQueue p ++ [id]) 0 (sharedChannels p)
                       (nextWorker p) (handlers p)
                       (handles p ++ [(id, HPending)]) (outbox p)
                       (terminated p)).
      { unfold execute, processQueue.
        cbn [taskQueue availableWorkers handlers outbox workers maxWorkers].
        rewrite Ha, Hw, Hm.
        destruct (taskQueue p ++ [id]) as [|t q] eqn:Hq.
        - destruct (taskQueue p); discriminate.
        - cbn [dispatch taskQueue workers maxWorkers length Nat.ltb Nat.leb
                 andb]. rewrite andb_false_r. reflexivity. }
      rewrite He.
      destruct (IH (mkPool [] [] (taskQueue p ++ [id]) 0 (sharedChannels p)
                      (nextWorker p) (handlers p)
                      (handles p ++ [(id, HPending)]) (outbox p)
                      (terminated p)) eq_refl eq_refl eq_refl)
        as (-> & -> & -> & ->).
      cbn [taskQueue outbox handles].
      now rewrite <- !app_assoc. }
  intros p.
  destruct (Hgen ids (new_WorkerPool 0) eq_refl eq_refl eq_refl)
    as (Hq & Hw & Ho & Hh).
  repeat split; assumption.
Qed.

End GoroutineFacts.

(** ** Capacity at least one: a send never waits *)

(** On a channel of capacity at least one, [send] settles in its
    synchronous part, whatever the occupancy: it never parks and never
    touches [waiting_senders]. *)
Theorem buffered_send_never_waits {T : Type}
  (serializer : T -> option (list Z)) (ch : SharedChannel) (data : T) :
  1 <= bufferSize ch ->
  (exists r, snd (send serializer ch data) = SendSettled r)
  /\ h_waitingSenders (header (fst (send serializer ch data)))
     = h_waitingSenders (header ch).
Proof.
  intros Hcap. unfold send.
  destruct (_ =? 1); [split; [eexists; reflexivity|reflexivity]|].
  destruct (tryWrite_buffered_settles serializer ch data Hcap) as [r Hr].
  split; [exists r; exact Hr|].
  destruct (tryWrite_effect serializer ch data)
    as (_ & _ & _ & [[_ ->] | [[_ ->] | [[Hs | Hs] _]]]);
    try reflexivity; rewrite Hs in Hr; discriminate Hr.
Qed.

Lemma buffered_send_never_waits_witness :
  (exists r,
      snd (send Json.serializer
             (mkChannel (mkHeader 1 5 0 0 8 0 0) (repeat 0 8%nat) 1 8)
             (Json.VNumber 3)) = SendSettled r)
  /\ h_waitingSenders
       (header (fst (send Json.serializer
                       (mkChannel (mkHeader 1 5 0 0 8 0 0) (repeat 0 8%nat) 1 8)
                       (Json.VNumber 3))))
     = 0.
Proof.
  apply (buffered_send_never_waits Json.serializer
           (mkChannel (mkHeader 1 5 0 0 8 0 0) (repeat 0 8%nat) 1 8)
           (Json.VNumber 3)).
  cbn; lia.
Defined.

(** ** Capacity zero: nothing is ever transferred *)

Lemma waitForData_not_settled {T : Type} (ch : SharedChannel) :
  @waitForData T ch = RecvWaiting \/ @waitForData T ch = RecvWoken.
Proof.
  unfold waitForData. destruct (_ || _); auto.
Qed.

Lemma tryRead_empty {T : Type}
  (deserializer : list Z -> option T) (ch : SharedChannel) :
  h_writeIndex (header ch) = h_readIndex (header ch) ->
  tryRead deserializer ch = (ch, RecvSettled (Rejected ClosedAndEmptyError))
  \/ (fst (tryRead deserializer ch)
       = with_header ch (Atomics.add (header ch) 6 1)
      /\ (snd (tryRead deserializer ch) = RecvWaiting
          \/ snd (tryRead deserializer ch) = RecvWoken)).
Proof.
  intros Hwr. unfold tryRead.
  change (Atomics.load (header ch) 1) with (h_writeIndex (header ch)).
  change (Atomics.load (header ch) 2) with (h_readIndex (header ch)).
  rewrite Hwr, Z.eqb_refl.
  destruct (_ =? 1); [now left|].
  right. split; [reflexivity|]. cbn [snd]. apply waitForData_not_settled.
Qed.

Ltac still_waiting :=
  match goal with
  | |- waitForSpace ?c = _ \/ _ =>
      let E := fresh "E" in
      destruct (waitForSpace_not_settled c) as [E | E]; rewrite E; auto
  | |- @waitForData ?T ?c = _ \/ _ =>
      let E := fresh "E" in
      destruct (@waitForData_not_settled T c) as [E | E]; rewrite E; auto
  end.

Lemma step_nothing_transferred {T : Type}
  (serializer : T -> option (list Z)) (deserializer : list Z -> option T)
  (data : T) (s : system) (p : party) :
  nothing_transferred s ->
  nothing_transferred (step serializer deserializer data s p)
  /\ h_writeIndex (header (chan (step serializer deserializer data s p)))
     = h_writeIndex (header (chan s)).
Proof.
  intros (Hcap & Hwr & Hs & Hrv).
  destruct s as [ch snd_st rcv_st]; cbn [chan sender receiver] in *.
  destruct p; cbn [step chan sender receiver].
  - (* the sender runs *)
    assert (Hrun : forall ch' st',
               (match snd_st with
                | None => send serializer ch data
                | Some st => send_step serializer ch data st
                end) = (ch', st') ->
               bufferSize ch' = 0
               /\ h_writeIndex (header ch') = h_writeIndex (header ch)
               /\ h_readIndex (header ch') = h_readIndex (header ch)
               /\ (st' = SendWaiting \/ st' = SendWoken
                   \/ st' = SendSettled (Rejected ClosedError))).
    { intros ch' st' Hrun.
      destruct Hs as [-> | [-> | [-> | ->]]].
      - unfold send in Hrun. destruct (_ =? 1).
        + injection Hrun as <- <-. repeat split; auto 8.
        + rewrite tryWrite_rendezvous in Hrun by exact Hcap.
          injection Hrun as <- <-.
          repeat split; auto.
          still_waiting.
      - cbn [send_step] in Hrun. injection Hrun as <- <-.
        repeat split; auto.
        still_waiting.
      - cbn [send_step] in Hrun.
        rewrite tryWrite_rendezvous in Hrun by exact Hcap.
        injection Hrun as <- <-.
        repeat split; auto.
        still_waiting.
      - cbn [send_step] in Hrun. injection Hrun as <- <-. repeat split; auto 8. }
    destruct (match snd_st with
              | None => send serializer ch data
              | Some st => send_step serializer ch data st
              end) as [ch' st'].
    destruct (Hrun ch' st' eq_refl) as (Hb & Hw & Hr & Hst).
    unfold nothing_transferred. cbn [chan sender receiver].
    split; [|exact Hw].
    split; [exact Hb|]. split; [congruence|]. split; [|exact Hrv].
    destruct Hst as [-> | [-> | ->]]; auto.
  - (* the receiver runs *)
    assert (Hrun : forall ch' st',
               (match rcv_st with
                | None => receive deserializer ch
                | Some st => recv_step deserializer ch st
                end) = (ch', st') ->
               bufferSize ch' = 0
               /\ h_writeIndex (header ch') = h_writeIndex (header ch)
               /\ h_readIndex (header ch') = h_readIndex (header ch)
               /\ (st' = RecvWaiting \/ st' = RecvWoken
                   \/ st' = RecvSettled (Rejected ClosedAndEmptyError))).
    { intros ch' st' Hrun.
      destruct Hrv as [-> | [-> | [-> | ->]]].
      - unfold receive in Hrun. destruct (_ && _).
        + injection Hrun as <- <-. repeat split; auto 8.
        + destruct (tryRead_empty deserializer ch Hwr) as [E | [E1 E2]].
          * rewrite E in Hrun. injection Hrun as <- <-. repeat split; auto 8.
          * destruct (tryRead deserializer ch) as [c t].
            cbn [fst snd] in E1, E2. injection Hrun as <- <-. subst c.
            repeat split; auto 8. destruct E2 as [-> | ->]; auto.
      - cbn [recv_step] in Hrun. injection Hrun as <- <-.
        repeat split; auto.
        still_waiting.
      - cbn [recv_step] in Hrun.
        destruct (tryRead_empty deserializer
                    (with_header ch (Atomics.sub (header ch) 6 1)) Hwr)
          as [E | [E1 E2]].
        + rewrite E in Hrun. injection Hrun as <- <-. repeat split; auto 8.
        + destruct (tryRead deserializer
                      (with_header ch (Atomics.sub (header ch) 6 1)))
            as [c t].
          cbn [fst snd] in E1, E2. injection Hrun as <- <-. subst c.
          repeat split; auto 8. destruct E2 as [-> | ->]; auto.
      - cbn [recv_step] in Hrun. injection Hrun as <- <-. repeat split; auto 8. }
    destruct (match rcv_st with
              | None => receive deserializer ch
              | Some st => recv_step deserializer ch st
              end) as [ch' st'].
    destruct (Hrun ch' st' eq_refl) as (Hb & Hw & Hr & Hst).
    unfold nothing_transferred. cbn [chan sender receiver].
    split; [|exact Hw].
    split; [exact Hb|]. split; [congruence|]. split; [exact Hs|].
    destruct Hst as [-> | [-> | ->]]; auto.
Qed.

(** Through a channel of capacity 0 no value ever passes: whatever the
    header's other words say (open or closed, any waiter counts), and in
    whatever order the callbacks of one [send] and one [receive] run,
    the send never resolves, the receive never returns a value, and the
    write index never moves; the only way either promise settles is the
    closed-channel error. *)
Theorem capacity_zero_never_transfers {T : Type}
  (serializer : T -> option (list Z)) (deserializer : list Z -> option T)
  (data : T) (ch : SharedChannel) (schedule : list party) :
  bufferSize ch = 0 ->
  h_writeIndex (header ch) = h_readIndex (header ch) ->
  let s := run serializer deserializer data (mkSystem ch None None) schedule in
  sender s <> Some (SendSettled (Resolved tt))
  /\ (forall v, receiver s <> Some (RecvSettled (Resolved v)))
  /\ h_writeIndex (header (chan s)) = h_writeIndex (header ch)
  /\ h_readIndex (header (chan s)) = h_readIndex (header ch)
  /\ (forall o, sender s = Some (SendSettled o) -> o = Rejected ClosedError)
  /\ (forall o, receiver s = Some (RecvSettled o) ->
                o = Rejected ClosedAndEmptyError).
Proof.
  intros Hcap Hwr s.
  assert (Hgen : forall (schedule : list party) (s0 : system),
             nothing_transferred s0 ->
             nothing_transferred
               (run serializer deserializer data s0 schedule)
             /\ h_writeIndex
                  (header (chan (run serializer deserializer data s0 schedule)))
                = h_writeIndex (header (chan s0))).
  { clear. induction schedule as [|p schedule IH]; intros s0 Hs0;
      cbn [run fold_left].
    - auto.
    - destruct (step_nothing_transferred serializer deserializer data s0 p Hs0)
        as [Hs1 Hw1].
      destruct (IH _ Hs1) as [Hs2 Hw2]. split; [exact Hs2|].
      unfold run in Hw2. congruence. }
  destruct (Hgen schedule (mkSystem ch None None)) as [(Hb & Hwr' & Hs & Hrv) Hw].
  { unfold nothing_transferred. cbn [chan sender receiver]. auto. }
  fold s in Hb, Hwr', Hs, Hrv, Hw. cbn [chan] in Hw.
  split; [destruct Hs as [-> | [-> | [-> | ->]]]; discriminate|].
  split; [intros v; destruct Hrv as [-> | [-> | [-> | ->]]]; discriminate|].
  split; [exact Hw|]. split; [congruence|].
  split.
  - intros o Ho. destruct Hs as [E | [E | [E | E]]]; rewrite E in Ho;
      try discriminate. now injection Ho as <-.
  - intros o Ho. destruct Hrv as [E | [E | [E | E]]]; rewrite E in Ho;
      try discriminate. now injection Ho as <-.
Qed.

Lemma capacity_zero_never_transfers_witness :
  sender (run Json.serializer Json.deserializer (Json.VNumber 42)
            (mkSystem (mkChannel (mkHeader 0 0 0 0 1024 0 0) [] 0 1024)
               None None)
            [Sender; Receiver; Sender; Receiver])
  <> Some (SendSettled (Resolved tt))
  /\ (forall v,
         receiver (run Json.serializer Json.deserializer (Json.VNumber 42)
                     (mkSystem (mkChannel (mkHeader 0 0 0 0 1024 0 0) [] 0 1024)
                        None None)
                     [Sender; Receiver; Sender; Receiver])
         <> Some (RecvSettled (Resolved v)))
  /\ h_writeIndex
       (header (chan (run Json.serializer Json.deserializer (Json.VNumber 42)
                        (mkSystem
                           (mkChannel (mkHeader 0 0 0 0 1024 0 0) [] 0 1024)
                           None None)
                        [Sender; Receiver; Sender; Receiver])))
     = 0
  /\ h_readIndex
       (header (chan (run Json.serializer Json.deserializer (Json.VNumber 42)
                        (mkSystem
                           (mkChannel (mkHeader 0 0 0 0 1024 0 0) [] 0 1024)
                           None None)
                        [Sender; Receiver; Sender; Receiver])))
     = 0
  /\ (forall o,
         sender (run Json.serializer Json.deserializer (Json.VNumber 42)
                   (mkSystem (mkChannel (mkHeader 0 0 0 0 1024 0 0) [] 0 1024)
                      None None)
                   [Sender; Receiver; Sender; Receiver])
         = Some (SendSettled o) -> o = Rejected ClosedError)
  /\ (forall o,
         receiver (run Json.serializer Json.deserializer (Json.VNumber 42)
                     (mkSystem (mkChannel (mkHeader 0 0 0 0 1024 0 0) [] 0 1024)
                        None None)
                     [Sender; Receiver; Sender; Receiver])
         = Some (RecvSettled o) -> o = Rejected ClosedAndEmptyError).
Proof.
  apply (capacity_zero_never_transfers Json.serializer Json.deserializer
           (Json.VNumber 42)
           (mkChannel (mkHeader 0 0 0 0 1024 0 0) [] 0 1024)
           [Sender; Receiver; Sender; Receiver]); reflexivity.
Defined.

(** ** The traversal and the loop, on a run without other errors *)

Lemma asyncIterator_agrees_with_receive_loop_witness :
  asyncIterator Json.deserializer 3
    (mkChannel (mkHeader 1 1 0 1 8 0 0) [2; 0; 0; 0; 52; 50; 0; 0] 1 8)
  = receive_loop Json.deserializer 3
      (mkChannel (mkHeader 1 1 0 1 8 0 0) [2; 0; 0; 0; 52; 50; 0; 0] 1 8).
Proof.
  apply (asyncIterator_agrees_with_receive_loop Json.deserializer 3
           (mkChannel (mkHeader 1 1 0 1 8 0 0) [2; 0; 0; 0; 52; 50; 0; 0] 1 8)).
  intros e. vm_compute. discriminate.
Defined.
